(** * TechPlusNew: the news ingestion and aggregation pipeline

    A shallow embedding of the feed extractor, the classifier, the ingestion
    coordinator, the sentiment call, the trending aggregator and the
    related-article linker ([services/rssService], [services/aiService],
    [services/newsService], [storage]), with the properties the
    specification states about them.

    Conventions.
    - A JavaScript string is a list of code units; the model keeps the code
      units below 256 (Latin-1), so a code unit is an [ascii].
    - JavaScript [undefined] / SQL [NULL] is [None].
    - A regular expression of the source is embedded as the recursive
      matcher it denotes; the comment above each matcher quotes the
      expression.
    - The clock ([new Date()]) is an argument [now] of each pipeline stage,
      in milliseconds. *)

From Stdlib Require Import String Ascii List Bool Arith ZArith QArith Lia.
From Stdlib Require Import Permutation Sorted.
Import ListNotations.

Local Open Scope nat_scope.
Local Open Scope list_scope.

(* ================================================================== *)
(** ** Text *)
(* ================================================================== *)

Definition text := list ascii.

Definition lit (s : string) : text := list_ascii_of_string s.

Definition code (c : ascii) : nat := nat_of_ascii c.

Definition inRange (lo hi : nat) (c : ascii) : bool :=
  (lo <=? code c) && (code c <=? hi).

(** [A-Z], [a-z], [0-9] *)
Definition isUpper (c : ascii) : bool := inRange 65 90 c.
Definition isLower (c : ascii) : bool := inRange 97 122 c.
Definition isDigit (c : ascii) : bool := inRange 48 57 c.

(** [\w] *)
Definition isWord (c : ascii) : bool :=
  isUpper c || isLower c || isDigit c || (code c =? 95).

(** [\s], and the characters [trim] removes: TAB, LF, VT, FF, CR, SP and
    NBSP are the ones below 256. *)
Definition isSpace (c : ascii) : bool :=
  inRange 9 13 c || (code c =? 32) || (code c =? 160).

(** What [.] refuses without the [s] flag. *)
Definition isLineTerminator (c : ascii) : bool :=
  (code c =? 10) || (code c =? 13).

(** [String.prototype.toLowerCase] on one code unit below 256: A-Z, and
    the Latin-1 capitals U+00C0..U+00DE except the sign U+00D7. *)
Definition toLowerChar (c : ascii) : ascii :=
  if isUpper c || (inRange 192 222 c && negb (code c =? 215))
  then ascii_of_nat (code c + 32) else c.

Definition toLowerCase (s : text) : text := map toLowerChar s.

(** The canonical form the [i] flag compares: the patterns of the source
    are ASCII, and a code unit outside ASCII never folds into ASCII. *)
Definition canonicalize (c : ascii) : ascii :=
  if isLower c then ascii_of_nat (code c - 32) else c.

Definition chrEq (ignoreCase : bool) (c d : ascii) : bool :=
  if ignoreCase then Ascii.eqb (canonicalize c) (canonicalize d)
  else Ascii.eqb c d.

Fixpoint textEqb (a b : text) : bool :=
  match a, b with
  | [], [] => true
  | c :: a', d :: b' => Ascii.eqb c d && textEqb a' b'
  | _, _ => false
  end.

Fixpoint startsWith (s p : text) {struct p} : bool :=
  match p, s with
  | [], _ => true
  | c :: p', d :: s' => Ascii.eqb c d && startsWith s' p'
  | _ :: _, [] => false
  end.

(** [String.prototype.includes] *)
Fixpoint includes (s needle : text) : bool :=
  startsWith s needle ||
  match s with
  | [] => false
  | _ :: s' => includes s' needle
  end.

Fixpoint dropWhile {A} (p : A -> bool) (l : list A) : list A :=
  match l with
  | [] => []
  | x :: l' => if p x then dropWhile p l' else l
  end.

(** [String.prototype.trim] *)
Definition trimStart (s : text) : text := dropWhile isSpace s.
Definition trimEnd (s : text) : text := rev (dropWhile isSpace (rev s)).
Definition trim (s : text) : text := trimEnd (trimStart s).

(** Truthiness of a string that may be [undefined]. *)
Definition truthy (o : option text) : bool :=
  match o with
  | Some (_ :: _) => true
  | _ => false
  end.

(** [a || b] on strings that may be [undefined]. *)
Definition orElse (a b : option text) : option text :=
  if truthy a then a else b.

(** [a || ''] *)
Definition orEmpty (a : option text) : text :=
  match a with
  | Some s => s
  | None => []
  end.

(** The members of a [Set] built from an array, in insertion order. *)
Fixpoint dedupe (seen : list text) (l : list text) : list text :=
  match l with
  | [] => []
  | x :: l' =>
      if existsb (textEqb x) seen then dedupe seen l'
      else x :: dedupe (x :: seen) l'
  end.

(* ================================================================== *)
(** ** Regular expressions of the source, as matchers *)
(* ================================================================== *)

(** A literal at the head of [s]; the result is the text after it. *)
Fixpoint matchLit (ignoreCase : bool) (p s : text) : option text :=
  match p with
  | [] => Some s
  | c :: p' =>
      match s with
      | [] => None
      | d :: s' => if chrEq ignoreCase c d then matchLit ignoreCase p' s' else None
      end
  end.

(** [(.*?)close] at the head of [s]: the shortest run of [.] characters
    that [close] follows; the result is the group and the text after
    [close]. With [dotAll] (the [s] flag) [.] takes line terminators
    too. *)
Fixpoint lazyUntil (dotAll ignoreCase : bool) (close s : text)
  : option (text * text) :=
  match matchLit ignoreCase close s with
  | Some rest => Some ([], rest)
  | None =>
      match s with
      | [] => None
      | c :: s' =>
          if dotAll || negb (isLineTerminator c) then
            match lazyUntil dotAll ignoreCase close s' with
            | Some (g, rest) => Some (c :: g, rest)
            | None => None
            end
          else None
      end
  end.

(** [open(.*?)close] at the head of [s]. *)
Definition matchElement (dotAll : bool) (open close s : text)
  : option (text * text) :=
  match matchLit true open s with
  | Some s1 => lazyUntil dotAll true close s1
  | None => None
  end.

(** [<tag><![CDATA[(.*?)]]></tag>|<tag>(.*?)</tag>] with the [i] flag, at
    the head of [s]: the two groups ([None] for the group of the
    alternative that did not take part) and the text after the match. *)
Definition matchCDataOrPlain (tag s : text)
  : option (option text * option text * text) :=
  let open := lit "<" ++ tag ++ lit ">" in
  let close := lit "</" ++ tag ++ lit ">" in
  match matchElement false (open ++ lit "<![CDATA[") (lit "]]>" ++ close) s with
  | Some (g, rest) => Some (Some g, None, rest)
  | None =>
      match matchElement false open close s with
      | Some (g, rest) => Some (None, Some g, rest)
      | None => None
      end
  end.

(** [String.prototype.match] without the [g] flag: the leftmost position
    at which the matcher succeeds. *)
Fixpoint search {A} (m : text -> option A) (s : text) : option A :=
  match m s with
  | Some r => Some r
  | None =>
      match s with
      | [] => None
      | _ :: s' => search m s'
      end
  end.

(** The [while ((x = re.exec(s)) !== null)] loop of a [g] expression: all
    matches from left to right, each search resuming where the previous
    match ended. [skip] counts the characters of the current match still
    to pass. Every expression used with it needs at least one
    character. *)
Fixpoint execAll {A} (m : text -> option (A * text)) (skip : nat) (s : text)
  : list A :=
  match s with
  | [] => []
  | _ :: s' =>
      match skip with
      | S k => execAll m k s'
      | 0 =>
          match m s with
          | Some (a, rest) => a :: execAll m (length s' - length rest) s'
          | None => execAll m 0 s'
          end
      end
  end.

(** [s.replace(re, rep)] for a [g] expression [re] given by its matcher
    (the text after a match at the head, if any). *)
Fixpoint replaceAll (m : text -> option text) (rep : text) (skip : nat) (s : text)
  : text :=
  match s with
  | [] => []
  | c :: s' =>
      match skip with
      | S k => replaceAll m rep k s'
      | 0 =>
          match m s with
          | Some rest => rep ++ replaceAll m rep (length s' - length rest) s'
          | None => c :: replaceAll m rep 0 s'
          end
      end
  end.

(** The text after the first [>]. *)
Fixpoint afterGt (s : text) : option text :=
  match s with
  | [] => None
  | c :: s' => if Ascii.eqb c ">" then Some s' else afterGt s'
  end.

(** [<[^>]*>] at the head of [s]. *)
Definition matchTag (s : text) : option text :=
  match s with
  | c :: s' => if Ascii.eqb c "<" then afterGt s' else None
  | [] => None
  end.

(** [\s+] at the head of [s]. *)
Definition matchSpaces (s : text) : option text :=
  match s with
  | c :: s' => if isSpace c then Some (dropWhile isSpace s') else None
  | [] => None
  end.

(* ================================================================== *)
(** ** RSSService: extractor and classifier *)
(* ================================================================== *)

Record RSSItem := {
  item_title : text;
  item_link : text;
  item_description : option text;
  item_pubDate : option text;
  item_guid : option text;
  item_content : option text
}.

Record RSSFeed := {
  feed_title : option text;
  feed_items : list RSSItem
}.

(** [cleanHTML] *)
Definition stripTags (s : text) : text := replaceAll matchTag [] 0 s.

Definition decodeEntities (s : text) : text :=
  let s := replaceAll (matchLit false (lit "&quot;")) ["034"%char] 0 s in
  let s := replaceAll (matchLit false (lit "&amp;")) (lit "&") 0 s in
  let s := replaceAll (matchLit false (lit "&lt;")) (lit "<") 0 s in
  let s := replaceAll (matchLit false (lit "&gt;")) (lit ">") 0 s in
  replaceAll (matchLit false (lit "&nbsp;")) (lit " ") 0 s.

Definition collapseSpaces (s : text) : text :=
  replaceAll matchSpaces (lit " ") 0 s.

Definition cleanHTML (html : option text) : text :=
  if truthy html then
    trim (collapseSpaces (decodeEntities (stripTags (orEmpty html))))
  else [].

(** The value of [m ? (m[1] || m[2]) : dflt] for the two-group
    expression. *)
Definition groupOr (m : option (option text * option text * text)) (dflt : text)
  : option text :=
  match m with
  | Some (g1, g2, _) => orElse g1 g2
  | None => Some dflt
  end.

(** The first group of a one-group expression, [m ? m[1] : ''] *)
Definition group1 (m : option (text * text)) : text :=
  match m with
  | Some (g, _) => g
  | None => []
  end.

(** [<guid[^>]*>(.*?)</guid>] with the [i] flag, at the head of [s]. *)
Definition matchGuid (s : text) : option (text * text) :=
  match matchLit true (lit "<guid") s with
  | Some s1 =>
      match afterGt s1 with
      | Some s2 => lazyUntil false true (lit "</guid>") s2
      | None => None
      end
  | None => None
  end.

(** The body of the item loop: the fields of one [<item>] block, and the
    item pushed when the raw title and the trimmed link are both
    non-empty. *)
Definition parseItem (itemContent : text) : option RSSItem :=
  let itemTitle := groupOr (search (matchCDataOrPlain (lit "title")) itemContent) [] in
  let link :=
    trim (group1 (search (matchElement false (lit "<link>") (lit "</link>")) itemContent)) in
  let description :=
    groupOr (search (matchCDataOrPlain (lit "description")) itemContent) [] in
  let pubDate :=
    group1 (search (matchElement false (lit "<pubDate>") (lit "</pubDate>")) itemContent) in
  let guid := group1 (search matchGuid itemContent) in
  if truthy itemTitle && truthy (Some link) then
    Some {| item_title := cleanHTML itemTitle;
            item_link := link;
            item_description := Some (cleanHTML description);
            item_pubDate := Some pubDate;
            item_guid := Some guid;
            item_content := Some (cleanHTML description) |}
  else None.

(** [/<item>(.*?)<\/item>/gis] *)
Definition matchItem (s : text) : option (text * text) :=
  matchElement true (lit "<item>") (lit "</item>") s.

Fixpoint keepSome {A} (l : list (option A)) : list A :=
  match l with
  | [] => []
  | Some a :: l' => a :: keepSome l'
  | None :: l' => keepSome l'
  end.

Definition parseRSS (xmlText : text) : RSSFeed :=
  {| feed_title :=
       groupOr (search (matchCDataOrPlain (lit "title")) xmlText) (lit "Unknown Feed");
     feed_items := keepSome (map parseItem (execAll matchItem 0 xmlText)) |}.

Inductive Category := ai_ml | startups | cybersecurity | mobile | web3 | others.

Definition anyIncluded (s : text) (keywords : list string) : bool :=
  existsb (fun k => includes s (lit k)) keywords.

Definition aiKeywords : list string :=
  ["ai"; "artificial intelligence"; "machine learning"; "ml"; "gpt"; "neural";
   "openai"]%string.
Definition startupKeywords : list string :=
  ["startup"; "funding"; "venture"; "investment"; "y combinator"]%string.
Definition securityKeywords : list string :=
  ["security"; "cyber"; "hack"; "vulnerability"; "breach"; "malware"]%string.
Definition mobileKeywords : list string :=
  ["mobile"; "iphone"; "android"; "app"; "smartphone"]%string.
Definition web3Keywords : list string :=
  ["web3"; "blockchain"; "crypto"; "bitcoin"; "ethereum"; "nft"]%string.

Definition categorizeArticle (title content : text) : Category :=
  let t := toLowerCase (title ++ lit " " ++ content) in
  if anyIncluded t aiKeywords then ai_ml
  else if anyIncluded t startupKeywords then startups
  else if anyIncluded t securityKeywords then cybersecurity
  else if anyIncluded t mobileKeywords then mobile
  else if anyIncluded t web3Keywords then web3
  else others.

(** The classifier in the words of the specification: the categories in
    their match order, each with its keyword set; the first category with
    a keyword in the text wins, [others] catches the rest. *)
Definition categoryOrder : list (Category * list string) :=
  [(ai_ml, aiKeywords); (startups, startupKeywords);
   (cybersecurity, securityKeywords); (mobile, mobileKeywords);
   (web3, web3Keywords)].

Fixpoint firstMatch (order : list (Category * list string)) (t : text) : Category :=
  match order with
  | [] => others
  | (c, keywords) :: rest =>
      if anyIncluded t keywords then c else firstMatch rest t
  end.

Definition recognizedKeywords : list string :=
  flat_map snd categoryOrder.

(** [String.prototype.substring(0, n)] *)
Definition substring0 (n : nat) (s : text) : text := firstn n s.

Definition createSnippet (content : text) : text :=
  if truthy (Some content) then
    let cleanContent := cleanHTML (Some content) in
    if 200 <? length cleanContent
    then trim (substring0 200 cleanContent) ++ lit "..."
    else cleanContent
  else [].


(* ================================================================== *)
(** ** Numbers and dates *)
(* ================================================================== *)

(** A JavaScript number: the finite values are kept exact (a quotient of
    two set sizes and the literals of the source compare in binary64 as
    they do here), and the two zeros are one. *)
Inductive jsnum := NaN | NegInf | Fin (q : Q) | PosInf.

(** [a < b] on numbers; false as soon as one is [NaN]. *)
Definition jsLt (a b : jsnum) : bool :=
  match a, b with
  | NaN, _ | _, NaN => false
  | _, NegInf => false
  | NegInf, _ => true
  | PosInf, _ => false
  | Fin _, PosInf => true
  | Fin x, Fin y => match Qcompare x y with Lt => true | _ => false end
  end.

Definition isNaN (a : jsnum) : bool :=
  match a with NaN => true | _ => false end.

(** [Math.min], [Math.max] *)
Definition mathMin (a b : jsnum) : jsnum :=
  if isNaN a || isNaN b then NaN else if jsLt b a then b else a.
Definition mathMax (a b : jsnum) : jsnum :=
  if isNaN a || isNaN b then NaN else if jsLt a b then b else a.

(** [a / b] for two sizes. *)
Definition divSizes (a b : nat) : jsnum :=
  match b, a with
  | 0, 0 => NaN
  | 0, S _ => PosInf
  | S _, _ => Fin (Z.of_nat a # Pos.of_nat b)
  end.

(** A [Date]: a time value in milliseconds, or the invalid date. *)
Inductive JsDate := ValidDate (t : Z) | InvalidDate.

(* ================================================================== *)
(** ** Storage *)
(* ================================================================== *)

(** Row identifiers ([gen_random_uuid()]) are opaque; the model numbers
    the rows. *)
Definition ident := nat.

Record Source := {
  src_id : ident;
  src_name : text;
  src_url : text;
  src_rssUrl : option text;
  src_isActive : option bool;
  src_fetchInterval : option nat;
  src_lastFetchAt : option Z
}.

(** The columns of [articles] the pipeline reads or writes. *)
Record Article := {
  art_id : ident;
  art_title : text;
  art_url : text;
  art_content : option text;
  art_snippet : option text;
  art_sourceId : option ident;
  art_publishedAt : option Z;
  art_fetchedAt : option Z;
  art_category : option Category;
  art_sentiment : option text;
  art_sentimentScore : option jsnum;
  art_embedding : option text
}.

Record InsertArticle := {
  ins_title : text;
  ins_url : text;
  ins_content : text;
  ins_snippet : text;
  ins_sourceId : ident;
  ins_publishedAt : JsDate;
  ins_category : Category;
  ins_fetchedAt : JsDate
}.

Record TrendingRecord := {
  tr_date : Z;
  tr_topic : text;
  tr_count : nat;
  tr_category : option Category;
  tr_growthRate : Z
}.

Record RelatedArticle := {
  rel_articleId : ident;
  rel_relatedArticleId : ident;
  rel_similarityScore : jsnum
}.

Record Store := {
  sources : list Source;
  articles : list Article;
  trendingRecords : list TrendingRecord;
  relatedArticles : list RelatedArticle;
  nextId : ident
}.

(** [LIKE] of PostgreSQL with the default escape: [%] stands for any run
    of characters, [_] for any one character, and a backslash takes the
    next pattern character literally. (A pattern that ends in a lone
    backslash is refused by the server; the patterns built below end in
    [%].) *)
Fixpoint like (p s : text) {struct p} : bool :=
  match p with
  | [] => match s with [] => true | _ :: _ => false end
  | c :: p' =>
      if Ascii.eqb c "%" then
        (fix anyRun (s : text) : bool :=
           like p' s || match s with [] => false | _ :: s' => anyRun s' end) s
      else if Ascii.eqb c "_" then
        match s with [] => false | _ :: s' => like p' s' end
      else if Ascii.eqb c "\" then
        match p' with
        | [] => false
        | e :: p'' =>
            match s with [] => false | d :: s' => Ascii.eqb e d && like p'' s' end
        end
      else
        match s with [] => false | d :: s' => Ascii.eqb c d && like p' s' end
  end.

(** A stable sort: [x], which came before every member of [l], goes in
    front of the first member that may not stay before it. *)
Fixpoint insertBy {A} (staysBefore : A -> A -> bool) (x : A) (l : list A) : list A :=
  match l with
  | [] => [x]
  | y :: l' => if staysBefore y x then y :: insertBy staysBefore x l' else x :: l
  end.

Definition sortBy {A} (staysBefore : A -> A -> bool) (l : list A) : list A :=
  fold_right (insertBy staysBefore) [] l.

Inductive TimeRange := today | week | month | otherRange.

Record ArticleQuery := {
  q_category : option Category;
  q_timeRange : option TimeRange;
  q_search : option text;
  q_page : option nat;
  q_limit : option nat
}.

Definition categoryEqb (a b : Category) : bool :=
  match a, b with
  | ai_ml, ai_ml | startups, startups | cybersecurity, cybersecurity
  | mobile, mobile | web3, web3 | others, others => true
  | _, _ => false
  end.

Definition dayMs : Z := 24 * 60 * 60 * 1000.

Definition timeThreshold (now : Z) (r : TimeRange) : Z :=
  match r with
  | today => now - dayMs
  | week => now - 7 * dayMs
  | month => now - 30 * dayMs
  | otherRange => 0
  end%Z.

(** [or(like(title, %s%), like(content, %s%))] *)
Definition searchMatches (s : text) (a : Article) : bool :=
  let pattern := lit "%" ++ s ++ lit "%" in
  like pattern (art_title a) ||
  match art_content a with
  | Some c => like pattern c
  | None => false
  end.

Definition whereClause (now : Z) (q : ArticleQuery) (a : Article) : bool :=
  match q_category q with
  | Some c =>
      match art_category a with Some c' => categoryEqb c' c | None => false end
  | None => true
  end &&
  match q_timeRange q with
  | Some r =>
      match art_publishedAt a with
      | Some t => (timeThreshold now r <=? t)%Z
      | None => false
      end
  | None => true
  end &&
  (if truthy (q_search q) then searchMatches (orEmpty (q_search q)) a else true).

(** [ORDER BY published_at DESC]: a row stays before a row that came
    earlier in the table when its date is strictly later; [NULL] dates
    sort first. Rows with the same date keep the table's order (SQL
    leaves their order open). *)
Definition publishedEarlier (y x : Article) : bool :=
  match art_publishedAt y, art_publishedAt x with
  | Some a, Some b => (a <? b)%Z
  | Some _, None => true
  | None, _ => false
  end.

Definition byPublishedDesc (y x : Article) : bool := publishedEarlier x y.

(** [n || d] *)
Definition orNat (n : option nat) (d : nat) : nat :=
  match n with
  | Some (S k) => S k
  | _ => d
  end.

Definition getArticles (now : Z) (q : ArticleQuery) (st : Store) : list Article :=
  let page := orNat (q_page q) 1 in
  let limit := orNat (q_limit q) 20 in
  let offset := (page - 1) * limit in
  firstn limit
    (skipn offset (sortBy byPublishedDesc (filter (whereClause now q) (articles st)))).

(** [getSources]: the active sources. *)
Definition getSources (st : Store) : list Source :=
  filter (fun s => match src_isActive s with Some true => true | _ => false end)
         (sources st).

Definition isValidDate (d : JsDate) : bool :=
  match d with ValidDate _ => true | InvalidDate => false end.

Definition timeValue (d : JsDate) : option Z :=
  match d with ValidDate t => Some t | InvalidDate => None end.

(** What makes the insert succeed: both dates convert for the driver
    ([toISOString] raises on the invalid date), the URL is not stored yet
    ([url] is [unique]) and the source row exists ([source_id] references
    [sources.id]). *)
Definition insertAccepted (a : InsertArticle) (st : Store) : bool :=
  isValidDate (ins_publishedAt a) && isValidDate (ins_fetchedAt a) &&
  negb (existsb (fun b => textEqb (art_url b) (ins_url a)) (articles st)) &&
  existsb (fun s => src_id s =? ins_sourceId a) (sources st).

(** [createArticle]; [None] when the insert raises. *)
Definition createArticle (a : InsertArticle) (st : Store) : option Store :=
  if insertAccepted a st then
    Some {| sources := sources st;
            articles :=
              articles st ++
              [{| art_id := nextId st;
                  art_title := ins_title a;
                  art_url := ins_url a;
                  art_content := Some (ins_content a);
                  art_snippet := Some (ins_snippet a);
                  art_sourceId := Some (ins_sourceId a);
                  art_publishedAt := timeValue (ins_publishedAt a);
                  art_fetchedAt := timeValue (ins_fetchedAt a);
                  art_category := Some (ins_category a);
                  art_sentiment := None;
                  art_sentimentScore := None;
                  art_embedding := None |}];
            trendingRecords := trendingRecords st;
            relatedArticles := relatedArticles st;
            nextId := S (nextId st) |}
  else None.

Definition touchSource (now : Z) (id : ident) (s : Source) : Source :=
  if src_id s =? id then
    {| src_id := src_id s; src_name := src_name s; src_url := src_url s;
       src_rssUrl := src_rssUrl s; src_isActive := src_isActive s;
       src_fetchInterval := src_fetchInterval s; src_lastFetchAt := Some now |}
  else s.

Definition updateSourceLastFetch (now : Z) (id : ident) (st : Store) : Store :=
  {| sources := map (touchSource now id) (sources st);
     articles := articles st;
     trendingRecords := trendingRecords st;
     relatedArticles := relatedArticles st;
     nextId := nextId st |}.

(* ================================================================== *)
(** ** RSSService: the ingestion coordinator *)
(* ================================================================== *)

Section Coordinator.

(** [Date.parse]: the time value of a date string, [None] for [NaN]. *)
Variable parseDate : text -> option Z.

(** The feed transport: the body of a successful response, [None] when
    the request fails or the status is not a success. *)
Variable fetch : text -> option text.

(** [new Date(s)] *)
Definition newDate (s : text) : JsDate :=
  match parseDate s with
  | Some t => ValidDate t
  | None => InvalidDate
  end.

Definition fetchRSS (url : text) : option RSSFeed :=
  match fetch url with
  | Some xmlText => Some (parseRSS xmlText)
  | None => None
  end.

(** The [articleData] of one item. *)
Definition articleData (now : Z) (sourceId : ident) (item : RSSItem) : InsertArticle :=
  let publishedAt :=
    if truthy (item_pubDate item) then newDate (orEmpty (item_pubDate item))
    else ValidDate now in
  let category :=
    categorizeArticle (item_title item) (orEmpty (orElse (item_description item) (Some []))) in
  let snippet := createSnippet (orEmpty (orElse (item_description item) (Some []))) in
  {| ins_title := item_title item;
     ins_url := item_link item;
     ins_content :=
       orEmpty (orElse (orElse (item_content item) (item_description item)) (Some []));
     ins_snippet := snippet;
     ins_sourceId := sourceId;
     ins_publishedAt := publishedAt;
     ins_category := category;
     ins_fetchedAt := ValidDate now |}.

Definition titleQuery (title : text) : ArticleQuery :=
  {| q_category := None; q_timeRange := None; q_search := Some title;
     q_page := None; q_limit := Some 1 |}.

(** One turn of the item loop, on the store and [newArticlesCount]. *)
Definition storeItem (now : Z) (sourceId : ident) (acc : Store * nat) (item : RSSItem)
  : Store * nat :=
  let (st, newArticlesCount) := acc in
  match getArticles now (titleQuery (item_title item)) st with
  | _ :: _ => (st, newArticlesCount)
  | [] =>
      match createArticle (articleData now sourceId item) st with
      | Some st' => (st', S newArticlesCount)
      | None => (st, newArticlesCount)
      end
  end.

Definition fetchAndStoreArticles (now : Z) (sourceId : ident) (rssUrl : text) (st : Store)
  : Store * nat :=
  match fetchRSS rssUrl with
  | Some feed =>
      let (st', newArticlesCount) :=
        fold_left (storeItem now sourceId) (feed_items feed) (st, 0) in
      (updateSourceLastFetch now sourceId st', newArticlesCount)
  | None => (st, 0)
  end.

(** One turn of the source loop. *)
Definition fetchSource (now : Z) (st : Store) (source : Source) : Store :=
  if truthy (src_rssUrl source) &&
     match src_isActive source with Some true => true | _ => false end
  then fst (fetchAndStoreArticles now (src_id source) (orEmpty (src_rssUrl source)) st)
  else st.

Definition fetchAllSources (now : Z) (st : Store) : Store :=
  fold_left (fetchSource now) (getSources st) st.

End Coordinator.

(* ================================================================== *)
(** ** AIService: analyzeSentiment *)
(* ================================================================== *)

(** The outcome of an expression that may raise. *)
Inductive completion (A : Type) := Normal (a : A) | Throw.
Arguments Normal {A} a.
Arguments Throw {A}.

Definition bind {A B} (c : completion A) (k : A -> completion B) : completion B :=
  match c with
  | Normal a => k a
  | Throw => Throw
  end.

Notation "x <- c ;; k" := (bind c (fun x => k))
  (at level 61, c at next level, right associativity).

(** [try { body } catch { handler }] *)
Definition tryCatch {A} (body : completion A) (handler : A) : A :=
  match body with
  | Normal a => a
  | Throw => handler
  end.

(** The values [JSON.parse] returns. *)
#[warnings="-register-all"]
Inductive json :=
| JNull
| JBool (b : bool)
| JNumber (n : jsnum)
| JString (s : text)
| JArray (l : list json)
| JObject (fields : list (text * json)).

(** The own property [k] of a parsed object: the last member of that name
    wins. *)
Fixpoint lookupField (k : text) (fields : list (text * json)) : option json :=
  match fields with
  | [] => None
  | (k', v) :: rest =>
      match lookupField k rest with
      | Some v' => Some v'
      | None => if textEqb k' k then Some v else None
      end
  end.

(** [v.k] for the property names read below, none of which a prototype
    defines: [undefined] on a primitive or an array, a [TypeError] on
    [null]. *)
Definition getProp (v : json) (k : text) : completion (option json) :=
  match v with
  | JNull => Throw
  | JObject fields => Normal (lookupField k fields)
  | _ => Normal None
  end.

Definition isZero (n : jsnum) : bool :=
  match n with
  | Fin q => Qeq_bool q 0
  | _ => false
  end.

(** [ToBoolean] *)
Definition toBoolean (v : json) : bool :=
  match v with
  | JNull => false
  | JBool b => b
  | JNumber n => negb (isNaN n || isZero n)
  | JString s => truthy (Some s)
  | JArray _ | JObject _ => true
  end.

(** [x || d] *)
Definition orJson (x : option json) (d : json) : json :=
  match x with
  | Some v => if toBoolean v then v else d
  | None => d
  end.

Record SentimentResult := {
  sentiment : json;
  score : jsnum;
  confidence : jsnum
}.

Definition neutralDefault : SentimentResult :=
  {| sentiment := JString (lit "neutral"); score := Fin 0; confidence := Fin 0 |}.

Section Sentiment.

(** The client: [None] without an API key; otherwise the chat call,
    from the user message to [choices[0].message.content], raising when
    the request or the access to the reply fails. *)
Variable openai : option (text -> completion (option text)).

(** [JSON.parse], raising on a syntax error. *)
Variable JSONparse : text -> completion json.

(** [ToNumber] of a string (the numeric-literal grammar) and of an
    array or object (through [ToPrimitive], which may raise). *)
Variable StringToNumber : text -> jsnum.
Variable ObjectToNumber : json -> completion jsnum.

Definition toNumber (v : json) : completion jsnum :=
  match v with
  | JNull => Normal (Fin 0)
  | JBool b => Normal (Fin (if b then 1 else 0))
  | JNumber n => Normal n
  | JString s => Normal (StringToNumber s)
  | JArray _ | JObject _ => ObjectToNumber v
  end.

Definition userMessage (t : text) : text :=
  lit "Analyze the sentiment of this text:" ++ ["010"; "010"]%char ++ substring0 2000 t.

(** The body of the [try] block, once the client is known to exist. *)
Definition sentimentBody (create : text -> completion (option text)) (t : text)
  : completion SentimentResult :=
  content <- create (userMessage t) ;;
  result <- JSONparse (orEmpty (orElse content (Some (lit "{}")))) ;;
  s <- getProp result (lit "sentiment") ;;
  sc <- getProp result (lit "score") ;;
  scn <- toNumber (orJson sc (JNumber (Fin 0))) ;;
  cf <- getProp result (lit "confidence") ;;
  cfn <- toNumber (orJson cf (JNumber (Fin (1 # 2)))) ;;
  Normal {| sentiment := orJson s (JString (lit "neutral"));
            score := mathMax (Fin (-1)) (mathMin (Fin 1) scn);
            confidence := mathMax (Fin 0) (mathMin (Fin 1) cfn) |}.

Definition analyzeSentiment (t : text) : SentimentResult :=
  match openai with
  | None => neutralDefault
  | Some create => tryCatch (sentimentBody create t) neutralDefault
  end.

End Sentiment.

(* ================================================================== *)
(** ** NewsService: trending topics *)
(* ================================================================== *)

Definition techKeywords : list string :=
  ["ai"; "artificial intelligence"; "machine learning"; "ml"; "deep learning";
   "openai"; "gpt"; "chatgpt"; "claude"; "llm"; "neural network";
   "blockchain"; "crypto"; "bitcoin"; "ethereum"; "web3"; "nft";
   "startup"; "funding"; "venture capital"; "ipo"; "acquisition";
   "cybersecurity"; "security"; "hack"; "breach"; "vulnerability";
   "mobile"; "iphone"; "android"; "app"; "ios";
   "cloud"; "aws"; "azure"; "google cloud"; "saas";
   "apple"; "google"; "microsoft"; "meta"; "tesla"; "nvidia";
   "quantum"; "robotics"; "automation"; "iot"; "ar"; "vr";
   "privacy"; "data"; "algorithm"; "software"; "hardware";
   "api"; "opensource"; "developer"; "programming"]%string.

(** The scan of [[a-z]+(?:\s+[A-Z][a-z]+)*\b] after the leading capital:
    [n] characters are consumed, [best] is the last length at which the
    expression could end. *)
Inductive companyState := AfterUpper | InLower | InSpace.

Fixpoint companyScan (q : companyState) (n : nat) (best : option nat) (s : text)
  : option nat :=
  match s with
  | [] => match q with InLower => Some n | _ => best end
  | c :: s' =>
      match q with
      | AfterUpper =>
          if isLower c then companyScan InLower (S n) best s' else best
      | InLower =>
          if isLower c then companyScan InLower (S n) best s'
          else if isWord c then best
          else if isSpace c then companyScan InSpace (S n) (Some n) s'
          else Some n
      | InSpace =>
          if isSpace c then companyScan InSpace (S n) best s'
          else if isUpper c then companyScan AfterUpper (S n) best s'
          else best
      end
  end.

(** [\b[A-Z][a-z]+(?:\s+[A-Z][a-z]+)*\b] at the head of [s], [prev] being
    the character before it: the match and the text after it. *)
Definition matchCompany (prev : option ascii) (s : text) : option (text * text) :=
  match s with
  | c :: s' =>
      if isUpper c && negb (match prev with Some p => isWord p | None => false end) then
        match companyScan AfterUpper 1 None s' with
        | Some n => Some (firstn n s, skipn n s)
        | None => None
        end
      else None
  | [] => None
  end.

(** [text.match(companyPattern) || []] *)
Fixpoint matchAllCompany (prev : option ascii) (skip : nat) (s : text) : list text :=
  match s with
  | [] => []
  | c :: s' =>
      match skip with
      | S k => matchAllCompany (Some c) k s'
      | 0 =>
          match matchCompany prev s with
          | Some (m, _) => m :: matchAllCompany (Some c) (length m - 1) s'
          | None => matchAllCompany (Some c) 0 s'
          end
      end
  end.

(** [extractKeywords]; the [words] array of the source is never read. *)
Definition extractKeywords (t : text) : list text :=
  let keywords := filter (fun k => includes t k) (map lit techKeywords) in
  let companies := matchAllCompany None 0 t in
  dedupe [] (keywords ++ map toLowerCase companies).

Definition calculateGrowthRate (topic : text) (currentCount : nat) : Z :=
  Z.min 100 ((Z.of_nat currentCount - 1) * 10).

(** A [Map<string, number>]: the entries in insertion order. *)
Definition counts := list (text * nat).

(** [m.set(k, (m.get(k) || 0) + 1)] *)
Fixpoint bump (k : text) (m : counts) : counts :=
  match m with
  | [] => [(k, 1)]
  | (k', n) :: m' =>
      if textEqb k' k then (k', S n) :: m' else (k', n) :: bump k m'
  end.

(** The [Map<string, Map<string, number>>] keyed by category; the key of
    an article without a category ([article.category ?? '']) is [None]. *)
Definition categoryCounts := list (option Category * counts).

Definition categoryKeyEqb (a b : option Category) : bool :=
  match a, b with
  | Some x, Some y => categoryEqb x y
  | None, None => true
  | _, _ => false
  end.

(** [if (!m.has(c)) m.set(c, new Map())] *)
Fixpoint ensureCategory (c : option Category) (m : categoryCounts) : categoryCounts :=
  match m with
  | [] => [(c, [])]
  | (c', t) :: m' =>
      if categoryKeyEqb c' c then m else (c', t) :: ensureCategory c m'
  end.

Fixpoint bumpCategory (c : option Category) (k : text) (m : categoryCounts)
  : categoryCounts :=
  match m with
  | [] => []
  | (c', t) :: m' =>
      if categoryKeyEqb c' c then (c', bump k t) :: m'
      else (c', t) :: bumpCategory c k m'
  end.

Definition articleKeywords (a : Article) : list text :=
  extractKeywords
    (toLowerCase (art_title a ++ lit " " ++ orEmpty (orElse (art_snippet a) (Some [])))).

(** One turn of the article loop on [keywordCounts] and
    [categoryTopics]. *)
Definition tally (acc : counts * categoryCounts) (a : Article) : counts * categoryCounts :=
  let categoryKey := art_category a in
  fold_left
    (fun acc keyword =>
       (bump keyword (fst acc), bumpCategory categoryKey keyword (snd acc)))
    (articleKeywords a)
    (fst acc, ensureCategory categoryKey (snd acc)).

Definition tallyAll (recentArticles : list Article) : counts * categoryCounts :=
  fold_left tally recentArticles ([], []).

(** [entries.sort(([, a], [, b]) => b - a)] *)
Definition byCountDesc (y x : text * nat) : bool := snd x <? snd y.

Definition topTopics (n : nat) (m : counts) : counts :=
  firstn n (sortBy byCountDesc m).

Definition trendingRecord (date : Z) (category : option Category) (e : text * nat)
  : TrendingRecord :=
  {| tr_date := date; tr_topic := fst e; tr_count := snd e;
     tr_category := category;
     tr_growthRate := calculateGrowthRate (fst e) (snd e) |}.

Definition overallRecords (date : Z) (m : counts) : list TrendingRecord :=
  map (trendingRecord date None) (filter (fun e => 3 <=? snd e) (topTopics 20 m)).

(** The category loop. The records of a category are inserted with its
    name; the name of the key [None] is the empty string, which the
    [category] enumeration refuses, so its first insert raises and ends
    [updateTrendingTopics] in the [catch]. *)
Fixpoint categoryRecords (date : Z) (m : categoryCounts) : list TrendingRecord :=
  match m with
  | [] => []
  | (Some c, topics) :: m' =>
      map (trendingRecord date (Some c)) (filter (fun e => 2 <=? snd e) (topTopics 10 topics))
      ++ categoryRecords date m'
  | (None, topics) :: m' =>
      if existsb (fun e => 2 <=? snd e) (topTopics 10 topics) then []
      else categoryRecords date m'
  end.

(** The records [updateTrendingTopics] inserts for the articles read,
    [date] being the start of the day. *)
Definition trendingInserts (date : Z) (recentArticles : list Article) : list TrendingRecord :=
  let (keywordCounts, categoryTopics) := tallyAll recentArticles in
  overallRecords date keywordCounts ++ categoryRecords date categoryTopics.

Definition recentQuery (r : TimeRange) (limit : nat) : ArticleQuery :=
  {| q_category := None; q_timeRange := Some r; q_search := None;
     q_page := None; q_limit := Some limit |}.

Definition updateTrendingTopics (now date : Z) (st : Store) : Store :=
  {| sources := sources st;
     articles := articles st;
     trendingRecords :=
       trendingRecords st ++ trendingInserts date (getArticles now (recentQuery today 100) st);
     relatedArticles := relatedArticles st;
     nextId := nextId st |}.

(* ================================================================== *)
(** ** NewsService: related articles *)
(* ================================================================== *)

(** [s.split(/\s+/)]: [inGap] holds while the scan is inside a run of
    white space; the head of the result is the word under way. *)
Fixpoint splitSpaces (inGap : bool) (s : text) : list text :=
  match s with
  | [] => [[]]
  | c :: s' =>
      if isSpace c then
        if inGap then splitSpaces true s' else [] :: splitSpaces true s'
      else
        match splitSpaces false s' with
        | w :: ws => (c :: w) :: ws
        | [] => [[c]]
        end
  end.

Definition titleWords (a : Article) : list text :=
  dedupe [] (splitSpaces false (toLowerCase (art_title a))).

Definition has (set : list text) (x : text) : bool := existsb (textEqb x) set.

Definition calculateSimpleSimilarity (article1 article2 : Article) : jsnum :=
  let words1 := titleWords article1 in
  let words2 := titleWords article2 in
  let intersection := dedupe [] (filter (has words2) words1) in
  let union := dedupe [] (words1 ++ words2) in
  divSizes (length intersection) (length union).

Definition setEmbedding (id : ident) (e : text) (a : Article) : Article :=
  if art_id a =? id then
    {| art_id := art_id a; art_title := art_title a; art_url := art_url a;
       art_content := art_content a; art_snippet := art_snippet a;
       art_sourceId := art_sourceId a; art_publishedAt := art_publishedAt a;
       art_fetchedAt := art_fetchedAt a; art_category := art_category a;
       art_sentiment := art_sentiment a; art_sentimentScore := art_sentimentScore a;
       art_embedding := Some e |}
  else a.

(** [updateArticle(id, { embedding })] *)
Definition updateArticleEmbedding (id : ident) (e : text) (st : Store) : Store :=
  {| sources := sources st;
     articles := map (setEmbedding id e) (articles st);
     trendingRecords := trendingRecords st;
     relatedArticles := relatedArticles st;
     nextId := nextId st |}.

Definition createRelatedArticle (articleId relatedArticleId : ident) (similarityScore : jsnum)
  (st : Store) : Store :=
  {| sources := sources st;
     articles := articles st;
     trendingRecords := trendingRecords st;
     relatedArticles :=
       relatedArticles st ++
       [{| rel_articleId := articleId; rel_relatedArticleId := relatedArticleId;
           rel_similarityScore := similarityScore |}];
     nextId := nextId st |}.

Section Linker.

(** The embedding call: the vector, empty when the service gives
    none. *)
Variable generateEmbedding : text -> list jsnum.

(** [JSON.stringify] of a vector. *)
Variable stringify : list jsnum -> text.

Definition potentialRelated (article : Article) (recentArticles : list Article)
  : list Article :=
  filter
    (fun other =>
       negb (art_id other =? art_id article) &&
       categoryKeyEqb (art_category other) (art_category article))
    recentArticles.

(** One turn of the candidate loop. *)
Definition linkCandidate (article : Article) (st : Store) (related : Article) : Store :=
  let similarityScore := calculateSimpleSimilarity article related in
  if jsLt (Fin (3 # 10)) similarityScore
  then createRelatedArticle (art_id article) (art_id related) similarityScore st
  else st.

(** One turn of the article loop. *)
Definition linkArticle (recentArticles : list Article) (st : Store) (article : Article)
  : Store :=
  if truthy (art_content article) then
    let embedding :=
      generateEmbedding
        (art_title article ++ ["010"%char] ++
         orEmpty (orElse (orElse (art_content article) (art_snippet article)) (Some []))) in
    if 0 <? length embedding then
      fold_left (linkCandidate article)
        (firstn 5 (potentialRelated article recentArticles))
        (updateArticleEmbedding (art_id article) (stringify embedding) st)
    else st
  else st.

Definition generateRelatedArticles (now : Z) (st : Store) : Store :=
  let recentArticles := getArticles now (recentQuery week 100) st in
  fold_left (linkArticle recentArticles) recentArticles st.

End Linker.

(* ================================================================== *)
(** ** Storage: the other reads and writes *)
(* ================================================================== *)

Definition likeNullable (pattern : text) (column : option text) : bool :=
  match column with
  | Some c => like pattern c
  | None => false
  end.

(** [or(like(title, %q%), like(content, %q%), like(snippet, %q%))] *)
Definition searchCondition (query : text) (a : Article) : bool :=
  let pattern := lit "%" ++ query ++ lit "%" in
  like pattern (art_title a) ||
  likeNullable pattern (art_content a) ||
  likeNullable pattern (art_snippet a).

(** [searchArticles]: the article rows of the result, without the joined
    source and the bookmark flag. *)
Definition searchArticles (query : text) (st : Store) : list Article :=
  firstn 50 (sortBy byPublishedDesc (filter (searchCondition query) (articles st))).

Record InsertSource := {
  isrc_name : text;
  isrc_url : text;
  isrc_rssUrl : text;
  isrc_isActive : bool;
  isrc_fetchInterval : nat
}.

(** [createSource] *)
Definition createSource (source : InsertSource) (st : Store) : Store :=
  {| sources :=
       sources st ++
       [{| src_id := nextId st;
           src_name := isrc_name source;
           src_url := isrc_url source;
           src_rssUrl := Some (isrc_rssUrl source);
           src_isActive := Some (isrc_isActive source);
           src_fetchInterval := Some (isrc_fetchInterval source);
           src_lastFetchAt := None |}];
     articles := articles st;
     trendingRecords := trendingRecords st;
     relatedArticles := relatedArticles st;
     nextId := S (nextId st) |}.

(** [getTrendingTopics(timeRange = 'today')]: a week for ['week'], a day
    for every other range. Records of the same growth rate keep the
    table's order. *)
Definition trendingThreshold (now : Z) (timeRange : option TimeRange) : Z :=
  match timeRange with
  | Some week => now - 7 * dayMs
  | _ => now - dayMs
  end%Z.

Definition byGrowthDesc (y x : TrendingRecord) : bool :=
  (tr_growthRate x <? tr_growthRate y)%Z.

Definition getTrendingTopics (now : Z) (timeRange : option TimeRange) (st : Store)
  : list TrendingRecord :=
  firstn 10
    (sortBy byGrowthDesc
       (filter (fun r => (trendingThreshold now timeRange <=? tr_date r)%Z)
               (trendingRecords st))).

(** The order of a [real] column: [NaN] is above every number. *)
Definition realLt (a b : jsnum) : bool :=
  match a, b with
  | NaN, _ => false
  | _, NaN => true
  | _, _ => jsLt a b
  end.

Definition byScoreDesc (y x : RelatedArticle * Article) : bool :=
  realLt (rel_similarityScore (fst x)) (rel_similarityScore (fst y)).

(** [getRelatedArticles]: the edges of the article joined with the
    articles they lead to, best score first; the article rows of the
    result, without the joined source. *)
Definition getRelatedArticles (articleId : ident) (st : Store) : list Article :=
  let rows :=
    flat_map
      (fun e =>
         map (fun a => (e, a))
             (filter (fun a => art_id a =? rel_relatedArticleId e) (articles st)))
      (filter (fun e => rel_articleId e =? articleId) (relatedArticles st)) in
  map snd (firstn 5 (sortBy byScoreDesc rows)).

(* ================================================================== *)
(** ** RSSService: the default sources *)
(* ================================================================== *)

Definition defaultSources : list InsertSource :=
  [{| isrc_name := lit "TechCrunch";
      isrc_url := lit "https://techcrunch.com";
      isrc_rssUrl := lit "https://techcrunch.com/feed/";
      isrc_isActive := true;
      isrc_fetchInterval := 300 |};
   {| isrc_name := lit "The Verge";
      isrc_url := lit "https://theverge.com";
      isrc_rssUrl := lit "https://www.theverge.com/rss/index.xml";
      isrc_isActive := true;
      isrc_fetchInterval := 300 |};
   {| isrc_name := lit "Hacker News";
      isrc_url := lit "https://news.ycombinator.com";
      isrc_rssUrl := lit "https://news.ycombinator.com/rss";
      isrc_isActive := true;
      isrc_fetchInterval := 600 |};
   {| isrc_name := lit "Ars Technica";
      isrc_url := lit "https://arstechnica.com";
      isrc_rssUrl := lit "https://feeds.arstechnica.com/arstechnica/index";
      isrc_isActive := true;
      isrc_fetchInterval := 300 |}].

(** One turn of the loop over the default sources; [existingSources] was
    read before the loop. *)
Definition createIfMissing (existingSources : list Source) (st : Store)
  (sourceData : InsertSource) : Store :=
  if existsb (fun s => textEqb (src_name s) (isrc_name sourceData)) existingSources
  then st
  else createSource sourceData st.

Definition initializeDefaultSources (st : Store) : Store :=
  let existingSources := getSources st in
  fold_left (createIfMissing existingSources) defaultSources st.

(* ================================================================== *)
(** ** AIService: generateEmbedding *)
(* ================================================================== *)

(** [text.substring(0, 8000)] *)
#[warnings="-abstract-large-number"]
Definition embeddingInput (t : text) : text := substring0 8000 t.

Section Embedding.

(** The client: [None] without an API key; otherwise the embedding call,
    from the input to [data[0].embedding], raising when the request or
    the access to the reply fails. *)
Variable openaiEmbeddings : option (text -> completion (list jsnum)).

Definition generateEmbedding (t : text) : list jsnum :=
  match openaiEmbeddings with
  | None => []
  | Some create => tryCatch (create (embeddingInput t)) []
  end.

End Embedding.

(* ================================================================== *)
(** ** NewsService: the sentiment pass and the processing run *)
(* ================================================================== *)

Definition setSentiment (id : ident) (s : text) (sc : jsnum) (a : Article) : Article :=
  if art_id a =? id then
    {| art_id := art_id a; art_title := art_title a; art_url := art_url a;
       art_content := art_content a; art_snippet := art_snippet a;
       art_sourceId := art_sourceId a; art_publishedAt := art_publishedAt a;
       art_fetchedAt := art_fetchedAt a; art_category := art_category a;
       art_sentiment := Some s; art_sentimentScore := Some sc;
       art_embedding := art_embedding a |}
  else a.

(** [updateArticle(id, { sentiment, sentimentScore })] *)
Definition updateArticleSentiment (id : ident) (s : text) (sc : jsnum) (st : Store) : Store :=
  {| sources := sources st;
     articles := map (setSentiment id s sc) (articles st);
     trendingRecords := trendingRecords st;
     relatedArticles := relatedArticles st;
     nextId := nextId st |}.

Section Processing.

Variable parseDate : text -> option Z.
Variable fetch : text -> option text.
Variable openai : option (text -> completion (option text)).
Variable JSONparse : text -> completion json.
Variable StringToNumber : text -> jsnum.
Variable ObjectToNumber : json -> completion jsnum.

(** What the driver sends for a value that is not a string, [None] when
    it or the server refuses the value; and the number a [real] column
    keeps of a number. *)
Variable prepareValue : json -> option text.
Variable toReal : jsnum -> jsnum.

Definition columnText (v : json) : option text :=
  match v with
  | JString s => Some s
  | _ => prepareValue v
  end.

(** One turn of the article loop; a refused update is caught. *)
Definition labelArticle (st : Store) (article : Article) : Store :=
  if truthy (art_sentiment article) || negb (truthy (art_content article)) then st
  else
    let sentimentResult :=
      analyzeSentiment openai JSONparse StringToNumber ObjectToNumber
        (art_title article ++ ["010"%char] ++
         orEmpty (orElse (orElse (art_content article) (art_snippet article)) (Some []))) in
    match columnText (sentiment sentimentResult) with
    | Some s =>
        updateArticleSentiment (art_id article) s (toReal (score sentimentResult)) st
    | None => st
    end.

Definition processSentimentAnalysis (now : Z) (st : Store) : Store :=
  let recentArticles := getArticles now (recentQuery today 50) st in
  fold_left labelArticle recentArticles st.


End Processing.

(* ================================================================== *)
(** * Properties *)
(* ================================================================== *)

(** ** Text and matchers *)

Lemma startsWith_app (k a b : text) :
  startsWith a k = true -> startsWith (a ++ b) k = true.
Proof.
  revert a; induction k as [|c k IH]; intros [|d a] H; simpl in *;
    try reflexivity; try discriminate.
  apply andb_true_iff in H as [H1 H2].
  now rewrite H1, (IH _ H2).
Qed.

Lemma includes_app_l (a b k : text) :
  includes a k = true -> includes (a ++ b) k = true.
Proof.
  induction a as [|d a IH]; simpl; intros H.
  - rewrite orb_false_r in H. destruct k; [|discriminate].
    destruct b; reflexivity.
  - apply orb_true_iff in H as [H|H].
    + change (d :: a ++ b) with ((d :: a) ++ b).
      now rewrite (startsWith_app _ _ _ H).
    + rewrite (IH H). apply orb_true_r.
Qed.

Lemma toLowerCase_app (a b : text) :
  toLowerCase (a ++ b) = toLowerCase a ++ toLowerCase b.
Proof. apply map_app. Qed.

(** ** The classifier *)

Lemma firstMatch_others (order : list (Category * list string)) (t : text) :
  (forall k, In k (flat_map snd order) -> includes t (lit k) = false) ->
  firstMatch order t = others.
Proof.
  induction order as [|[c ks] rest IH]; simpl; intros H; [reflexivity|].
  assert (Hks : anyIncluded t ks = false).
  { unfold anyIncluded. apply not_true_is_false. intros E.
    apply existsb_exists in E as [k [Hin Hk]].
    rewrite H in Hk; [discriminate|]. apply in_or_app; now left. }
  rewrite Hks. apply IH. intros k Hk. apply H, in_or_app; now right.
Qed.

(** The declarative reading of "first match wins". *)
Lemma firstMatch_first (order : list (Category * list string)) (t : text) (c : Category) :
  firstMatch order t = c ->
  (exists pre ks post,
      order = pre ++ (c, ks) :: post /\
      anyIncluded t ks = true /\
      forall c' ks', In (c', ks') pre -> anyIncluded t ks' = false)
  \/ (c = others /\ forall c' ks', In (c', ks') order -> anyIncluded t ks' = false).
Proof.
  revert c; induction order as [|[c0 ks0] rest IH]; simpl; intros c H.
  - right. split; [now symmetry|]. intros ? ? [].
  - destruct (anyIncluded t ks0) eqn:E.
    + left. exists [], ks0, rest. subst c0. repeat split; auto. intros ? ? [].
    + destruct (IH _ H) as [(pre & ks & post & -> & Hks & Hpre)|[-> Hall]].
      * left. exists ((c0, ks0) :: pre), ks, post. repeat split; auto.
        intros c' ks' [Heq|Hin]; [now inversion Heq; subst|eauto].
      * right. split; [reflexivity|].
        intros c' ks' [Heq|Hin]; [now inversion Heq; subst|eauto].
Qed.

(** C2. The classifier is a total function to the fixed enumeration that
    evaluates first-match-wins, in the order AI/ML, Startups,
    Cybersecurity, Mobile, Web3, on the lowercased text, so that the case
    of the input does not matter; the title "OpenAI releases new GPT
    model" is AI/ML whatever the body; and an input with no recognized
    keyword is [others]. *)
Theorem categorizeArticle_first_match_wins :
  forall title content : text,
    categorizeArticle title content
      = firstMatch categoryOrder (toLowerCase (title ++ lit " " ++ content))
    /\ map fst categoryOrder = [ai_ml; startups; cybersecurity; mobile; web3]
    /\ categorizeArticle (lit "OpenAI releases new GPT model") content = ai_ml
    /\ ((forall k, In k recognizedKeywords ->
           includes (toLowerCase (title ++ lit " " ++ content)) (lit k) = false) ->
        categorizeArticle title content = others)
    /\ (forall title' content',
          toLowerCase title' = toLowerCase title ->
          toLowerCase content' = toLowerCase content ->
          categorizeArticle title' content' = categorizeArticle title content).
Proof.
  intros title content.
  assert (Hdef : forall a b, categorizeArticle a b
            = firstMatch categoryOrder (toLowerCase (a ++ lit " " ++ b))).
  { intros a b. unfold categorizeArticle, categoryOrder, firstMatch.
    repeat match goal with |- context [anyIncluded ?t ?k] =>
      destruct (anyIncluded t k); try reflexivity end. }
  split; [apply Hdef|]. split; [reflexivity|]. split; [|split].
  - unfold categorizeArticle. rewrite toLowerCase_app.
    assert (H : anyIncluded
                  (toLowerCase (lit "OpenAI releases new GPT model")
                   ++ toLowerCase (lit " " ++ content)) aiKeywords = true).
    { unfold anyIncluded, aiKeywords. cbn [existsb].
      rewrite includes_app_l by (vm_compute; reflexivity). reflexivity. }
    now rewrite H.
  - intros H. rewrite Hdef. now apply firstMatch_others.
  - intros title' content' Ht Hc. rewrite !Hdef, !toLowerCase_app.
    now rewrite Ht, Hc.
Qed.

Lemma categorizeArticle_first_match_wins_witness :
  categorizeArticle (lit "Quarterly results published") (lit "Revenue grew") = others.
Proof.
  apply (proj1 (proj2 (proj2 (proj2
           (categorizeArticle_first_match_wins
              (lit "Quarterly results published") (lit "Revenue grew")))))).
  intros k Hk.
  repeat (destruct Hk as [<-|Hk]; [vm_compute; reflexivity|]).
  destruct Hk.
Defined.

(** ** The cleanser *)

(** The tag expression [<[^>]*>] matches nowhere in [s]. *)
Definition tagFree (s : text) : Prop := search matchTag s = None.

Definition isBracket (c : ascii) : bool := Ascii.eqb c "<" || Ascii.eqb c ">".

Definition brackets (s : text) : text := filter isBracket s.

Lemma search_cons {A} (m : text -> option A) (c : ascii) (s : text) :
  search m (c :: s) = match m (c :: s) with Some r => Some r | None => search m s end.
Proof. reflexivity. Qed.

Lemma replaceAll_cons (m : text -> option text) (rep : text) (skip : nat)
  (c : ascii) (s : text) :
  replaceAll m rep skip (c :: s) =
  match skip with
  | S k => replaceAll m rep k s
  | 0 =>
      match m (c :: s) with
      | Some rest => rep ++ replaceAll m rep (length s - length rest) s
      | None => c :: replaceAll m rep 0 s
      end
  end.
Proof. reflexivity. Qed.

Lemma replaceAll_In (m : text -> option text) (rep : text) (x : ascii) :
  forall s skip, In x (replaceAll m rep skip s) -> In x rep \/ In x s.
Proof.
  induction s as [|c s IH]; intros skip; simpl; [tauto|].
  destruct skip as [|k].
  - destruct (m (c :: s)) as [rest|].
    + intros H. apply in_app_or in H as [H|H]; [now left|].
      destruct (IH _ H); auto.
    + intros [H|H]; [auto|]. destruct (IH _ H); auto.
  - intros H. destruct (IH _ H); auto.
Qed.

Lemma afterGt_None (s : text) : afterGt s = None <-> ~ In ">"%char s.
Proof.
  induction s as [|c s IH]; simpl; [tauto|].
  destruct (Ascii.eqb_spec c ">") as [->|Hne].
  - split; [discriminate|]. intros H; exfalso; apply H; now left.
  - rewrite IH. split; [intros H [E|E]; auto|intros H E; apply H; now right].
Qed.

Lemma stripTags_skip_tagFree :
  forall s skip, tagFree (replaceAll matchTag [] skip s).
Proof.
  unfold tagFree.
  induction s as [|c s IH]; intros skip; [reflexivity|].
  rewrite replaceAll_cons.
  destruct skip as [|k]; [|apply IH].
  destruct (matchTag (c :: s)) as [rest|] eqn:E; [apply IH|].
  rewrite search_cons, IH.
  assert (Hm : matchTag (c :: replaceAll matchTag [] 0 s) = None).
  { unfold matchTag in *. destruct (Ascii.eqb c "<"); [|reflexivity].
    apply afterGt_None. apply afterGt_None in E. intros H.
    apply replaceAll_In in H as [[]|H]. now apply E. }
  now rewrite Hm.
Qed.

Lemma stripTags_tagFree (s : text) : tagFree (stripTags s).
Proof. apply stripTags_skip_tagFree. Qed.

Lemma In_brackets (x : ascii) (s : text) :
  In x (brackets s) <-> In x s /\ isBracket x = true.
Proof. apply filter_In. Qed.

Lemma afterGt_brackets (s : text) :
  afterGt s = None <-> afterGt (brackets s) = None.
Proof.
  rewrite !afterGt_None, In_brackets. split.
  - intros H [H1 _]. auto.
  - intros H H1. apply H. split; [assumption|reflexivity].
Qed.

Lemma brackets_cons (c : ascii) (s : text) :
  brackets (c :: s) = if isBracket c then c :: brackets s else brackets s.
Proof. reflexivity. Qed.

Lemma matchTag_cons (c : ascii) (s : text) :
  matchTag (c :: s) = if Ascii.eqb c "<" then afterGt s else None.
Proof. reflexivity. Qed.

Lemma tagFree_brackets (s : text) : tagFree s <-> tagFree (brackets s).
Proof.
  unfold tagFree.
  induction s as [|c s IH]; [simpl; tauto|].
  rewrite search_cons, brackets_cons, matchTag_cons.
  destruct (Ascii.eqb_spec c "<") as [->|Hlt].
  - change (isBracket "<") with true. cbv iota.
    rewrite search_cons, matchTag_cons.
    change (Ascii.eqb "<" "<") with true. cbv iota.
    pose proof (afterGt_brackets s) as Hg.
    destruct (afterGt s), (afterGt (brackets s)); try tauto.
    + destruct Hg as [_ Hg]. specialize (Hg eq_refl). discriminate.
    + destruct Hg as [Hg _]. specialize (Hg eq_refl). discriminate.
  - destruct (Ascii.eqb_spec c ">") as [->|Hgt].
    + change (isBracket ">") with true. cbv iota.
      rewrite search_cons, matchTag_cons.
      change (Ascii.eqb ">" "<") with false. cbv iota. exact IH.
    + replace (isBracket c) with false; [exact IH|].
      unfold isBracket. apply Ascii.eqb_neq in Hlt, Hgt. now rewrite Hlt, Hgt.
Qed.

Lemma isSpace_not_bracket (c : ascii) : isSpace c = true -> isBracket c = false.
Proof.
  intros H. unfold isBracket.
  destruct (Ascii.eqb_spec c "<") as [->|_]; [discriminate H|].
  destruct (Ascii.eqb_spec c ">") as [->|_]; [discriminate H|reflexivity].
Qed.

Lemma brackets_dropWhile (s : text) : brackets (dropWhile isSpace s) = brackets s.
Proof.
  induction s as [|c s IH]; [reflexivity|]. simpl dropWhile.
  destruct (isSpace c) eqn:E; [|reflexivity].
  rewrite IH. unfold brackets; simpl. now rewrite (isSpace_not_bracket _ E).
Qed.

Lemma length_dropWhile {A} (p : A -> bool) (l : list A) :
  length (dropWhile p l) <= length l.
Proof.
  induction l as [|x l IH]; simpl; [lia|]. destruct (p x); simpl; lia.
Qed.

Lemma skipn_dropWhile {A} (p : A -> bool) (l : list A) :
  skipn (length l - length (dropWhile p l)) l = dropWhile p l.
Proof.
  induction l as [|x l IH]; [reflexivity|]. simpl dropWhile.
  destruct (p x).
  - pose proof (length_dropWhile p l).
    replace (length (x :: l) - length (dropWhile p l))
      with (S (length l - length (dropWhile p l)))
      by (change (length (x :: l)) with (S (length l)); lia).
    simpl. exact IH.
  - now rewrite Nat.sub_diag.
Qed.

Lemma brackets_collapse :
  forall s skip,
    brackets (replaceAll matchSpaces (lit " ") skip s) = brackets (skipn skip s).
Proof.
  induction s as [|c s IH]; intros skip; [now destruct skip|].
  rewrite replaceAll_cons. destruct skip as [|k]; [|apply IH].
  unfold matchSpaces. destruct (isSpace c) eqn:E.
  - change (lit " " ++ ?r) with (" "%char :: r).
    unfold brackets at 1; simpl filter; fold (brackets
      (replaceAll matchSpaces (lit " ") (length s - length (dropWhile isSpace s)) s)).
    rewrite IH, skipn_dropWhile, brackets_dropWhile.
    unfold brackets; simpl. now rewrite (isSpace_not_bracket _ E).
  - unfold brackets; simpl filter. fold (brackets (replaceAll matchSpaces (lit " ") 0 s)).
    fold (brackets s). now rewrite IH.
Qed.

Lemma brackets_rev (s : text) : brackets (rev s) = rev (brackets s).
Proof.
  unfold brackets. induction s as [|c s IH]; [reflexivity|].
  simpl. rewrite filter_app, IH. simpl. destruct (isBracket c); simpl.
  - reflexivity.
  - now rewrite app_nil_r.
Qed.

Lemma brackets_trim (s : text) : brackets (trim s) = brackets s.
Proof.
  unfold trim, trimEnd, trimStart.
  now rewrite brackets_rev, brackets_dropWhile, brackets_rev, rev_involutive,
    brackets_dropWhile.
Qed.

Lemma replaceAll_lit_absent (c : ascii) (p rep : text) :
  forall s, ~ In c s -> replaceAll (matchLit false (c :: p)) rep 0 s = s.
Proof.
  induction s as [|d s IH]; intros H; [reflexivity|].
  rewrite replaceAll_cons. unfold matchLit at 1, chrEq.
  destruct (Ascii.eqb_spec c d) as [->|Hne].
  - exfalso; apply H; now left.
  - f_equal. apply IH. intros Hin; apply H; now right.
Qed.

Lemma decodeEntities_no_amp (s : text) : ~ In "&"%char s -> decodeEntities s = s.
Proof.
  intros H. unfold decodeEntities, lit; simpl list_ascii_of_string.
  now rewrite !(fun p rep => replaceAll_lit_absent "&" p rep s H).
Qed.

Lemma cleanHTML_tagFree (html : option text) :
  (forall s, html = Some s -> ~ In "&"%char s) -> tagFree (cleanHTML html).
Proof.
  intros H. unfold cleanHTML. destruct (truthy html) eqn:E; [|reflexivity].
  destruct html as [s|]; [|discriminate]. specialize (H s eq_refl). simpl orEmpty.
  assert (Hs : ~ In "&"%char (stripTags s)).
  { intros Hin. apply replaceAll_In in Hin as [[]|Hin]. auto. }
  rewrite (decodeEntities_no_amp _ Hs).
  apply tagFree_brackets. unfold collapseSpaces.
  rewrite brackets_trim, brackets_collapse. simpl skipn.
  apply (proj1 (tagFree_brackets _)), stripTags_tagFree.
Qed.

(** ** The extractor *)

Lemma matchLit_incl (ci : bool) (p : text) :
  forall s rest, matchLit ci p s = Some rest -> incl rest s.
Proof.
  induction p as [|c p IH]; intros s rest; simpl.
  - intros [= ->]. apply incl_refl.
  - destruct s as [|d s]; [discriminate|].
    destruct (chrEq ci c d); [|discriminate].
    intros H. apply incl_tl. now apply IH.
Qed.

Lemma lazyUntil_incl (dotAll ci : bool) (close : text) :
  forall s g rest, lazyUntil dotAll ci close s = Some (g, rest) -> incl g s.
Proof.
  induction s as [|c s IH]; intros g rest; simpl.
  - destruct (matchLit ci close []); [|discriminate].
    intros [= <- _]. apply incl_nil_l.
  - destruct (matchLit ci close (c :: s)).
    + intros [= <- _]. apply incl_nil_l.
    + destruct (dotAll || negb (isLineTerminator c)); [|discriminate].
      destruct (lazyUntil dotAll ci close s) as [[g' rest']|] eqn:E; [|discriminate].
      intros [= <- _]. apply incl_cons; [now left|].
      apply incl_tl. eapply IH. reflexivity.
Qed.

Lemma matchElement_incl (dotAll : bool) (open close s g rest : text) :
  matchElement dotAll open close s = Some (g, rest) -> incl g s.
Proof.
  unfold matchElement. destruct (matchLit true open s) as [s1|] eqn:E; [|discriminate].
  intros H. eapply incl_tran; [eapply lazyUntil_incl, H|eapply matchLit_incl, E].
Qed.

Lemma matchCDataOrPlain_incl (tag s : text) g1 g2 rest :
  matchCDataOrPlain tag s = Some (g1, g2, rest) ->
  forall g, g1 = Some g \/ g2 = Some g -> incl g s.
Proof.
  unfold matchCDataOrPlain.
  destruct (matchElement false _ _ s) as [[g r]|] eqn:E1.
  - intros [= <- <- _] g' [[= <-]|[=]]. eapply matchElement_incl, E1.
  - match goal with
    | |- context [matchElement false ?o ?c s] =>
        destruct (matchElement false o c s) as [[g r]|] eqn:E2
    end; [|discriminate].
    intros [= <- <- _] g' [[=]|[= <-]]. eapply matchElement_incl, E2.
Qed.

Lemma search_sound {A} (m : text -> option A) :
  forall s r, search m s = Some r -> exists pre suf, s = pre ++ suf /\ m suf = Some r.
Proof.
  induction s as [|c s IH]; intros r; rewrite ?search_cons; simpl.
  - destruct (m []) eqn:E; [|discriminate]. intros [= <-]. now exists [], [].
  - destruct (m (c :: s)) eqn:E.
    + intros [= <-]. now exists [], (c :: s).
    + intros H. destruct (IH _ H) as (pre & suf & -> & Hm).
      now exists (c :: pre), suf.
Qed.

Lemma execAll_sound {A} (m : text -> option (A * text)) (a : A) :
  forall s skip, In a (execAll m skip s) ->
                 exists pre suf rest, s = pre ++ suf /\ m suf = Some (a, rest).
Proof.
  induction s as [|c s IH]; intros skip; simpl; [tauto|].
  assert (Htl : forall k, In a (execAll m k s) ->
            exists pre suf rest, c :: s = pre ++ suf /\ m suf = Some (a, rest)).
  { intros k H. destruct (IH _ H) as (pre & suf & rest & -> & Hm).
    now exists (c :: pre), suf, rest. }
  destruct skip as [|k]; [|apply Htl].
  destruct (m (c :: s)) as [[a' rest]|] eqn:E; [|apply Htl].
  intros [->|H]; [|eapply Htl, H].
  now exists [], (c :: s), rest.
Qed.

Lemma In_keepSome_map {A B} (f : A -> option B) (y : B) (l : list A) :
  In y (keepSome (map f l)) <-> exists x, In x l /\ f x = Some y.
Proof.
  induction l as [|x l IH]; simpl.
  - split; [tauto|intros (? & [] & _)].
  - destruct (f x) as [b|] eqn:E; simpl; rewrite IH; split.
    + intros [->|(x' & Hin & Hf)]; [exists x; auto|exists x'; auto].
    + intros (x' & [->|Hin] & Hf); [left; congruence|right; eauto].
    + intros (x' & Hin & Hf); exists x'; auto.
    + intros (x' & [->|Hin] & Hf); [congruence|eauto].
Qed.

(** The items of a feed are the [parseItem] images of [<item>] blocks of
    the document. *)
Lemma parseRSS_items (xmlText : text) (item : RSSItem) :
  In item (feed_items (parseRSS xmlText)) ->
  exists itemContent, incl itemContent xmlText /\ parseItem itemContent = Some item.
Proof.
  unfold parseRSS; simpl. rewrite In_keepSome_map.
  intros (itemContent & Hin & Hp). exists itemContent. split; [|assumption].
  apply execAll_sound in Hin as (pre & suf & rest & -> & Hm).
  apply matchElement_incl in Hm. eapply incl_tran; [exact Hm|]. now apply incl_appr.
Qed.

(** The group a field is read from holds characters of the block only. *)
Lemma groupOr_incl (tag itemContent g : text) :
  groupOr (search (matchCDataOrPlain tag) itemContent) [] = Some g ->
  incl g itemContent.
Proof.
  unfold groupOr. destruct (search _ itemContent) as [[[g1 g2] rest]|] eqn:E.
  - apply search_sound in E as (pre & suf & -> & Hm).
    intros H. apply incl_appr.
    eapply matchCDataOrPlain_incl; [exact Hm|].
    unfold orElse in H. destruct (truthy g1); auto.
  - intros [= <-]. apply incl_nil_l.
Qed.

Lemma parseItem_fields (itemContent : text) (item : RSSItem) :
  parseItem itemContent = Some item ->
  exists rawTitle rawDescription,
    (forall g, rawTitle = Some g -> incl g itemContent) /\
    (forall g, rawDescription = Some g -> incl g itemContent) /\
    truthy rawTitle = true /\
    item_title item = cleanHTML rawTitle /\
    item_description item = Some (cleanHTML rawDescription) /\
    item_content item = Some (cleanHTML rawDescription) /\
    item_link item <> [].
Proof.
  unfold parseItem.
  set (rawTitle := groupOr (search (matchCDataOrPlain (lit "title")) itemContent) []).
  set (rawDescription :=
         groupOr (search (matchCDataOrPlain (lit "description")) itemContent) []).
  set (link := trim _).
  destruct (truthy rawTitle) eqn:Et; [|discriminate].
  destruct (truthy (Some link)) eqn:El; [|discriminate].
  intros [= <-]. exists rawTitle, rawDescription. simpl.
  repeat split; try assumption.
  - intros g Hg. eapply groupOr_incl, Hg.
  - intros g Hg. eapply groupOr_incl, Hg.
  - intros ->. discriminate El.
Qed.

(** Every emitted item has a non-empty link, and its title was not empty
    before the cleansing. *)
Lemma parseRSS_link_nonempty (xmlText : text) (item : RSSItem) :
  In item (feed_items (parseRSS xmlText)) -> item_link item <> [].
Proof.
  intros H. apply parseRSS_items in H as (c & _ & Hp).
  now apply parseItem_fields in Hp as (? & ? & _ & _ & _ & _ & _ & _ & Hl).
Qed.

(** A document in which the title expression matches nowhere gets the
    placeholder. *)
Lemma parseRSS_placeholder_title (xmlText : text) :
  search (matchCDataOrPlain (lit "title")) xmlText = None ->
  feed_title (parseRSS xmlText) = Some (lit "Unknown Feed").
Proof. intros H. unfold parseRSS; cbn [feed_title]. now rewrite H. Qed.

(** Items come out in document order, and equal items are both kept. *)
Lemma parseRSS_keeps_order_and_duplicates :
  map item_link
    (feed_items
       (parseRSS
          (lit "<item><title>B</title><link>u2</link></item><item><title>A</title><link>u1</link></item><item><title>B</title><link>u2</link></item>")))
  = [lit "u2"; lit "u1"; lit "u2"].
Proof. vm_compute. reflexivity. Qed.




(** A bracket that is not part of a tag stays. *)
Lemma cleanHTML_keeps_lone_bracket :
  cleanHTML (Some (lit "5 > 3 and 2 < 4")) = lit "5 > 3 and 2 < 4".
Proof. vm_compute. reflexivity. Qed.



Definition feedWithBlankTitle : text :=
  lit "<rss><channel><title>Feed</title><item><title> </title><link>http://x/1</link></item></channel></rss>".

(** C7, where the code departs from it: the guard of the item loop tests
    the title before the cleansing, so an item whose title is a blank is
    emitted with the empty title. *)
Theorem parseRSS_emits_empty_title :
  feed_items (parseRSS feedWithBlankTitle)
  = [{| item_title := [];
        item_link := lit "http://x/1";
        item_description := Some [];
        item_pubDate := Some [];
        item_guid := Some [];
        item_content := Some [] |}].
Proof. vm_compute. reflexivity. Qed.

(** ** Storage *)

Lemma textEqb_refl (a : text) : textEqb a a = true.
Proof. induction a as [|c a IH]; simpl; [reflexivity|]. now rewrite Ascii.eqb_refl. Qed.

Lemma textEqb_eq (a b : text) : textEqb a b = true <-> a = b.
Proof.
  split; [|intros ->; apply textEqb_refl].
  revert b; induction a as [|c a IH]; intros [|d b]; simpl; try discriminate; auto.
  intros H. apply andb_true_iff in H as [H1 H2].
  apply Ascii.eqb_eq in H1. now rewrite H1, (IH _ H2).
Qed.

Lemma insertBy_not_nil {A} (f : A -> A -> bool) (x : A) (l : list A) :
  insertBy f x l <> [].
Proof. destruct l as [|y l]; simpl; [discriminate|]. destruct (f y x); discriminate. Qed.

Lemma sortBy_nil_iff {A} (f : A -> A -> bool) (l : list A) :
  sortBy f l = [] <-> l = [].
Proof.
  destruct l as [|x l]; simpl; [tauto|].
  split; [intros H; now apply insertBy_not_nil in H|discriminate].
Qed.

(** The duplicate check of the coordinator, [getArticles({ search: title,
    limit: 1 })], finds a row exactly when some article passes the
    [where] clause of the query: with an empty title there is no clause. *)
Definition titleFound (title : text) (st : Store) : bool :=
  existsb (fun a => if truthy (Some title) then searchMatches title a else true)
          (articles st).

Lemma getArticles_titleQuery (now : Z) (title : text) (st : Store) :
  match getArticles now (titleQuery title) st with
  | [] => titleFound title st = false
  | _ :: _ => titleFound title st = true
  end.
Proof.
  unfold titleFound.
  set (p := fun a : Article => if truthy (Some title) then searchMatches title a else true).
  assert (Hw : forall a, whereClause now (titleQuery title) a = p a) by reflexivity.
  unfold getArticles. rewrite (filter_ext _ _ Hw).
  change (match firstn 1 (sortBy byPublishedDesc (filter p (articles st))) with
          | [] => existsb p (articles st) = false
          | _ :: _ => existsb p (articles st) = true
          end).
  destruct (filter p (articles st)) as [|a l] eqn:E.
  - cbn. apply not_true_is_false. intros H.
    apply existsb_exists in H as (a & Hin & Ha).
    assert (Hf : In a (filter p (articles st))) by (apply filter_In; auto).
    now rewrite E in Hf.
  - destruct (sortBy byPublishedDesc (a :: l)) as [|b l'] eqn:Es.
    + now apply sortBy_nil_iff in Es.
    + cbn. apply existsb_exists. exists a.
      assert (Hf : In a (filter p (articles st))) by (rewrite E; now left).
      now apply filter_In in Hf.
Qed.











(** ** The ingestion coordinator *)

Section CoordinatorProperties.

Variable parseDate : text -> option Z.

Lemma storeItem_unfold (now : Z) (sourceId : ident) (st : Store) (n : nat) (item : RSSItem) :
  storeItem parseDate now sourceId (st, n) item =
  if titleFound (item_title item) st then (st, n)
  else match createArticle (articleData parseDate now sourceId item) st with
       | Some st' => (st', S n)
       | None => (st, n)
       end.
Proof.
  unfold storeItem.
  pose proof (getArticles_titleQuery now (item_title item) st) as H.
  destruct (getArticles now (titleQuery (item_title item)) st); now rewrite H.
Qed.


(** An item the coordinator has nothing left to do with: the duplicate
    check finds a row, or the store refuses its article. *)
Definition settled (sourceId : ident) (st : Store) (item : RSSItem) : Prop :=
  titleFound (item_title item) st = true \/
  forall now, insertAccepted (articleData parseDate now sourceId item) st = false.


Lemma storeItem_settled_id (now : Z) (sourceId : ident) (st : Store) (n : nat)
  (item : RSSItem) :
  settled sourceId st item -> storeItem parseDate now sourceId (st, n) item = (st, n).
Proof.
  intros [H|H]; rewrite storeItem_unfold.
  - now rewrite H.
  - unfold createArticle. rewrite H. now destruct (titleFound _ st).
Qed.






End CoordinatorProperties.

(** *** A feed, a store and a transport to run the coordinator on *)

Definition techFeedUrl : text := lit "https://techcrunch.com/feed/".
Definition vergeFeedUrl : text := lit "https://www.theverge.com/rss/index.xml".

Definition techSource : Source :=
  {| src_id := 1; src_name := lit "TechCrunch"; src_url := lit "https://techcrunch.com";
     src_rssUrl := Some techFeedUrl; src_isActive := Some true;
     src_fetchInterval := Some 300; src_lastFetchAt := None |}.

Definition vergeSource : Source :=
  {| src_id := 2; src_name := lit "The Verge"; src_url := lit "https://theverge.com";
     src_rssUrl := Some vergeFeedUrl; src_isActive := Some true;
     src_fetchInterval := Some 300; src_lastFetchAt := None |}.

Definition seededStore : Store :=
  {| sources := [techSource; vergeSource]; articles := [];
     trendingRecords := []; relatedArticles := []; nextId := 10 |}.

Definition vergeFeed : text :=
  lit "<rss><channel><title>The Verge</title><item><title>OpenAI ships a new model</title><link>https://theverge.com/a</link><description>The lab released it today.</description><pubDate>Mon, 01 Jan 2024 00:00:00 GMT</pubDate></item><item><title>Phone makers meet</title><link>https://theverge.com/b</link><description>A trade show.</description></item></channel></rss>".

(** Only the feed of The Verge answers. *)
Definition vergeOnly (url : text) : option text :=
  if textEqb url vergeFeedUrl then Some vergeFeed else None.

(** The one date string of the feed, read as RFC 822. *)
Definition parseNewYear (s : text) : option Z :=
  if textEqb s (lit "Mon, 01 Jan 2024 00:00:00 GMT") then Some 1704067200000%Z else None.

(** The first run over the feed stores its two items. *)
Lemma first_run_stores_the_feed :
  snd (fetchAndStoreArticles parseNewYear vergeOnly 1704070000000 2 vergeFeedUrl seededStore) = 2
  /\ map art_title
       (articles
          (fst (fetchAndStoreArticles parseNewYear vergeOnly 1704070000000 2 vergeFeedUrl
                  seededStore)))
     = [lit "OpenAI ships a new model"; lit "Phone makers meet"].
Proof. vm_compute. split; reflexivity. Qed.



Definition storeWithOpenAI : Store :=
  fst (fetchAndStoreArticles parseNewYear vergeOnly 1704070000000 2 vergeFeedUrl seededStore).





(** What the coordinator computes for the publication time. *)
Lemma articleData_publishedAt (parseDate : text -> option Z) (now : Z)
  (sourceId : ident) (item : RSSItem) :
  ins_publishedAt (articleData parseDate now sourceId item) =
  if truthy (item_pubDate item)
  then match parseDate (orEmpty (item_pubDate item)) with
       | Some t => ValidDate t
       | None => InvalidDate
       end
  else ValidDate now.
Proof. reflexivity. Qed.

(** C4, where the code departs from it: a date string that is present
    but does not parse gives the invalid date, not the current time, and
    the store takes no article for the item. *)
Theorem unparsable_date_is_not_now :
  forall (parseDate : text -> option Z) (now : Z) (sourceId : ident)
         (item : RSSItem) (st : Store) (n : nat),
    truthy (item_pubDate item) = true ->
    parseDate (orEmpty (item_pubDate item)) = None ->
    ins_publishedAt (articleData parseDate now sourceId item) = InvalidDate /\
    storeItem parseDate now sourceId (st, n) item = (st, n).
Proof.
  intros parseDate now sourceId item st n Ht Hp. split.
  - now rewrite articleData_publishedAt, Ht, Hp.
  - apply storeItem_settled_id. right. intros now'.
    unfold insertAccepted. now rewrite articleData_publishedAt, Ht, Hp.
Qed.

Definition itemYesterday : RSSItem :=
  {| item_title := lit "Chip shortage eases"; item_link := lit "https://techcrunch.com/chips";
     item_description := Some (lit "Supply improves."); item_pubDate := Some (lit "yesterday");
     item_guid := Some []; item_content := Some (lit "Supply improves.") |}.

Lemma unparsable_date_is_not_now_witness :
  ins_publishedAt (articleData parseNewYear 1704070000000 1 itemYesterday) = InvalidDate /\
  storeItem parseNewYear 1704070000000 1 (seededStore, 0) itemYesterday = (seededStore, 0).
Proof.
  apply (unparsable_date_is_not_now parseNewYear 1704070000000 1 itemYesterday seededStore 0);
    reflexivity.
Defined.

(** The two cases of C4 the code does honour. *)
Lemma parsable_or_absent_date (parseDate : text -> option Z) (now : Z)
  (sourceId : ident) (item : RSSItem) :
  (forall t, truthy (item_pubDate item) = true ->
             parseDate (orEmpty (item_pubDate item)) = Some t ->
             ins_publishedAt (articleData parseDate now sourceId item) = ValidDate t) /\
  (truthy (item_pubDate item) = false ->
   ins_publishedAt (articleData parseDate now sourceId item) = ValidDate now).
Proof.
  rewrite articleData_publishedAt. split.
  - intros t -> ->. reflexivity.
  - intros ->. reflexivity.
Qed.

Lemma fold_left_filter_id {A B} (f : A -> B -> A) (p : B -> bool) (l : list B) :
  (forall a x, p x = false -> f a x = a) ->
  forall a, fold_left f (filter p l) a = fold_left f l a.
Proof.
  intros H. induction l as [|x l IH]; intros a; simpl; [reflexivity|].
  destruct (p x) eqn:E; simpl; [apply IH|]. now rewrite (H _ _ E).
Qed.

Definition fetchSucceeds (fetch : text -> option text) (source : Source) : bool :=
  match fetch (orEmpty (src_rssUrl source)) with
  | Some _ => true
  | None => false
  end.

(** C8. A failed fetch leaves the store as it was and counts no article;
    the turn of the source loop for such a source changes nothing; and
    the run over all sources is the run over the sources whose fetch
    succeeds, so a failure neither ends the run nor touches the other
    sources. *)
Theorem fetch_failure_skips_source :
  forall (parseDate : text -> option Z) (fetch : text -> option text) (now : Z) (st : Store),
    (forall sourceId rssUrl st',
        fetch rssUrl = None ->
        fetchAndStoreArticles parseDate fetch now sourceId rssUrl st' = (st', 0)) /\
    (forall source st',
        fetchSucceeds fetch source = false ->
        fetchSource parseDate fetch now st' source = st') /\
    fetchAllSources parseDate fetch now st =
      fold_left (fetchSource parseDate fetch now)
                (filter (fetchSucceeds fetch) (getSources st)) st.
Proof.
  intros parseDate fetch now st.
  assert (H1 : forall sourceId rssUrl st',
             fetch rssUrl = None ->
             fetchAndStoreArticles parseDate fetch now sourceId rssUrl st' = (st', 0)).
  { intros sourceId rssUrl st' H. unfold fetchAndStoreArticles, fetchRSS. now rewrite H. }
  assert (H2 : forall st' source,
             fetchSucceeds fetch source = false ->
             fetchSource parseDate fetch now st' source = st').
  { intros st' source H. unfold fetchSource, fetchSucceeds in *.
    destruct (fetch (orEmpty (src_rssUrl source))) eqn:E; [discriminate|].
    rewrite (H1 _ _ _ E). now destruct (_ && _). }
  split; [exact H1|]. split; [intros; now apply H2|].
  unfold fetchAllSources. symmetry. now apply fold_left_filter_id.
Qed.

(** TechCrunch does not answer, The Verge does: the run stores the feed
    of The Verge and leaves TechCrunch as it was. *)
Lemma fetch_failure_skips_source_witness :
  fetchAndStoreArticles parseNewYear vergeOnly 1704070000000 1 techFeedUrl seededStore
  = (seededStore, 0).
Proof.
  apply (proj1 (fetch_failure_skips_source parseNewYear vergeOnly 1704070000000 seededStore)).
  reflexivity.
Defined.

Lemma run_continues_after_failure :
  let st := fetchAllSources parseNewYear vergeOnly 1704070000000 seededStore in
  map src_lastFetchAt (sources st) = [None; Some 1704070000000%Z] /\
  map art_sourceId (articles st) = [Some 2; Some 2].
Proof. vm_compute. split; reflexivity. Qed.

(** ** analyzeSentiment *)

(** A number between two bounds; [NaN] and the infinities are not. *)
Definition between (lo hi : Q) (r : jsnum) : Prop :=
  match r with
  | Fin q => (lo <= q /\ q <= hi)%Q
  | _ => False
  end.

(** [Math.max(lo, Math.min(hi, x))] lands between the bounds unless [x]
    is [NaN], and then it is [NaN]. *)
Lemma clamp_between (lo hi : Q) (x : jsnum) :
  (lo <= hi)%Q ->
  if isNaN x
  then mathMax (Fin lo) (mathMin (Fin hi) x) = NaN
  else between lo hi (mathMax (Fin lo) (mathMin (Fin hi) x)).
Proof.
  intros Hle. destruct x as [| |q|]; simpl.
  - reflexivity.
  - unfold mathMin, mathMax; simpl. split; [apply Qle_refl|assumption].
  - unfold mathMin; simpl. destruct (Qcompare q hi) eqn:E1; unfold mathMax; simpl.
    + destruct (Qcompare lo hi) eqn:E2; simpl;
        split; try apply Qle_refl; assumption.
    + apply Qlt_alt in E1. destruct (Qcompare lo q) eqn:E2; simpl.
      * split; [apply Qle_refl|assumption].
      * apply Qlt_alt in E2. split; now apply Qlt_le_weak.
      * split; [apply Qle_refl|assumption].
    + destruct (Qcompare lo hi) eqn:E2; simpl;
        split; try apply Qle_refl; assumption.
  - unfold mathMin, mathMax; simpl.
    destruct (Qcompare lo hi); simpl; split; try apply Qle_refl; assumption.
Qed.

Section SentimentProperties.

Variable JSONparse : text -> completion json.
Variable StringToNumber : text -> jsnum.
Variable ObjectToNumber : json -> completion jsnum.

(** Without a client the result is the neutral default. *)
Lemma analyzeSentiment_unavailable (t : text) :
  analyzeSentiment None JSONparse StringToNumber ObjectToNumber t = neutralDefault.
Proof. reflexivity. Qed.

(** When the request raises, or the reply is not JSON, or the reply is
    [null], the result is the neutral default. *)
Lemma analyzeSentiment_error (create : text -> completion (option text)) (t : text) :
  (create (userMessage t) = Throw ->
   analyzeSentiment (Some create) JSONparse StringToNumber ObjectToNumber t
   = neutralDefault) /\
  (forall content,
      create (userMessage t) = Normal content ->
      JSONparse (orEmpty (orElse content (Some (lit "{}")))) = Throw ->
      analyzeSentiment (Some create) JSONparse StringToNumber ObjectToNumber t
      = neutralDefault) /\
  (forall content,
      create (userMessage t) = Normal content ->
      JSONparse (orEmpty (orElse content (Some (lit "{}")))) = Normal JNull ->
      analyzeSentiment (Some create) JSONparse StringToNumber ObjectToNumber t
      = neutralDefault).
Proof.
  unfold analyzeSentiment, sentimentBody. repeat split.
  - intros ->. reflexivity.
  - intros content -> H. cbn [bind]. rewrite H. reflexivity.
  - intros content -> H. cbn [bind]. rewrite H. reflexivity.
Qed.

(** Every result has a score that is [NaN] or lies in [-1, 1], and a
    confidence that is [NaN] or lies in [0, 1]. *)
Lemma analyzeSentiment_range (openai : option (text -> completion (option text))) (t : text) :
  let r := analyzeSentiment openai JSONparse StringToNumber ObjectToNumber t in
  (score r = NaN \/ between (-1) 1 (score r)) /\
  (confidence r = NaN \/ between 0 1 (confidence r)).
Proof.
  assert (Hdef : (score neutralDefault = NaN \/ between (-1) 1 (score neutralDefault)) /\
                 (confidence neutralDefault = NaN \/
                  between 0 1 (confidence neutralDefault))).
  { split; right; simpl; split; discriminate. }
  cbv zeta. unfold analyzeSentiment. destruct openai as [create|]; [|exact Hdef].
  unfold sentimentBody.
  destruct (create (userMessage t)) as [content|]; [|exact Hdef]. cbn [bind].
  destruct (JSONparse _) as [result|]; [|exact Hdef]. cbn [bind].
  destruct (getProp result (lit "sentiment")) as [s|]; [|exact Hdef]. cbn [bind].
  destruct (getProp result (lit "score")) as [sc|]; [|exact Hdef]. cbn [bind].
  destruct (toNumber _ _ (orJson sc _)) as [scn|]; [|exact Hdef]. cbn [bind].
  destruct (getProp result (lit "confidence")) as [cf|]; [|exact Hdef]. cbn [bind].
  destruct (toNumber _ _ (orJson cf _)) as [cfn|]; [|exact Hdef].
  cbn [bind tryCatch score confidence].
  assert (H1 : (-1 <= 1)%Q) by discriminate.
  assert (H0 : (0 <= 1)%Q) by discriminate.
  pose proof (clamp_between (-1) 1 scn H1) as Hs.
  pose proof (clamp_between 0 1 cfn H0) as Hc.
  split.
  - destruct (isNaN scn); [now left|now right].
  - destruct (isNaN cfn); [now left|now right].
Qed.

End SentimentProperties.

(** C9, where the code departs from it: the clamp lets [NaN] through, so
    a reply whose score is a string that is not a number gives a result
    whose score is [NaN], outside [-1, 1]. *)
Theorem analyzeSentiment_score_not_a_number :
  forall (create : text -> completion (option text))
         (JSONparse : text -> completion json)
         (StringToNumber : text -> jsnum)
         (ObjectToNumber : json -> completion jsnum)
         (t reply : text),
    create (userMessage t) = Normal (Some reply) ->
    truthy (Some reply) = true ->
    JSONparse reply = Normal (JObject [(lit "score", JString (lit "high"))]) ->
    StringToNumber (lit "high") = NaN ->
    analyzeSentiment (Some create) JSONparse StringToNumber ObjectToNumber t
    = {| sentiment := JString (lit "neutral"); score := NaN; confidence := Fin (1 # 2) |}.
Proof.
  intros create JSONparse StringToNumber ObjectToNumber t reply Hc Ht Hp Hs.
  unfold analyzeSentiment, sentimentBody. rewrite Hc. cbn [bind].
  unfold orElse. rewrite Ht. cbn [orEmpty]. rewrite Hp. cbn [bind].
  unfold lit in *. simpl in *. rewrite Hs. reflexivity.
Qed.

Lemma analyzeSentiment_score_not_a_number_witness :
  analyzeSentiment
    (Some (fun _ => Normal (Some (lit "reply"))))
    (fun _ => Normal (JObject [(lit "score", JString (lit "high"))]))
    (fun _ => NaN) (fun _ => Normal NaN) (lit "Shares fell sharply")
  = {| sentiment := JString (lit "neutral"); score := NaN; confidence := Fin (1 # 2) |}.
Proof.
  apply (analyzeSentiment_score_not_a_number
           (fun _ => Normal (Some (lit "reply")))
           (fun _ => Normal (JObject [(lit "score", JString (lit "high"))]))
           (fun _ => NaN) (fun _ => Normal NaN) (lit "Shares fell sharply") (lit "reply"));
    reflexivity.
Defined.

(** ** Sets of words *)

Lemma has_In (set : list text) (x : text) : has set x = true <-> In x set.
Proof.
  unfold has. rewrite existsb_exists. split.
  - intros (y & Hin & Hy). apply textEqb_eq in Hy. now subst.
  - intros H. exists x. split; [assumption|apply textEqb_refl].
Qed.

Lemma In_dedupe (x : text) (l : list text) :
  forall seen, In x (dedupe seen l) <-> In x l /\ ~ In x seen.
Proof.
  induction l as [|y l IH]; intros seen; simpl; [tauto|].
  fold (has seen y). destruct (has seen y) eqn:E.
  - apply has_In in E. rewrite IH. split; [tauto|].
    intros [[->|H] Hn]; [contradiction|tauto].
  - assert (Hy : ~ In y seen) by (rewrite <- has_In, E; discriminate).
    simpl. rewrite IH. simpl. split.
    + intros [->|[H1 H2]]; [tauto|]. tauto.
    + intros [[->|H] Hn]; [now left|].
      destruct (list_eq_dec ascii_dec y x) as [->|Hne]; [now left|right; tauto].
Qed.

Lemma NoDup_dedupe (l : list text) : forall seen, NoDup (dedupe seen l).
Proof.
  induction l as [|y l IH]; intros seen; simpl; [constructor|].
  destruct (existsb (textEqb y) seen); [apply IH|].
  constructor; [|apply IH]. rewrite In_dedupe. intros [_ H]. apply H. now left.
Qed.

Lemma same_members_same_length (l l' : list text) :
  NoDup l -> NoDup l' -> (forall x, In x l <-> In x l') -> length l = length l'.
Proof. intros H1 H2 H. apply Permutation_length, NoDup_Permutation; assumption. Qed.

Lemma splitSpaces_not_nil (s : text) : forall inGap, splitSpaces inGap s <> [].
Proof.
  induction s as [|c s IH]; intros inGap; simpl; [discriminate|].
  destruct (isSpace c).
  - destruct inGap; [apply IH|discriminate].
  - destruct (splitSpaces false s); discriminate.
Qed.

(** A title always has a word, if only the empty one. *)
Lemma titleWords_not_nil (a : Article) : titleWords a <> [].
Proof.
  unfold titleWords.
  destruct (splitSpaces false (toLowerCase (art_title a))) as [|w ws] eqn:E.
  - now apply splitSpaces_not_nil in E.
  - simpl. discriminate.
Qed.

(** ** The similarity of two articles *)

(** The two sets the score divides, described by their members. *)
Definition sharedWords (a1 a2 : Article) : list text :=
  dedupe [] (filter (has (titleWords a2)) (titleWords a1)).

Definition allWords (a1 a2 : Article) : list text :=
  dedupe [] (titleWords a1 ++ titleWords a2).

Lemma calculateSimpleSimilarity_sizes (a1 a2 : Article) :
  calculateSimpleSimilarity a1 a2
  = divSizes (length (sharedWords a1 a2)) (length (allWords a1 a2)).
Proof. reflexivity. Qed.

Lemma In_sharedWords (a1 a2 : Article) (x : text) :
  In x (sharedWords a1 a2) <-> In x (titleWords a1) /\ In x (titleWords a2).
Proof.
  unfold sharedWords. rewrite In_dedupe, filter_In, has_In. simpl. tauto.
Qed.

Lemma In_allWords (a1 a2 : Article) (x : text) :
  In x (allWords a1 a2) <-> In x (titleWords a1) \/ In x (titleWords a2).
Proof.
  unfold allWords. rewrite In_dedupe, in_app_iff. simpl. tauto.
Qed.

Lemma allWords_not_nil (a1 a2 : Article) : allWords a1 a2 <> [].
Proof.
  pose proof (titleWords_not_nil a1) as H.
  destruct (titleWords a1) as [|w ws] eqn:E; [contradiction|].
  assert (Hin : In w (allWords a1 a2)) by (apply In_allWords; rewrite E; left; now left).
  intros Hnil. now rewrite Hnil in Hin.
Qed.

Lemma sharedWords_le_allWords (a1 a2 : Article) :
  length (sharedWords a1 a2) <= length (allWords a1 a2).
Proof.
  apply NoDup_incl_length; [apply NoDup_dedupe|].
  intros x. rewrite In_sharedWords, In_allWords. tauto.
Qed.

Lemma sharedWords_comm (a1 a2 : Article) :
  length (sharedWords a1 a2) = length (sharedWords a2 a1).
Proof.
  apply same_members_same_length; try apply NoDup_dedupe.
  intros x. rewrite !In_sharedWords. tauto.
Qed.

Lemma allWords_comm (a1 a2 : Article) :
  length (allWords a1 a2) = length (allWords a2 a1).
Proof.
  apply same_members_same_length; try apply NoDup_dedupe.
  intros x. rewrite !In_allWords. tauto.
Qed.

Lemma Zpos_of_nat_succ (n : nat) : Z.pos (Pos.of_nat (S n)) = Z.of_nat (S n).
Proof. now rewrite <- Pos.of_nat_succ, Zpos_P_of_succ_nat, Nat2Z.inj_succ. Qed.

(** The quotient of a size by a larger size that is not zero. *)
Lemma divSizes_fraction (a b : nat) :
  a <= b -> b <> 0 ->
  exists q, divSizes a b = Fin q /\ (0 <= q /\ q <= 1)%Q /\
            (a = b -> (q == 1)%Q) /\ (a = 0 -> (q == 0)%Q).
Proof.
  intros Hle Hb. destruct b as [|b]; [contradiction|].
  exists (Z.of_nat a # Pos.of_nat (S b)). split; [reflexivity|].
  unfold Qle, Qeq; cbn [Qnum Qden]. rewrite Zpos_of_nat_succ.
  repeat split; try lia; intros ->; simpl; lia.
Qed.

Lemma calculateSimpleSimilarity_fraction (a1 a2 : Article) :
  exists q, calculateSimpleSimilarity a1 a2 = Fin q /\ (0 <= q /\ q <= 1)%Q.
Proof.
  rewrite calculateSimpleSimilarity_sizes.
  destruct (divSizes_fraction (length (sharedWords a1 a2)) (length (allWords a1 a2)))
    as (q & Hq & Hr & _).
  - apply sharedWords_le_allWords.
  - pose proof (allWords_not_nil a1 a2). now destruct (allWords a1 a2).
  - now exists q.
Qed.

(** C10. The similarity of two articles is defined: the union of the two
    word sets is never empty, so the quotient is a number; it lies in
    [0, 1]; and it is the same in both directions. *)
Theorem calculateSimpleSimilarity_total_symmetric :
  forall a1 a2 : Article,
    allWords a1 a2 <> [] /\
    (exists q, calculateSimpleSimilarity a1 a2 = Fin q /\ (0 <= q /\ q <= 1)%Q) /\
    calculateSimpleSimilarity a2 a1 = calculateSimpleSimilarity a1 a2.
Proof.
  intros a1 a2. split; [apply allWords_not_nil|]. split.
  - apply calculateSimpleSimilarity_fraction.
  - rewrite !calculateSimpleSimilarity_sizes.
    now rewrite (sharedWords_comm a2 a1), (allWords_comm a2 a1).
Qed.

(** ** The linker *)




Section LinkerProperties.

Variable generateEmbedding : text -> list jsnum.
Variable stringify : list jsnum -> text.

(** The edge the candidate loop inserts for a pair. *)
Definition edge (article related : Article) : RelatedArticle :=
  {| rel_articleId := art_id article;
     rel_relatedArticleId := art_id related;
     rel_similarityScore := calculateSimpleSimilarity article related |}.

Definition linked (article related : Article) : bool :=
  jsLt (Fin (3 # 10)) (calculateSimpleSimilarity article related).

Lemma fold_linkCandidate (article : Article) (candidates : list Article) :
  forall st,
    relatedArticles (fold_left (linkCandidate article) candidates st)
    = relatedArticles st ++ map (edge article) (filter (linked article) candidates).
Proof.
  induction candidates as [|r l IH]; intros st; cbn [fold_left filter].
  - simpl. now rewrite app_nil_r.
  - rewrite IH. unfold linkCandidate, linked.
    destruct (jsLt (Fin (3 # 10)) (calculateSimpleSimilarity article r)).
    + simpl. now rewrite <- app_assoc.
    + reflexivity.
Qed.

(** The edges one turn of the article loop inserts. *)
Definition edgesOf (recentArticles : list Article) (article : Article)
  : list RelatedArticle :=
  if truthy (art_content article) &&
     (0 <? length
             (generateEmbedding
                (art_title article ++ ["010"%char] ++
                 orEmpty (orElse (orElse (art_content article) (art_snippet article))
                                 (Some [])))))
  then map (edge article)
           (filter (linked article) (firstn 5 (potentialRelated article recentArticles)))
  else [].

Lemma linkArticle_edges (recentArticles : list Article) (st : Store) (article : Article) :
  relatedArticles (linkArticle generateEmbedding stringify recentArticles st article)
  = relatedArticles st ++ edgesOf recentArticles article.
Proof.
  unfold linkArticle, edgesOf. destruct (truthy (art_content article)); simpl.
  - destruct (0 <? length (generateEmbedding _)).
    + now rewrite fold_linkCandidate.
    + now rewrite app_nil_r.
  - now rewrite app_nil_r.
Qed.

Lemma fold_linkArticle_edges (recentArticles : list Article) (l : list Article) :
  forall st,
    relatedArticles (fold_left (linkArticle generateEmbedding stringify recentArticles) l st)
    = relatedArticles st ++ flat_map (edgesOf recentArticles) l.
Proof.
  induction l as [|a l IH]; intros st; cbn [fold_left flat_map].
  - now rewrite app_nil_r.
  - now rewrite IH, linkArticle_edges, <- app_assoc.
Qed.

Lemma In_firstn {A} (x : A) (n : nat) (l : list A) : In x (firstn n l) -> In x l.
Proof.
  intros H. rewrite <- (firstn_skipn n l). apply in_or_app. now left.
Qed.

Lemma firstn_length_le' {A} (n : nat) (l : list A) : length (firstn n l) <= n.
Proof. rewrite length_firstn. lia. Qed.



Lemma In_edgesOf (recentArticles : list Article) (article : Article) (e : RelatedArticle) :
  In e (edgesOf recentArticles article) ->
  exists related,
    e = edge article related /\
    In related (firstn 5 (potentialRelated article recentArticles)) /\
    In related recentArticles /\
    art_id related <> art_id article /\
    art_category related = art_category article /\
    jsLt (Fin (3 # 10)) (calculateSimpleSimilarity article related) = true.
Proof.
  unfold edgesOf. destruct (_ && _); [|intros []].
  rewrite in_map_iff. intros (related & <- & Hin).
  apply filter_In in Hin as [Hin Hl]. exists related.
  pose proof Hin as Hcand. apply In_firstn in Hin.
  unfold potentialRelated in Hin. apply filter_In in Hin as [Hrec Hcond].
  apply andb_true_iff in Hcond as [Hid Hcat].
  apply negb_true_iff, Nat.eqb_neq in Hid.
  repeat split; auto.
  destruct (art_category related) as [c|], (art_category article) as [c'|];
    try discriminate; [|reflexivity].
  destruct c, c'; try discriminate; reflexivity.
Qed.

End LinkerProperties.


(** ** Counting keywords *)

(** [m.get(k) || 0] *)
Definition getCount (k : text) (m : counts) : nat :=
  match find (fun e => textEqb (fst e) k) m with
  | Some e => snd e
  | None => 0
  end.

(** The number of articles whose keyword set holds [k]. *)
Definition mentions (k : text) (l : list Article) : nat :=
  length (filter (fun a => has (articleKeywords a) k) l).

(** The same, among the articles of one category key. *)
Definition mentionsIn (c : option Category) (k : text) (l : list Article) : nat :=
  length
    (filter (fun a => categoryKeyEqb (art_category a) c && has (articleKeywords a) k) l).

Definition keys (m : counts) : list text := map fst m.

Lemma textEqb_sym (a b : text) : textEqb a b = textEqb b a.
Proof.
  destruct (textEqb a b) eqn:E.
  - apply textEqb_eq in E as ->. now rewrite textEqb_refl.
  - destruct (textEqb b a) eqn:E'; [|reflexivity].
    apply textEqb_eq in E' as ->. now rewrite textEqb_refl in E.
Qed.

Lemma getCount_cons (k k0 : text) (n : nat) (m : counts) :
  getCount k ((k0, n) :: m) = if textEqb k0 k then n else getCount k m.
Proof. unfold getCount; simpl. now destruct (textEqb k0 k). Qed.

Lemma getCount_bump (k k' : text) (m : counts) :
  getCount k (bump k' m) = getCount k m + (if textEqb k' k then 1 else 0).
Proof.
  induction m as [|[k0 n] m IH]; simpl.
  - rewrite getCount_cons. now destruct (textEqb k' k).
  - destruct (textEqb k0 k') eqn:E; rewrite !getCount_cons.
    + apply textEqb_eq in E as ->. destruct (textEqb k' k); lia.
    + destruct (textEqb k0 k) eqn:E2; [|apply IH].
      apply textEqb_eq in E2 as ->. rewrite textEqb_sym, E. lia.
Qed.

Lemma keys_bump (k x : text) (m : counts) :
  In x (keys (bump k m)) <-> x = k \/ In x (keys m).
Proof.
  unfold keys. induction m as [|[k0 n] m IH]; simpl.
  - split; [intros [<-|[]]; now left|intros [->|[]]; now left].
  - destruct (textEqb k0 k) eqn:E; simpl.
    + apply textEqb_eq in E as ->. intuition auto.
    + rewrite IH. tauto.
Qed.

Lemma NoDup_keys_bump (k : text) (m : counts) :
  NoDup (keys m) -> NoDup (keys (bump k m)).
Proof.
  unfold keys. induction m as [|[k0 n] m IH]; simpl; intros H.
  - constructor; [intros []|constructor].
  - inversion H as [|? ? Hn Hd]; subst.
    destruct (textEqb k0 k) eqn:E; simpl.
    + now constructor.
    + constructor; [|now apply IH].
      intros Hin. apply keys_bump in Hin as [->|Hin]; [|contradiction].
      now rewrite textEqb_refl in E.
Qed.

Lemma getCount_In (k : text) (c : nat) (m : counts) :
  NoDup (keys m) -> In (k, c) m -> getCount k m = c.
Proof.
  unfold keys. induction m as [|[k0 n] m IH]; simpl; intros Hd Hin; [contradiction|].
  inversion Hd as [|? ? Hn Hd']; subst. rewrite getCount_cons.
  destruct Hin as [[= -> ->]|Hin].
  - now rewrite textEqb_refl.
  - destruct (textEqb k0 k) eqn:E; [|now apply IH].
    apply textEqb_eq in E as ->. exfalso. apply Hn.
    change k with (fst (k, c)). now apply in_map.
Qed.

Definition bumpAll (ks : list text) (m : counts) : counts :=
  fold_left (fun m kw => bump kw m) ks m.

Lemma has_cons (x k : text) (ks : list text) :
  has (x :: ks) k = textEqb k x || has ks k.
Proof. reflexivity. Qed.

Lemma getCount_bumpAll (k : text) (ks : list text) :
  NoDup ks ->
  forall m, getCount k (bumpAll ks m) = getCount k m + (if has ks k then 1 else 0).
Proof.
  unfold bumpAll. induction ks as [|x ks IH]; intros Hd m; cbn [fold_left].
  - simpl. lia.
  - inversion Hd as [|? ? Hn Hd']; subst.
    rewrite (IH Hd'), getCount_bump, has_cons, (textEqb_sym k x).
    destruct (textEqb x k) eqn:E; simpl; [|lia].
    apply textEqb_eq in E as ->.
    destruct (has ks k) eqn:Eh; [|lia]. now apply has_In in Eh.
Qed.

Lemma NoDup_keys_bumpAll (ks : list text) :
  forall m, NoDup (keys m) -> NoDup (keys (bumpAll ks m)).
Proof.
  unfold bumpAll. induction ks as [|x ks IH]; intros m H; cbn [fold_left]; auto.
  apply IH. now apply NoDup_keys_bump.
Qed.

(** *** The per-category maps *)

Definition getTopics (c : option Category) (m : categoryCounts) : counts :=
  match find (fun e => categoryKeyEqb (fst e) c) m with
  | Some e => snd e
  | None => []
  end.

Definition hasCategory (c : option Category) (m : categoryCounts) : bool :=
  existsb (fun e => categoryKeyEqb (fst e) c) m.

Lemma categoryKeyEqb_eq (a b : option Category) : categoryKeyEqb a b = true <-> a = b.
Proof.
  destruct a as [[]|], b as [[]|]; simpl; split; intros H;
    try reflexivity; try discriminate.
Qed.

Lemma categoryKeyEqb_refl (a : option Category) : categoryKeyEqb a a = true.
Proof. now apply categoryKeyEqb_eq. Qed.

Lemma getTopics_cons (c c0 : option Category) (t : counts) (m : categoryCounts) :
  getTopics c ((c0, t) :: m) = if categoryKeyEqb c0 c then t else getTopics c m.
Proof. unfold getTopics; simpl. now destruct (categoryKeyEqb c0 c). Qed.

Lemma getTopics_ensureCategory (c c' : option Category) (m : categoryCounts) :
  getTopics c (ensureCategory c' m) = getTopics c m.
Proof.
  induction m as [|[c0 t] m IH]; simpl.
  - rewrite getTopics_cons. now destruct (categoryKeyEqb c' c).
  - destruct (categoryKeyEqb c0 c'); [reflexivity|].
    rewrite !getTopics_cons, IH. reflexivity.
Qed.

Lemma hasCategory_ensureCategory (c : option Category) (m : categoryCounts) :
  hasCategory c (ensureCategory c m) = true.
Proof.
  unfold hasCategory. induction m as [|[c0 t] m IH]; simpl.
  - now rewrite categoryKeyEqb_refl.
  - destruct (categoryKeyEqb c0 c) eqn:E; simpl; rewrite E; [reflexivity|exact IH].
Qed.

Lemma hasCategory_bumpCategory (c c' : option Category) (k : text) (m : categoryCounts) :
  hasCategory c (bumpCategory c' k m) = hasCategory c m.
Proof.
  unfold hasCategory. induction m as [|[c0 t] m IH]; simpl; [reflexivity|].
  destruct (categoryKeyEqb c0 c'); simpl; [reflexivity|now rewrite IH].
Qed.

Lemma getTopics_bumpCategory (c c' : option Category) (k : text) (m : categoryCounts) :
  hasCategory c' m = true ->
  getTopics c (bumpCategory c' k m)
  = if categoryKeyEqb c' c then bump k (getTopics c m) else getTopics c m.
Proof.
  unfold hasCategory. induction m as [|[c0 t] m IH]; simpl; [discriminate|].
  destruct (categoryKeyEqb c0 c') eqn:E; simpl.
  - intros _. apply categoryKeyEqb_eq in E as ->. rewrite !getTopics_cons.
    now destruct (categoryKeyEqb c' c).
  - intros H. rewrite !getTopics_cons, (IH H).
    destruct (categoryKeyEqb c0 c) eqn:E2; [|reflexivity].
    apply categoryKeyEqb_eq in E2 as ->.
    destruct (categoryKeyEqb c' c) eqn:E3; [|reflexivity].
    apply categoryKeyEqb_eq in E3 as ->. now rewrite categoryKeyEqb_refl in E.
Qed.

Definition bumpCategoryAll (c : option Category) (ks : list text) (m : categoryCounts)
  : categoryCounts :=
  fold_left (fun m kw => bumpCategory c kw m) ks m.

Lemma getTopics_bumpCategoryAll (c c' : option Category) (ks : list text) :
  forall m,
    hasCategory c' m = true ->
    getTopics c (bumpCategoryAll c' ks m)
    = if categoryKeyEqb c' c then bumpAll ks (getTopics c m) else getTopics c m.
Proof.
  unfold bumpCategoryAll, bumpAll.
  induction ks as [|x ks IH]; intros m H; cbn [fold_left].
  - now destruct (categoryKeyEqb c' c).
  - rewrite IH by now rewrite hasCategory_bumpCategory.
    rewrite (getTopics_bumpCategory _ _ _ _ H).
    now destruct (categoryKeyEqb c' c).
Qed.

Lemma map_fst_bumpCategory (c : option Category) (k : text) (m : categoryCounts) :
  map fst (bumpCategory c k m) = map fst m.
Proof.
  induction m as [|[c0 t] m IH]; simpl; [reflexivity|].
  destruct (categoryKeyEqb c0 c); simpl; [reflexivity|now rewrite IH].
Qed.

Lemma map_fst_bumpCategoryAll (c : option Category) (ks : list text) :
  forall m, map fst (bumpCategoryAll c ks m) = map fst m.
Proof.
  unfold bumpCategoryAll. induction ks as [|x ks IH]; intros m; cbn [fold_left];
    [reflexivity|].
  now rewrite IH, map_fst_bumpCategory.
Qed.

Lemma In_ensureCategory (c x : option Category) (m : categoryCounts) :
  In x (map fst (ensureCategory c m)) <-> x = c \/ In x (map fst m).
Proof.
  induction m as [|[c0 t] m IH]; simpl.
  - intuition auto.
  - destruct (categoryKeyEqb c0 c) eqn:E; simpl.
    + apply categoryKeyEqb_eq in E as ->. intuition auto.
    + rewrite IH. tauto.
Qed.

Lemma NoDup_ensureCategory (c : option Category) (m : categoryCounts) :
  NoDup (map fst m) -> NoDup (map fst (ensureCategory c m)).
Proof.
  induction m as [|[c0 t] m IH]; simpl; intros H.
  - constructor; [intros []|constructor].
  - destruct (categoryKeyEqb c0 c) eqn:E; simpl; [assumption|].
    inversion H as [|? ? Hn Hd]; subst. constructor; [|now apply IH].
    intros Hin. apply In_ensureCategory in Hin as [->|Hin]; [|contradiction].
    now rewrite categoryKeyEqb_refl in E.
Qed.

Lemma getTopics_In (c : option Category) (t : counts) (m : categoryCounts) :
  NoDup (map fst m) -> In (c, t) m -> getTopics c m = t.
Proof.
  induction m as [|[c0 t0] m IH]; simpl; intros Hd Hin; [contradiction|].
  inversion Hd as [|? ? Hn Hd']; subst. rewrite getTopics_cons.
  destruct Hin as [[= -> ->]|Hin].
  - now rewrite categoryKeyEqb_refl.
  - destruct (categoryKeyEqb c0 c) eqn:E; [|now apply IH].
    apply categoryKeyEqb_eq in E as ->. exfalso. apply Hn.
    change c with (fst (c, t)). now apply in_map.
Qed.

(** One turn of the article loop, by its two components. *)
Lemma tally_components (acc : counts * categoryCounts) (a : Article) :
  tally acc a
  = (bumpAll (articleKeywords a) (fst acc),
     bumpCategoryAll (art_category a) (articleKeywords a)
       (ensureCategory (art_category a) (snd acc))).
Proof.
  unfold tally, bumpAll, bumpCategoryAll.
  generalize (articleKeywords a) (fst acc) (ensureCategory (art_category a) (snd acc)).
  intros ks. induction ks as [|x ks IH]; intros m cm; cbn [fold_left]; [reflexivity|].
  apply IH.
Qed.

Lemma NoDup_articleKeywords (a : Article) : NoDup (articleKeywords a).
Proof. unfold articleKeywords, extractKeywords. apply NoDup_dedupe. Qed.

(** The invariant of the article loop: the global map and every category
    map hold each keyword once, with the number of articles read so far
    that mention it. *)
Definition tallied (l : list Article) (acc : counts * categoryCounts) : Prop :=
  NoDup (keys (fst acc)) /\
  (forall k, getCount k (fst acc) = mentions k l) /\
  (forall c, NoDup (keys (getTopics c (snd acc)))) /\
  (forall c k, getCount k (getTopics c (snd acc)) = mentionsIn c k l) /\
  NoDup (map fst (snd acc)).

Lemma mentions_app (k : text) (l l' : list Article) :
  mentions k (l ++ l') = mentions k l + mentions k l'.
Proof. unfold mentions. now rewrite filter_app, length_app. Qed.

Lemma mentionsIn_app (c : option Category) (k : text) (l l' : list Article) :
  mentionsIn c k (l ++ l') = mentionsIn c k l + mentionsIn c k l'.
Proof. unfold mentionsIn. now rewrite filter_app, length_app. Qed.

Lemma tallied_step (l : list Article) (acc : counts * categoryCounts) (a : Article) :
  tallied l acc -> tallied (l ++ [a]) (tally acc a).
Proof.
  intros (Hd & Hc & Hcd & Hcc & Hck). rewrite tally_components.
  unfold tallied; cbn [fst snd].
  pose proof (NoDup_articleKeywords a) as Hk.
  assert (Hhas : hasCategory (art_category a) (ensureCategory (art_category a) (snd acc))
                 = true) by apply hasCategory_ensureCategory.
  repeat split.
  - now apply NoDup_keys_bumpAll.
  - intros k. rewrite (getCount_bumpAll _ _ Hk), Hc, mentions_app.
    unfold mentions at 3; cbn [filter].
    now destruct (has (articleKeywords a) k).
  - intros c. rewrite (getTopics_bumpCategoryAll _ _ _ _ Hhas), getTopics_ensureCategory.
    destruct (categoryKeyEqb (art_category a) c); [|apply Hcd].
    apply NoDup_keys_bumpAll, Hcd.
  - intros c k.
    rewrite (getTopics_bumpCategoryAll _ _ _ _ Hhas), getTopics_ensureCategory.
    rewrite mentionsIn_app. unfold mentionsIn at 2; cbn [filter].
    destruct (categoryKeyEqb (art_category a) c); cbn [andb].
    + rewrite (getCount_bumpAll _ _ Hk), Hcc. now destruct (has (articleKeywords a) k).
    + rewrite Hcc. cbn [length]. lia.
  - rewrite map_fst_bumpCategoryAll. now apply NoDup_ensureCategory.
Qed.

Lemma fold_left_cons {A B} (f : A -> B -> A) (x : B) (l : list B) (a : A) :
  fold_left f (x :: l) a = fold_left f l (f a x).
Proof. reflexivity. Qed.

Lemma tallied_fold (l' : list Article) :
  forall l acc, tallied l acc -> tallied (l ++ l') (fold_left tally l' acc).
Proof.
  induction l' as [|a l' IH]; intros l acc H.
  - rewrite app_nil_r. exact H.
  - rewrite fold_left_cons.
    replace (l ++ a :: l') with ((l ++ [a]) ++ l') by (rewrite <- app_assoc; reflexivity).
    apply IH, tallied_step, H.
Qed.

Lemma tallied_tallyAll (l : list Article) : tallied l (tallyAll l).
Proof.
  unfold tallyAll. apply (tallied_fold l [] ([], [])).
  repeat split; try constructor.
Qed.

(** ** Ranking *)

Lemma insertBy_perm {A} (f : A -> A -> bool) (x : A) (l : list A) :
  Permutation (insertBy f x l) (x :: l).
Proof.
  induction l as [|y l IH]; simpl; [apply Permutation_refl|].
  destruct (f y x); [|apply Permutation_refl].
  eapply Permutation_trans; [apply perm_skip, IH|apply perm_swap].
Qed.

Lemma sortBy_perm {A} (f : A -> A -> bool) (l : list A) : Permutation (sortBy f l) l.
Proof.
  induction l as [|x l IH]; simpl; [constructor|].
  eapply Permutation_trans; [apply insertBy_perm|now apply perm_skip].
Qed.

(** [b] does not count more than [a]. *)
Definition noMore (a b : text * nat) : Prop := snd b <= snd a.

Lemma insertBy_sorted (x : text * nat) (l : counts) :
  StronglySorted noMore l -> StronglySorted noMore (insertBy byCountDesc x l).
Proof.
  induction l as [|y l IH]; simpl; intros H.
  - constructor; constructor.
  - inversion H as [|? ? Hs Hall]; subst.
    unfold byCountDesc at 1. destruct (snd x <? snd y) eqn:E.
    + apply Nat.ltb_lt in E. constructor; [now apply IH|].
      apply Forall_forall. intros z Hz.
      apply (Permutation_in _ (insertBy_perm byCountDesc x l)) in Hz as [<-|Hz].
      * unfold noMore. lia.
      * rewrite Forall_forall in Hall. now apply Hall.
    + apply Nat.ltb_ge in E. constructor; [assumption|].
      constructor; [exact E|].
      rewrite Forall_forall in *. intros z Hz. specialize (Hall z Hz).
      unfold noMore in *. lia.
Qed.

Lemma sortBy_sorted (m : counts) : StronglySorted noMore (sortBy byCountDesc m).
Proof.
  induction m as [|x m IH]; simpl; [constructor|]. now apply insertBy_sorted.
Qed.

Lemma StronglySorted_app_order {A} (R : A -> A -> Prop) (l1 l2 : list A) :
  StronglySorted R (l1 ++ l2) -> forall x y, In x l1 -> In y l2 -> R x y.
Proof.
  induction l1 as [|a l1 IH]; simpl; intros H x y Hx Hy; [contradiction|].
  inversion H as [|? ? Hs Hall]; subst. destruct Hx as [<-|Hx].
  - rewrite Forall_forall in Hall. apply Hall, in_or_app. now right.
  - now apply IH.
Qed.

(** The topics kept are members of the map, and no topic left out counts
    more than a topic kept. *)
Lemma topTopics_ranked (n : nat) (m : counts) :
  (forall e, In e (topTopics n m) -> In e m) /\
  (forall e e', In e (topTopics n m) -> In e' (skipn n (sortBy byCountDesc m)) ->
                snd e' <= snd e) /\
  Permutation (topTopics n m ++ skipn n (sortBy byCountDesc m)) m /\
  length (topTopics n m) <= n.
Proof.
  unfold topTopics. repeat split.
  - intros e H. apply (Permutation_in _ (sortBy_perm byCountDesc m)).
    now apply In_firstn in H.
  - intros e e' H H'.
    apply (StronglySorted_app_order noMore (firstn n (sortBy byCountDesc m))
             (skipn n (sortBy byCountDesc m))); auto.
    rewrite firstn_skipn. apply sortBy_sorted.
  - rewrite firstn_skipn. apply sortBy_perm.
  - apply firstn_length_le'.
Qed.

(** ** The trending records *)

Lemma In_overallRecords (date : Z) (m : counts) (r : TrendingRecord) :
  In r (overallRecords date m) <->
  exists e, In e (topTopics 20 m) /\ 3 <= snd e /\ r = trendingRecord date None e.
Proof.
  unfold overallRecords. rewrite in_map_iff. split.
  - intros (e & <- & He). apply filter_In in He as [He Hc].
    apply Nat.leb_le in Hc. now exists e.
  - intros (e & He & Hc & ->). exists e. split; [reflexivity|].
    apply filter_In. split; [assumption|]. now apply Nat.leb_le.
Qed.

Lemma In_categoryRecords (date : Z) (m : categoryCounts) (r : TrendingRecord) :
  In r (categoryRecords date m) ->
  exists c topics e,
    In (Some c, topics) m /\ In e (topTopics 10 topics) /\ 2 <= snd e /\
    r = trendingRecord date (Some c) e.
Proof.
  induction m as [|[[c|] topics] m IH]; cbn [categoryRecords]; [intros []| |].
  - intros H. apply in_app_or in H as [H|H].
    + apply in_map_iff in H as (e & <- & He). apply filter_In in He as [He Hc].
      apply Nat.leb_le in Hc. exists c, topics, e.
      split; [now left|]. auto.
    + destruct (IH H) as (c' & t' & e & Hin & He & Hc & ->).
      exists c', t', e. split; [now right|]. auto.
  - destruct (existsb _ _); [intros []|].
    intros H. destruct (IH H) as (c' & t' & e & Hin & He & Hc & ->).
    exists c', t', e. split; [now right|]. auto.
Qed.



Lemma snd_pair {A B} (a : A) (b : B) : snd (a, b) = b.
Proof. reflexivity. Qed.







(** The records of a run are appended to the table. *)
Lemma updateTrendingTopics_appends (now date : Z) (st : Store) :
  trendingRecords (updateTrendingTopics now date st)
  = trendingRecords st
    ++ trendingInserts date (getArticles now (recentQuery today 100) st).
Proof. reflexivity. Qed.

(** *** A run of the linker *)

Definition linkerArticle (id : ident) (title : string) (c : Category) : Article :=
  {| art_id := id; art_title := lit title; art_url := lit title;
     art_content := Some (lit "text"); art_snippet := Some [];
     art_sourceId := Some 1; art_publishedAt := Some 1704067200000%Z;
     art_fetchedAt := Some 1704067200000%Z;
     art_category := Some c; art_sentiment := None; art_sentimentScore := None;
     art_embedding := None |}.

Definition linkerStore : Store :=
  {| sources := [techSource];
     articles := [linkerArticle 1 "Apple unveils new chip" mobile;
                  linkerArticle 2 "Apple unveils new phone" mobile;
                  linkerArticle 3 "Court rules on merger" mobile;
                  linkerArticle 4 "Apple unveils new chip" others];
     trendingRecords := []; relatedArticles := []; nextId := 10 |}.

Definition unitEmbedding (t : text) : list jsnum := [Fin 1].
Definition noStringify (v : list jsnum) : text := lit "[1]".

(** Articles 1 and 2 share three of five words and are linked both ways;
    article 3 shares no word with them, and article 4 is of another
    category. *)
Lemma linker_run :
  relatedArticles (generateRelatedArticles unitEmbedding noStringify 1704070000000 linkerStore)
  = [{| rel_articleId := 1; rel_relatedArticleId := 2; rel_similarityScore := Fin (3 # 5) |};
     {| rel_articleId := 2; rel_relatedArticleId := 1; rel_similarityScore := Fin (3 # 5) |}].
Proof. vm_compute. reflexivity. Qed.


(* ================================================================== *)
(** * Further properties of the code *)
(* ================================================================== *)

(** ** White space after the cleanser *)

Lemma replaceAll_skip (m : text -> option text) (rep : text) :
  forall s skip, replaceAll m rep skip s = replaceAll m rep 0 (skipn skip s).
Proof.
  induction s as [|c s IH]; intros skip; [now destruct skip|].
  destruct skip as [|k]; [reflexivity|].
  rewrite replaceAll_cons. apply IH.
Qed.

Lemma collapseSpaces_cons (c : ascii) (s : text) :
  collapseSpaces (c :: s)
  = if isSpace c then " "%char :: collapseSpaces (dropWhile isSpace s)
    else c :: collapseSpaces s.
Proof.
  unfold collapseSpaces. rewrite replaceAll_cons. unfold matchSpaces.
  destruct (isSpace c); [|reflexivity].
  now rewrite replaceAll_skip, skipn_dropWhile.
Qed.

Lemma dropWhile_head {A} (p : A -> bool) (l : list A) (x : A) (r : list A) :
  dropWhile p l = x :: r -> p x = false.
Proof.
  induction l as [|y l IH]; simpl; [discriminate|].
  destruct (p y) eqn:E; [assumption|]. now intros [= <- _].
Qed.

Lemma dropWhile_id {A} (p : A -> bool) (l : list A) :
  match l with [] => True | x :: _ => p x = false end -> dropWhile p l = l.
Proof. destruct l as [|x l]; simpl; [reflexivity|]. now intros ->. Qed.

Lemma dropWhile_idem {A} (p : A -> bool) (l : list A) :
  dropWhile p (dropWhile p l) = dropWhile p l.
Proof.
  apply dropWhile_id. destruct (dropWhile p l) as [|x r] eqn:E; [exact I|].
  eapply dropWhile_head, E.
Qed.

(** Every white-space character of [s] is a space, and no two of them
    are neighbours; [afterSpace] tells that a space stands before [s]. *)
Fixpoint spaced (afterSpace : bool) (s : text) : bool :=
  match s with
  | [] => true
  | c :: s' =>
      if isSpace c then Ascii.eqb c " " && negb afterSpace && spaced true s'
      else spaced false s'
  end.

Lemma spaced_weaken (s : text) : spaced true s = true -> spaced false s = true.
Proof.
  destruct s as [|c s]; simpl; [reflexivity|].
  destruct (isSpace c); [|auto]. rewrite andb_false_r. discriminate.
Qed.

Lemma spaced_tail (p : bool) (c : ascii) (s : text) :
  spaced p (c :: s) = true -> spaced false s = true.
Proof.
  simpl. destruct (isSpace c); [|auto].
  intros H. apply andb_true_iff in H as [_ H]. now apply spaced_weaken.
Qed.

Lemma spaced_dropWhile (s : text) :
  forall p, spaced p s = true -> spaced false (dropWhile isSpace s) = true.
Proof.
  induction s as [|c s IH]; intros p H; [reflexivity|].
  simpl dropWhile. destruct (isSpace c) eqn:E.
  - apply (IH false). eapply spaced_tail, H.
  - simpl in *. now rewrite E in *.
Qed.

Lemma spaced_prefix (a b : text) :
  forall p, spaced p (a ++ b) = true -> spaced p a = true.
Proof.
  induction a as [|c a IH]; intros p; simpl; [reflexivity|].
  destruct (isSpace c); [|apply IH].
  intros H. apply andb_true_iff in H as [H1 H2]. rewrite H1. now apply IH.
Qed.

Lemma spaced_In (s : text) (c : ascii) :
  forall p, spaced p s = true -> In c s -> isSpace c = true -> c = " "%char.
Proof.
  induction s as [|d s IH]; intros p H Hin Hc; [contradiction|].
  destruct Hin as [->|Hin]; [|eapply IH; eauto using spaced_tail].
  simpl in H. rewrite Hc in H.
  apply andb_true_iff in H as [H _]. apply andb_true_iff in H as [H _].
  now apply Ascii.eqb_eq in H.
Qed.

Lemma collapseSpaces_spaced :
  forall n s, length s <= n ->
    spaced false (collapseSpaces s) = true /\
    (match s with [] => True | c :: _ => isSpace c = false end ->
     spaced true (collapseSpaces s) = true).
Proof.
  induction n as [|n IH]; intros s Hn.
  - destruct s; [split; reflexivity|simpl in Hn; lia].
  - destruct s as [|c s]; [split; reflexivity|].
    simpl in Hn. rewrite collapseSpaces_cons. destruct (isSpace c) eqn:E.
    + split; [|discriminate].
      change (spaced true (collapseSpaces (dropWhile isSpace s)) = true).
      apply IH.
      * pose proof (length_dropWhile isSpace s). lia.
      * destruct (dropWhile isSpace s) as [|x r] eqn:Ed; [exact I|].
        eapply dropWhile_head, Ed.
    + assert (H : spaced false (collapseSpaces s) = true) by (apply IH; lia).
      split; intros; simpl; now rewrite E.
Qed.

Lemma collapseSpaces_fixed (s : text) :
  forall p, spaced p s = true -> collapseSpaces s = s.
Proof.
  induction s as [|c s IH]; intros p H; [reflexivity|].
  rewrite collapseSpaces_cons. simpl in H. destruct (isSpace c) eqn:E.
  - apply andb_true_iff in H as [H Hs]. apply andb_true_iff in H as [Hc _].
    apply Ascii.eqb_eq in Hc as ->.
    rewrite dropWhile_id; [now rewrite (IH true)|].
    destruct s as [|d s]; [exact I|]. simpl in Hs.
    destruct (isSpace d); [|reflexivity]. now rewrite andb_false_r in Hs.
  - now rewrite (IH false).
Qed.

(** What [trimEnd] removes is a run of white space at the end. *)
Lemma dropWhile_split {A} (p : A -> bool) (l : list A) :
  exists w, l = w ++ dropWhile p l /\ forallb p w = true.
Proof.
  induction l as [|x l (w & Hl & Hw)]; simpl; [now exists []|].
  destruct (p x) eqn:E.
  - exists (x :: w). simpl. rewrite E, Hw. split; [now f_equal|reflexivity].
  - now exists [].
Qed.

Lemma trimEnd_split (s : text) :
  exists w, s = trimEnd s ++ w /\ forallb isSpace w = true.
Proof.
  unfold trimEnd. destruct (dropWhile_split isSpace (rev s)) as (w & Hl & Hw).
  exists (rev w). split.
  - rewrite <- rev_app_distr, <- Hl. now rewrite rev_involutive.
  - rewrite forallb_forall in *. intros x Hx. apply Hw. now apply in_rev.
Qed.

Lemma trimEnd_idem (s : text) : trimEnd (trimEnd s) = trimEnd s.
Proof. unfold trimEnd. now rewrite rev_involutive, dropWhile_idem. Qed.

Lemma trimStart_trimEnd (s : text) :
  trimStart s = s -> trimStart (trimEnd s) = trimEnd s.
Proof.
  intros Hs. unfold trimStart in *. apply dropWhile_id.
  destruct (trimEnd_split s) as (w & Hw & _).
  destruct (trimEnd s) as [|x r]; [exact I|].
  rewrite Hw in Hs. simpl in Hs. destruct (isSpace x) eqn:E; [|reflexivity].
  exfalso. pose proof (length_dropWhile isSpace (r ++ w)) as Hlen.
  rewrite Hs in Hlen. simpl in Hlen. lia.
Qed.

Lemma trim_idem (s : text) : trim (trim s) = trim s.
Proof.
  unfold trim. rewrite trimStart_trimEnd.
  - apply trimEnd_idem.
  - apply dropWhile_idem.
Qed.

Lemma spaced_trim (s : text) : spaced false s = true -> spaced false (trim s) = true.
Proof.
  intros H. unfold trim. apply spaced_dropWhile in H. fold (trimStart s) in H.
  destruct (trimEnd_split (trimStart s)) as (w & Hw & _).
  rewrite Hw in H. eapply spaced_prefix, H.
Qed.

Lemma length_trim (s : text) : length (trim s) <= length s.
Proof.
  unfold trim. destruct (trimEnd_split (trimStart s)) as (w & Hw & _).
  pose proof (length_dropWhile isSpace s) as H. fold (trimStart s) in H.
  rewrite Hw, length_app in H. lia.
Qed.

Lemma cleanHTML_spaced (html : option text) : spaced false (cleanHTML html) = true.
Proof.
  unfold cleanHTML. destruct (truthy html); [|reflexivity].
  apply spaced_trim. eapply collapseSpaces_spaced. apply Nat.le_refl.
Qed.

Lemma cleanHTML_trimmed (html : option text) : trim (cleanHTML html) = cleanHTML html.
Proof.
  unfold cleanHTML. destruct (truthy html); [apply trim_idem|reflexivity].
Qed.

(** X1. Whatever the input, the text [cleanHTML] returns is in white-space
    normal form: trimming it or collapsing its white space again changes
    nothing, and the only white-space character left in it is the
    space. *)
Theorem cleanHTML_whitespace_normal :
  forall html : option text,
    trim (cleanHTML html) = cleanHTML html /\
    collapseSpaces (cleanHTML html) = cleanHTML html /\
    (forall c, In c (cleanHTML html) -> isSpace c = true -> c = " "%char).
Proof.
  intros html. pose proof (cleanHTML_spaced html) as H.
  split; [apply cleanHTML_trimmed|]. split.
  - eapply collapseSpaces_fixed, H.
  - intros c. eapply spaced_In, H.
Qed.

(** ** The snippet *)

Lemma trim_prefix_of_trimmed (s : text) (n : nat) :
  trim s = s -> exists rest, s = trim (firstn n s) ++ rest.
Proof.
  intros Hs. unfold trim.
  assert (Hstart : trimStart (firstn n s) = firstn n s).
  { unfold trimStart. apply dropWhile_id.
    destruct s as [|x r]; [now destruct n|]. destruct n; [exact I|]. simpl.
    destruct (isSpace x) eqn:E; [|reflexivity]. exfalso.
    pose proof (length_trim (x :: r)) as Hlen. unfold trim in Hlen, Hs.
    destruct (trimEnd_split (trimStart (x :: r))) as (w & Hw & _).
    pose proof (length_dropWhile isSpace r) as Hd.
    unfold trimStart in Hw. simpl in Hw. rewrite E in Hw.
    assert (Hl : length (dropWhile isSpace r) = length (x :: r) + length w).
    { rewrite Hw at 1. rewrite length_app. f_equal.
      unfold trimStart in Hs. simpl in Hs. rewrite E in Hs. now rewrite Hs. }
    simpl in Hl. lia. }
  rewrite Hstart. destruct (trimEnd_split (firstn n s)) as (w & Hw & _).
  exists (w ++ skipn n s). rewrite app_assoc, <- Hw. symmetry. apply firstn_skipn.
Qed.

(** X2. A snippet never exceeds 203 characters. A cleansed text of at
    most 200 characters is the snippet itself; a longer one is cut: the
    snippet is then a prefix of at most 200 characters of the cleansed
    text, followed by the three-dot marker. *)
Theorem createSnippet_bounded :
  forall content : text,
    length (createSnippet content) <= 203 /\
    (length (cleanHTML (Some content)) <= 200 ->
     createSnippet content = cleanHTML (Some content)) /\
    (200 < length (cleanHTML (Some content)) ->
     exists kept rest,
       createSnippet content = kept ++ lit "..." /\
       length kept <= 200 /\
       cleanHTML (Some content) = kept ++ rest).
Proof.
  intros content.
  assert (Hcut : length (trim (substring0 200 (cleanHTML (Some content)))) <= 200).
  { eapply Nat.le_trans; [apply length_trim|]. apply firstn_length_le'. }
  unfold createSnippet. destruct (truthy (Some content)) eqn:Et.
  - destruct (200 <? length (cleanHTML (Some content))) eqn:E.
    + apply Nat.ltb_lt in E.
      split; [rewrite length_app; change (length (lit "...")) with 3; lia|].
      split; [lia|]. intros _.
      destruct (trim_prefix_of_trimmed (cleanHTML (Some content)) 200
                  (cleanHTML_trimmed (Some content))) as (rest & Hrest).
      exists (trim (substring0 200 (cleanHTML (Some content)))), rest.
      repeat split; assumption.
    + apply Nat.ltb_ge in E. split; [lia|]. split; [reflexivity|lia].
  - destruct content; [|discriminate]. simpl. split; [lia|].
    split; [reflexivity|]. unfold cleanHTML; simpl. lia.
Qed.

(** ** The [LIKE] search *)

Lemma like_percent (p s : text) :
  like ("%"%char :: p) s
  = like p s || match s with [] => false | _ :: s' => like ("%"%char :: p) s' end.
Proof. destruct s; reflexivity. Qed.

Lemma like_percent_cons (p : text) (c : ascii) (s : text) :
  like ("%"%char :: p) (c :: s) = like p (c :: s) || like ("%"%char :: p) s.
Proof. reflexivity. Qed.

(** A character that stands for itself in a pattern. *)
Definition plainChar (c : ascii) : bool :=
  negb (Ascii.eqb c "%" || Ascii.eqb c "_" || Ascii.eqb c "\").

Lemma like_plain (c : ascii) (p s : text) :
  plainChar c = true ->
  like (c :: p) s = match s with [] => false | d :: s' => Ascii.eqb c d && like p s' end.
Proof.
  unfold plainChar. intros H. apply negb_true_iff in H.
  apply orb_false_iff in H as [H H3]. apply orb_false_iff in H as [H1 H2].
  simpl. now rewrite H1, H2, H3.
Qed.

Lemma like_percent_nil (s : text) : like ["%"%char] s = true.
Proof.
  induction s as [|c s IH]; [reflexivity|].
  rewrite like_percent_cons, IH. apply orb_true_r.
Qed.

Lemma like_percent_skip (p x : text) :
  like p x = true -> forall pre, like ("%"%char :: p) (pre ++ x) = true.
Proof.
  intros H. induction pre as [|c pre IH].
  - rewrite like_percent. simpl app. now rewrite H.
  - simpl app. rewrite like_percent_cons, IH. apply orb_true_r.
Qed.

Lemma like_percent_inv (p : text) :
  forall t, like ("%"%char :: p) t = true -> exists pre x, t = pre ++ x /\ like p x = true.
Proof.
  induction t as [|c t IH]; [rewrite like_percent|rewrite like_percent_cons]; intros H.
  - rewrite orb_false_r in H. now exists [], [].
  - apply orb_true_iff in H as [H|H]; [now exists [], (c :: t)|].
    destruct (IH H) as (pre & x & -> & Hx). now exists (c :: pre), x.
Qed.

(** A pattern without a backslash matches itself, wild cards included. *)
Lemma like_self_app (q t : text) :
  like q t = true ->
  forall p, ~ In "\"%char p -> like (p ++ q) (p ++ t) = true.
Proof.
  intros Hq. induction p as [|c p IH]; intros Hb; [exact Hq|].
  assert (Hp : like (p ++ q) (p ++ t) = true) by (apply IH; intros H; apply Hb; now right).
  destruct (Ascii.eqb_spec c "%") as [->|H1].
  - simpl app. rewrite like_percent_cons, (like_percent (p ++ q) (p ++ t)), Hp.
    simpl. apply orb_true_r.
  - destruct (Ascii.eqb_spec c "_") as [->|H2]; [exact Hp|].
    destruct (Ascii.eqb_spec c "\") as [->|H3]; [exfalso; apply Hb; now left|].
    simpl app. rewrite like_plain.
    + now rewrite Ascii.eqb_refl, Hp.
    + unfold plainChar. apply Ascii.eqb_neq in H1, H2, H3. now rewrite H1, H2, H3.
Qed.

Lemma like_plain_prefix (q : text) :
  forall s x, forallb plainChar s = true -> like (s ++ q) x = true ->
              exists x', x = s ++ x' /\ like q x' = true.
Proof.
  induction s as [|c s IH]; intros x Hs H; [now exists x|].
  simpl in Hs. apply andb_true_iff in Hs as [Hc Hs].
  simpl app in H. rewrite (like_plain _ _ _ Hc) in H.
  destruct x as [|d x]; [discriminate|].
  apply andb_true_iff in H as [Hd H]. apply Ascii.eqb_eq in Hd as <-.
  destruct (IH x Hs H) as (x' & -> & Hx). now exists x'.
Qed.

Lemma startsWith_iff (s p : text) :
  startsWith s p = true <-> exists post, s = p ++ post.
Proof.
  revert s; induction p as [|c p IH]; intros s; simpl.
  - split; [now exists s|reflexivity].
  - destruct s as [|d s].
    + split; [discriminate|intros (post & H); discriminate].
    + rewrite andb_true_iff, Ascii.eqb_eq, IH. split.
      * intros [-> (post & ->)]. now exists post.
      * intros (post & [= -> ->]). split; [reflexivity|now exists post].
Qed.

Lemma includes_iff (t s : text) :
  includes t s = true <-> exists pre post, t = pre ++ s ++ post.
Proof.
  induction t as [|c t IH]; simpl.
  - rewrite orb_false_r, startsWith_iff. split.
    + intros (post & H). now exists [], post.
    + intros (pre & post & H). symmetry in H.
      apply app_eq_nil in H as [-> H]. apply app_eq_nil in H as [-> ->]. now exists [].
  - rewrite orb_true_iff, startsWith_iff, IH. split.
    + intros [(post & H)|(pre & post & ->)]; [now exists [], post|].
      now exists (c :: pre), post.
    + intros ([|d pre] & post & H).
      * left. now exists post.
      * right. injection H as -> ->. now exists pre, post.
Qed.

Lemma not_plain_backslash (s : text) :
  forallb plainChar s = true -> ~ In "\"%char s.
Proof.
  intros H Hin. rewrite forallb_forall in H. specialize (H _ Hin). discriminate H.
Qed.

(** The search pattern built from a text without a backslash finds every
    text that contains it. *)
Lemma like_finds_containing (s pre post : text) :
  ~ In "\"%char s -> like (lit "%" ++ s ++ lit "%") (pre ++ s ++ post) = true.
Proof.
  intros Hb. apply like_percent_skip.
  apply like_self_app; [apply like_percent_nil|assumption].
Qed.

Lemma like_plain_includes (s t : text) :
  forallb plainChar s = true -> like (lit "%" ++ s ++ lit "%") t = includes t s.
Proof.
  intros Hs. destruct (like (lit "%" ++ s ++ lit "%") t) eqn:E.
  - symmetry. apply includes_iff.
    apply like_percent_inv in E as (pre & x & -> & Hx).
    apply like_plain_prefix in Hx as (x' & -> & _); [|assumption].
    now exists pre, x'.
  - destruct (includes t s) eqn:Ei; [|reflexivity].
    apply includes_iff in Ei as (pre & post & ->).
    rewrite like_finds_containing in E; [discriminate|]. now apply not_plain_backslash.
Qed.

(** X3. The search pattern built from a text without a backslash finds
    every text that contains it; built from a text without [%], [_] and
    backslash it finds nothing else, so that the search is the substring
    test. *)
Theorem like_search_is_substring :
  forall s t : text,
    (~ In "\"%char s -> forall pre post,
        like (lit "%" ++ s ++ lit "%") (pre ++ s ++ post) = true) /\
    (forallb plainChar s = true ->
     like (lit "%" ++ s ++ lit "%") t = includes t s).
Proof.
  intros s t.
  split; [intros Hb pre post; now apply like_finds_containing|].
  apply like_plain_includes.
Qed.

Lemma like_search_is_substring_witness :
  like (lit "%" ++ lit "AI" ++ lit "%") (lit "OpenAI ships") = includes (lit "OpenAI ships") (lit "AI").
Proof.
  apply (proj2 (like_search_is_substring (lit "AI") (lit "OpenAI ships"))).
  reflexivity.
Defined.

(** X4. An article stored under the title of an item makes the
    coordinator skip the item, as long as the title holds no backslash. *)
Theorem stored_title_is_skipped :
  forall (parseDate : text -> option Z) (now : Z) (sourceId : ident)
         (st : Store) (n : nat) (item : RSSItem) (a : Article),
    In a (articles st) ->
    art_title a = item_title item ->
    ~ In "\"%char (item_title item) ->
    getArticles now (titleQuery (item_title item)) st <> [] /\
    storeItem parseDate now sourceId (st, n) item = (st, n).
Proof.
  intros parseDate now sourceId st n item a Hin Ht Hb.
  assert (Hf : titleFound (item_title item) st = true).
  { unfold titleFound. apply existsb_exists. exists a. split; [assumption|].
    destruct (truthy (Some (item_title item))); [|reflexivity].
    unfold searchMatches. rewrite Ht.
    pose proof (like_finds_containing (item_title item) [] [] Hb) as H.
    simpl app in H. rewrite app_nil_r in H. simpl app. now rewrite H. }
  split.
  - pose proof (getArticles_titleQuery now (item_title item) st) as H.
    destruct (getArticles now _ st); [congruence|discriminate].
  - rewrite storeItem_unfold. now rewrite Hf.
Qed.

Definition itemOpenAI : RSSItem :=
  {| item_title := lit "OpenAI ships a new model";
     item_link := lit "https://techcrunch.com/openai";
     item_description := Some []; item_pubDate := Some [];
     item_guid := Some []; item_content := Some [] |}.

Lemma stored_title_is_skipped_witness :
  storeItem parseNewYear 1704070300000 1 (storeWithOpenAI, 0) itemOpenAI
  = (storeWithOpenAI, 0).
Proof.
  refine (proj2 (stored_title_is_skipped parseNewYear 1704070300000 1 storeWithOpenAI 0
                   itemOpenAI
                   {| art_id := 10;
                      art_title := lit "OpenAI ships a new model";
                      art_url := lit "https://theverge.com/a";
                      art_content := Some (lit "The lab released it today.");
                      art_snippet := Some (lit "The lab released it today.");
                      art_sourceId := Some 2;
                      art_publishedAt := Some 1704067200000%Z;
                      art_fetchedAt := Some 1704070000000%Z;
                      art_category := Some ai_ml;
                      art_sentiment := None; art_sentimentScore := None;
                      art_embedding := None |} _ _ _)).
  - vm_compute. now left.
  - reflexivity.
  - intros H. vm_compute in H.
    repeat (destruct H as [H|H]; [discriminate H|]). exact H.
Defined.

(** ** Reading articles *)

Section StableSort.

Variable A : Type.

(** [before x y]: [x] sorts strictly before [y]. *)
Variable before : A -> A -> bool.

Hypothesis before_asym : forall x y, before x y = true -> before y x = false.
Hypothesis before_trans :
  forall x y z, before y x = false -> before z y = false -> before z x = false.

(** [y] may follow [x]. *)
Definition inOrder (x y : A) : Prop := before y x = false.

Lemma insertBy_inOrder (x : A) (l : list A) :
  StronglySorted inOrder l ->
  StronglySorted inOrder (insertBy (fun y x => before y x) x l).
Proof.
  induction l as [|y l IH]; simpl; intros H.
  - constructor; constructor.
  - inversion H as [|? ? Hs Hall]; subst. destruct (before y x) eqn:E.
    + constructor; [now apply IH|].
      apply Forall_forall. intros z Hz.
      apply (Permutation_in _ (insertBy_perm _ x l)) in Hz as [<-|Hz].
      * unfold inOrder. now apply before_asym.
      * rewrite Forall_forall in Hall. now apply Hall.
    + constructor; [assumption|]. constructor; [exact E|].
      rewrite Forall_forall in *. intros z Hz. specialize (Hall z Hz).
      unfold inOrder in *. eapply before_trans; eauto.
Qed.

Lemma sortBy_inOrder (l : list A) :
  StronglySorted inOrder (sortBy (fun y x => before y x) l).
Proof.
  induction l as [|x l IH]; simpl; [constructor|]. now apply insertBy_inOrder.
Qed.

Lemma StronglySorted_firstn (R : A -> A -> Prop) (n : nat) (l : list A) :
  StronglySorted R l -> StronglySorted R (firstn n l).
Proof.
  revert n; induction l as [|x l IH]; intros [|n] H; simpl; try constructor.
  - inversion H; subst. now apply IH.
  - inversion H as [|? ? _ Hall]; subst. rewrite Forall_forall in *.
    intros z Hz. apply Hall. eapply In_firstn, Hz.
Qed.

Lemma StronglySorted_skipn (R : A -> A -> Prop) (n : nat) (l : list A) :
  StronglySorted R l -> StronglySorted R (skipn n l).
Proof.
  revert n; induction l as [|x l IH]; intros [|n] H; simpl; try assumption.
  inversion H; subst. now apply IH.
Qed.

End StableSort.

(** [a] is published no earlier than [b]; a missing date counts as the
    latest. *)
Definition notEarlier (a b : Article) : Prop := publishedEarlier a b = false.

Lemma getArticles_sorted_rows (f : Article -> bool) (l : list Article) :
  StronglySorted notEarlier (sortBy byPublishedDesc (filter f l)).
Proof.
  apply (sortBy_inOrder Article (fun y x => publishedEarlier x y)).
  - intros x y. unfold publishedEarlier.
    destruct (art_publishedAt x), (art_publishedAt y); try reflexivity; try discriminate.
    intros H. apply Z.ltb_lt in H. apply Z.ltb_ge. lia.
  - intros x y z. unfold publishedEarlier.
    destruct (art_publishedAt x), (art_publishedAt y), (art_publishedAt z);
      try reflexivity; try discriminate.
    intros H1 H2. apply Z.ltb_ge in H1, H2. apply Z.ltb_ge. lia.
Qed.

Lemma In_skipn {A} (x : A) (n : nat) (l : list A) : In x (skipn n l) -> In x l.
Proof.
  intros H. rewrite <- (firstn_skipn n l). apply in_or_app. now right.
Qed.

(** X5. A query returns at most [limit] articles (20 when no limit or
    the limit 0 is given); each of them is stored and passes the filter,
    so with a time range it carries a date inside the range; and they
    come latest first. *)
Theorem getArticles_bounded_sorted :
  forall (now : Z) (q : ArticleQuery) (st : Store),
    length (getArticles now q st) <= orNat (q_limit q) 20 /\
    (forall a, In a (getArticles now q st) ->
               In a (articles st) /\ whereClause now q a = true) /\
    (forall r a, q_timeRange q = Some r -> In a (getArticles now q st) ->
                 exists t, art_publishedAt a = Some t /\ (timeThreshold now r <= t)%Z) /\
    StronglySorted notEarlier (getArticles now q st).
Proof.
  intros now q st.
  assert (Hin : forall a, In a (getArticles now q st) ->
                          In a (articles st) /\ whereClause now q a = true).
  { intros a H. unfold getArticles in H. apply In_firstn, In_skipn in H.
    apply (Permutation_in _ (sortBy_perm _ _)) in H. now apply filter_In in H. }
  split; [apply firstn_length_le'|]. split; [exact Hin|]. split.
  - intros r a Hr Ha. apply Hin in Ha as [_ Hw]. unfold whereClause in Hw.
    rewrite Hr in Hw. apply andb_true_iff in Hw as [Hw _].
    apply andb_true_iff in Hw as [_ Hw].
    destruct (art_publishedAt a) as [t|]; [|discriminate].
    exists t. split; [reflexivity|]. now apply Z.leb_le.
  - unfold getArticles. apply StronglySorted_firstn, StronglySorted_skipn.
    apply getArticles_sorted_rows.
Qed.





Definition includesNullable (column : option text) (s : text) : bool :=
  match column with
  | Some c => includes c s
  | None => false
  end.

(** The query occurs in the title, the content or the snippet. *)
Definition mentionsQuery (query : text) (a : Article) : bool :=
  includes (art_title a) query ||
  includesNullable (art_content a) query ||
  includesNullable (art_snippet a) query.

Lemma searchCondition_plain (query : text) (a : Article) :
  forallb plainChar query = true -> searchCondition query a = mentionsQuery query a.
Proof.
  intros H. unfold searchCondition, mentionsQuery, likeNullable, includesNullable.
  pose proof (fun t => like_plain_includes query t H) as Hl.
  rewrite Hl. destruct (art_content a), (art_snippet a); now rewrite ?Hl.
Qed.

(** X7. A search returns at most 50 stored articles, latest first. For a
    query without [%], [_] and backslash they are articles in which the
    query occurs (in the title, the content or the snippet), and when at
    most 50 stored articles hold the query, the search returns each of
    them. *)
Theorem searchArticles_finds_occurrences :
  forall (query : text) (st : Store),
    length (searchArticles query st) <= 50 /\
    StronglySorted notEarlier (searchArticles query st) /\
    (forallb plainChar query = true ->
     (forall a, In a (searchArticles query st) ->
                In a (articles st) /\ mentionsQuery query a = true) /\
     (length (filter (mentionsQuery query) (articles st)) <= 50 ->
      forall a, In a (articles st) -> mentionsQuery query a = true ->
                In a (searchArticles query st))).
Proof.
  intros query st. unfold searchArticles.
  split; [apply firstn_length_le'|]. split.
  { apply StronglySorted_firstn, getArticles_sorted_rows. }
  intros Hp.
  assert (Hf : filter (searchCondition query) (articles st)
               = filter (mentionsQuery query) (articles st)).
  { apply filter_ext. intros a. now apply searchCondition_plain. }
  rewrite Hf. split.
  - intros a H. apply In_firstn in H.
    apply (Permutation_in _ (sortBy_perm _ _)) in H. now apply filter_In in H.
  - intros Hlen a Hin Hm. rewrite firstn_all2.
    + apply (Permutation_in _ (Permutation_sym (sortBy_perm _ _))).
      apply filter_In. now split.
    + now rewrite (Permutation_length (sortBy_perm _ _)).
Qed.

Lemma searchArticles_finds_occurrences_witness :
  In {| art_id := 10;
        art_title := lit "OpenAI ships a new model";
        art_url := lit "https://theverge.com/a";
        art_content := Some (lit "The lab released it today.");
        art_snippet := Some (lit "The lab released it today.");
        art_sourceId := Some 2;
        art_publishedAt := Some 1704067200000%Z;
        art_fetchedAt := Some 1704070000000%Z;
        art_category := Some ai_ml;
        art_sentiment := None; art_sentimentScore := None;
        art_embedding := None |}
     (searchArticles (lit "lab") storeWithOpenAI).
Proof.
  apply (proj2 (proj2 (proj2 (searchArticles_finds_occurrences (lit "lab") storeWithOpenAI))
                  eq_refl)).
  - vm_compute. lia.
  - vm_compute. now left.
  - vm_compute. reflexivity.
Defined.

(** ** What a run of the coordinator adds *)

(** A source without the time of its last fetch. *)
Definition withoutLastFetch (s : Source) : Source :=
  {| src_id := src_id s; src_name := src_name s; src_url := src_url s;
     src_rssUrl := src_rssUrl s; src_isActive := src_isActive s;
     src_fetchInterval := src_fetchInterval s; src_lastFetchAt := None |}.

(** [st'] is [st] with the articles [added] behind the old ones, under
    the next identifiers; nothing else differs, but for the last-fetch
    times of the sources. *)
Definition appended (st st' : Store) (added : list Article) : Prop :=
  articles st' = articles st ++ added /\
  map art_id added = seq (nextId st) (length added) /\
  nextId st' = nextId st + length added /\
  map withoutLastFetch (sources st') = map withoutLastFetch (sources st) /\
  trendingRecords st' = trendingRecords st /\
  relatedArticles st' = relatedArticles st.

(** [a] is the row stored for [item], fetched from the source [sourceId]
    at [now]. *)
Definition rowOf (now : Z) (sourceId : ident) (item : RSSItem) (a : Article) : Prop :=
  art_title a = item_title item /\
  art_url a = item_link item /\
  art_content a
    = Some (orEmpty (orElse (orElse (item_content item) (item_description item)) (Some []))) /\
  art_snippet a
    = Some (createSnippet (orEmpty (orElse (item_description item) (Some [])))) /\
  art_category a
    = Some (categorizeArticle (item_title item)
              (orEmpty (orElse (item_description item) (Some [])))) /\
  art_sourceId a = Some sourceId /\
  art_fetchedAt a = Some now /\
  art_sentiment a = None /\
  art_embedding a = None.

Lemma appended_refl (st : Store) : appended st st [].
Proof.
  unfold appended. rewrite app_nil_r. simpl. rewrite Nat.add_0_r. tauto.
Qed.

Lemma appended_trans (a b c : Store) (l1 l2 : list Article) :
  appended a b l1 -> appended b c l2 -> appended a c (l1 ++ l2).
Proof.
  intros (A1 & A2 & A3 & A4 & A5 & A6) (B1 & B2 & B3 & B4 & B5 & B6).
  unfold appended. rewrite B1, A1, app_assoc, map_app, length_app, seq_app, A2, B2, A3, B3.
  repeat split; try congruence. lia.
Qed.

Lemma appended_updateSourceLastFetch (now : Z) (id : ident) (st : Store) :
  appended st (updateSourceLastFetch now id st) [].
Proof.
  unfold appended. simpl. rewrite app_nil_r, Nat.add_0_r, map_map.
  repeat split. apply map_ext. intros s. unfold touchSource.
  now destruct (src_id s =? id).
Qed.

Section Accounting.

Variable parseDate : text -> option Z.
Variable fetch : text -> option text.

Lemma storeItem_appended (now : Z) (sourceId : ident) (st : Store) (n : nat)
  (item : RSSItem) :
  exists added,
    appended st (fst (storeItem parseDate now sourceId (st, n) item)) added /\
    snd (storeItem parseDate now sourceId (st, n) item) = n + length added /\
    length added <= 1 /\
    forall a, In a added -> rowOf now sourceId item a.
Proof.
  rewrite storeItem_unfold.
  assert (Hnone : exists added : list Article,
             appended st st added /\ n = n + length added /\ length added <= 1 /\
             forall a, In a added -> rowOf now sourceId item a).
  { exists []. split; [apply appended_refl|]. simpl. split; [lia|]. split; [lia|tauto]. }
  destruct (titleFound (item_title item) st); [exact Hnone|].
  unfold createArticle. destruct (insertAccepted _ st); [|exact Hnone].
  eexists [_]. cbn [fst snd length]. split; [|split; [lia|split; [lia|]]].
  - unfold appended. cbn. rewrite Nat.add_1_r. repeat split.
  - intros a [<-|[]]. unfold rowOf. cbn. repeat split.
Qed.

Lemma fold_storeItem_appended (now : Z) (sourceId : ident) (items : list RSSItem) :
  forall st n,
  exists added,
    appended st (fst (fold_left (storeItem parseDate now sourceId) items (st, n))) added /\
    snd (fold_left (storeItem parseDate now sourceId) items (st, n)) = n + length added /\
    length added <= length items /\
    forall a, In a added -> exists item, In item items /\ rowOf now sourceId item a.
Proof.
  induction items as [|x items IH]; intros st n; cbn [fold_left].
  - exists []. split; [apply appended_refl|]. simpl. split; [lia|]. split; [lia|tauto].
  - destruct (storeItem_appended now sourceId st n x) as (l1 & H1 & H2 & Hb & H3).
    destruct (storeItem parseDate now sourceId (st, n) x) as [st1 n1].
    cbn [fst snd] in *. destruct (IH st1 n1) as (l2 & G1 & G2 & Gb & G3).
    exists (l1 ++ l2). split; [eapply appended_trans; eauto|].
    split; [rewrite length_app; lia|]. split; [rewrite length_app; cbn [length]; lia|].
    intros a Ha. apply in_app_or in Ha as [Ha|Ha].
    + exists x. split; [now left|auto].
    + destruct (G3 a Ha) as (item & Hi & Hr). exists item. split; [now right|auto].
Qed.

Lemma fetchAndStoreArticles_appended (now : Z) (sourceId : ident) (rssUrl : text)
  (st : Store) :
  exists added,
    appended st (fst (fetchAndStoreArticles parseDate fetch now sourceId rssUrl st)) added /\
    snd (fetchAndStoreArticles parseDate fetch now sourceId rssUrl st) = length added /\
    forall a, In a added ->
      exists xmlText item,
        fetch rssUrl = Some xmlText /\
        In item (feed_items (parseRSS xmlText)) /\
        rowOf now sourceId item a.
Proof.
  unfold fetchAndStoreArticles, fetchRSS. destruct (fetch rssUrl) as [xmlText|].
  - destruct (fold_storeItem_appended now sourceId (feed_items (parseRSS xmlText)) st 0)
      as (added & H1 & H2 & _ & H3).
    destruct (fold_left _ _ _) as [st' n]. cbn [fst snd] in *.
    exists added. split; [|split; [assumption|]].
    + rewrite <- (app_nil_r added).
      eapply appended_trans; [exact H1|apply appended_updateSourceLastFetch].
    + intros a Ha. destruct (H3 a Ha) as (item & Hi & Hr). now exists xmlText, item.
  - exists []. split; [apply appended_refl|]. split; [reflexivity|]. intros a [].
Qed.

End Accounting.


Lemma fold_fetchSource_appended (parseDate : text -> option Z)
  (fetch : text -> option text) (now : Z) (l : list Source) :
  forall st,
  exists added,
    appended st (fold_left (fetchSource parseDate fetch now) l st) added /\
    forall a, In a added ->
      exists source rssUrl xmlText item,
        In source l /\ src_rssUrl source = Some rssUrl /\
        fetch rssUrl = Some xmlText /\
        In item (feed_items (parseRSS xmlText)) /\
        rowOf now (src_id source) item a.
Proof.
  induction l as [|s l IH]; intros st0; cbn [fold_left].
  - exists []. split; [apply appended_refl|]. intros a [].
  - assert (H1 : exists l1,
               appended st0 (fetchSource parseDate fetch now st0 s) l1 /\
               forall a, In a l1 ->
                 exists rssUrl xmlText item,
                   src_rssUrl s = Some rssUrl /\ fetch rssUrl = Some xmlText /\
                   In item (feed_items (parseRSS xmlText)) /\
                   rowOf now (src_id s) item a).
    { unfold fetchSource. destruct (src_rssUrl s) as [u|]; cbn [truthy orEmpty].
      - destruct (_ && _).
        + destruct (fetchAndStoreArticles_appended parseDate fetch now (src_id s) u st0)
            as (l1 & A1 & _ & A3).
          exists l1. split; [assumption|]. intros a Ha.
          destruct (A3 a Ha) as (x & item & Hx & Hi & Hr). now exists u, x, item.
        + exists []. split; [apply appended_refl|]. intros a [].
      - exists []. split; [apply appended_refl|]. intros a []. }
    destruct H1 as (l1 & A1 & A2).
    destruct (IH (fetchSource parseDate fetch now st0 s)) as (l2 & B1 & B2).
    exists (l1 ++ l2). split; [eapply appended_trans; eauto|].
    intros a Ha. apply in_app_or in Ha as [Ha|Ha].
    + destruct (A2 a Ha) as (u & x & item & H). exists s, u, x, item.
      split; [now left|assumption].
    + destruct (B2 a Ha) as (s' & u & x & item & Hs & H). exists s', u, x, item.
      split; [now right|assumption].
Qed.

(** X9. A run over all sources stores articles behind the old ones, and
    each of them for an item of the feed of a source that was active,
    had a feed address and answered. *)
Theorem fetchAllSources_appends :
  forall (parseDate : text -> option Z) (fetch : text -> option text)
         (now : Z) (st : Store),
    exists added,
      appended st (fetchAllSources parseDate fetch now st) added /\
      forall a, In a added ->
        exists source rssUrl xmlText item,
          In source (getSources st) /\
          src_rssUrl source = Some rssUrl /\
          fetch rssUrl = Some xmlText /\
          In item (feed_items (parseRSS xmlText)) /\
          rowOf now (src_id source) item a.
Proof.
  intros parseDate fetch now st. unfold fetchAllSources.
  apply fold_fetchSource_appended.
Qed.

(** ** The keys of the articles *)




Section Keys.

Variable parseDate : text -> option Z.
Variable fetch : text -> option text.


End Keys.




(** ** The default sources *)

Definition namedAs (sourceData : InsertSource) (s : Source) : bool :=
  textEqb (src_name s) (isrc_name sourceData).

(** [s] is the row created for [sourceData]. *)
Definition sourceOf (sourceData : InsertSource) (s : Source) : Prop :=
  src_name s = isrc_name sourceData /\
  src_url s = isrc_url sourceData /\
  src_rssUrl s = Some (isrc_rssUrl sourceData) /\
  src_isActive s = Some (isrc_isActive sourceData) /\
  src_fetchInterval s = Some (isrc_fetchInterval sourceData) /\
  src_lastFetchAt s = None.

Section DefaultSources.

Variable existingSources : list Source.

Lemma createIfMissing_found (st : Store) (sourceData : InsertSource) :
  existsb (namedAs sourceData) existingSources = true ->
  createIfMissing existingSources st sourceData = st.
Proof. unfold createIfMissing. fold (namedAs sourceData). now intros ->. Qed.

Lemma fold_createIfMissing_found (l : list InsertSource) (st : Store) :
  (forall d, In d l -> existsb (namedAs d) existingSources = true) ->
  fold_left (createIfMissing existingSources) l st = st.
Proof.
  revert st; induction l as [|d l IH]; intros st H; [reflexivity|].
  rewrite fold_left_cons, createIfMissing_found by (apply H; now left).
  apply IH. intros d' Hd. apply H. now right.
Qed.

Lemma fold_createIfMissing_creates (l : list InsertSource) :
  forall st,
  exists created,
    sources (fold_left (createIfMissing existingSources) l st) = sources st ++ created /\
    (forall s, In s created ->
       exists d, In d l /\ sourceOf d s /\
                 existsb (namedAs d) existingSources = false) /\
    (forall d, In d l -> existsb (namedAs d) existingSources = false ->
       exists s, In s created /\ sourceOf d s) /\
    articles (fold_left (createIfMissing existingSources) l st) = articles st /\
    trendingRecords (fold_left (createIfMissing existingSources) l st)
      = trendingRecords st /\
    relatedArticles (fold_left (createIfMissing existingSources) l st)
      = relatedArticles st.
Proof.
  induction l as [|d l IH]; intros st.
  - exists []. cbn [fold_left]. rewrite app_nil_r.
    repeat split; try reflexivity; intros ? [].
  - rewrite fold_left_cons.
    destruct (IH (createIfMissing existingSources st d))
      as (created & Hs & Hfrom & Hall & Ha & Ht & Hr).
    unfold createIfMissing in *. fold (namedAs d) in *.
    destruct (existsb (namedAs d) existingSources) eqn:E.
    + exists created. split; [assumption|]. split; [|split; [|tauto]].
      * intros s Hin. destruct (Hfrom s Hin) as (d' & Hd' & H).
        exists d'. split; [now right|assumption].
      * intros d' [<-|Hd'] Hn; [congruence|]. now apply Hall.
    + eexists (_ :: created). cbn [sources createSource] in Hs.
      rewrite <- app_assoc in Hs. split; [exact Hs|]. split; [|split; [|tauto]].
      * intros s [<-|Hin].
        -- exists d. split; [now left|]. split; [|assumption].
           unfold sourceOf. cbn. repeat split.
        -- destruct (Hfrom s Hin) as (d' & Hd' & H).
           exists d'. split; [now right|assumption].
      * intros d' [<-|Hd'] Hn.
        -- eexists. split; [now left|]. unfold sourceOf. cbn. repeat split.
        -- destruct (Hall d' Hd' Hn) as (s & Hin & H). exists s. split; [now right|auto].
Qed.

End DefaultSources.

Lemma defaultSources_active (d : InsertSource) :
  In d defaultSources -> isrc_isActive d = true.
Proof. intros [<-|[<-|[<-|[<-|[]]]]]; reflexivity. Qed.

Lemma namedAs_none (l : list Source) (d : InsertSource) :
  existsb (namedAs d) l = false <-> forall s, In s l -> src_name s <> isrc_name d.
Proof.
  split.
  - intros H s Hin Hn.
    assert (Ht : existsb (namedAs d) l = true).
    { apply existsb_exists. exists s. split; [assumption|]. now apply textEqb_eq. }
    congruence.
  - intros H. apply not_true_is_false. intros Ht.
    apply existsb_exists in Ht as (s & Hin & Hn). apply textEqb_eq in Hn.
    now apply (H s).
Qed.

Lemma initializeDefaultSources_active (st : Store) (d : InsertSource) :
  In d defaultSources ->
  exists s, In s (getSources (initializeDefaultSources st)) /\ src_name s = isrc_name d.
Proof.
  intros Hd.
  destruct (fold_createIfMissing_creates (getSources st) defaultSources st)
    as (created & Hs & _ & Hall & _).
  unfold initializeDefaultSources. unfold getSources at 1. rewrite Hs.
  destruct (existsb (namedAs d) (getSources st)) eqn:E.
  - apply existsb_exists in E as (s & Hin & Hn). apply textEqb_eq in Hn.
    exists s. split; [|assumption]. unfold getSources in Hin.
    apply filter_In in Hin as [Hin Hact]. apply filter_In.
    split; [apply in_or_app; now left|assumption].
  - destruct (Hall d Hd E) as (s & Hin & Hof). exists s.
    split; [|apply Hof]. apply filter_In. split; [apply in_or_app; now right|].
    destruct Hof as (_ & _ & _ & Hact & _).
    now rewrite Hact, (defaultSources_active d Hd).
Qed.

(** X11. Initialising the default sources keeps the sources stored and
    puts new ones behind them, one for each default source whose name no
    active source carries (so a default source that was switched off is
    created anew); articles, trending records and related articles are
    not touched. Afterwards every default name is the name of an active
    source, and initialising again changes nothing. *)
Theorem initializeDefaultSources_ensures :
  forall st : Store,
    (exists created,
        sources (initializeDefaultSources st) = sources st ++ created /\
        (forall s, In s created ->
           exists d, In d defaultSources /\ sourceOf d s /\
                     forall s', In s' (getSources st) -> src_name s' <> isrc_name d) /\
        (forall d, In d defaultSources ->
           (forall s', In s' (getSources st) -> src_name s' <> isrc_name d) ->
           exists s, In s created /\ sourceOf d s)) /\
    articles (initializeDefaultSources st) = articles st /\
    trendingRecords (initializeDefaultSources st) = trendingRecords st /\
    relatedArticles (initializeDefaultSources st) = relatedArticles st /\
    (forall d, In d defaultSources ->
       exists s, In s (getSources (initializeDefaultSources st)) /\
                 src_name s = isrc_name d) /\
    initializeDefaultSources (initializeDefaultSources st) = initializeDefaultSources st.
Proof.
  intros st.
  destruct (fold_createIfMissing_creates (getSources st) defaultSources st)
    as (created & Hs & Hfrom & Hall & Ha & Ht & Hr).
  split; [|split; [exact Ha|split; [exact Ht|split; [exact Hr|split]]]].
  - exists created. split; [assumption|]. split.
    + intros s Hin. destruct (Hfrom s Hin) as (d & Hd & Hof & Hn).
      exists d. split; [assumption|]. split; [assumption|]. now apply namedAs_none.
    + intros d Hd Hn. apply Hall; [assumption|]. now apply namedAs_none.
  - apply initializeDefaultSources_active.
  - unfold initializeDefaultSources at 1. apply fold_createIfMissing_found.
    intros d Hd. destruct (initializeDefaultSources_active st d Hd) as (s & Hin & Hn).
    apply existsb_exists. exists s. split; [assumption|]. now apply textEqb_eq.
Qed.

(** ** The vocabulary of the trending topics *)

Lemma isUpper_toLowerChar (c : ascii) : isUpper (toLowerChar c) = false.
Proof. destruct c as [[] [] [] [] [] [] [] []]; reflexivity. Qed.

Lemma matchAllCompany_no_capital (s : text) :
  forall prev skip,
    (forall c, In c s -> isUpper c = false) -> matchAllCompany prev skip s = [].
Proof.
  induction s as [|c s IH]; intros prev skip H; [reflexivity|].
  assert (Hs : forall d, In d s -> isUpper d = false) by (intros d Hd; apply H; now right).
  cbn [matchAllCompany]. destruct skip as [|k]; [|now apply IH].
  unfold matchCompany. rewrite (H c) by now left. cbn [andb]. now apply IH.
Qed.

Lemma dedupe_NoDup (l : list text) :
  forall seen, NoDup l -> (forall x, In x l -> ~ In x seen) -> dedupe seen l = l.
Proof.
  induction l as [|x l IH]; intros seen Hd Hs; [reflexivity|].
  inversion Hd as [|? ? Hx Hd']; subst. cbn [dedupe]. fold (has seen x).
  destruct (has seen x) eqn:E.
  - apply has_In in E. exfalso. apply (Hs x); [now left|assumption].
  - f_equal. apply IH; [assumption|]. intros y Hy [<-|Hin]; [contradiction|].
    apply (Hs y); [now right|assumption].
Qed.

Lemma NoDup_techKeywords : NoDup (map lit techKeywords).
Proof.
  assert (H : dedupe [] (map lit techKeywords) = map lit techKeywords)
    by (vm_compute; reflexivity).
  rewrite <- H. apply NoDup_dedupe.
Qed.

Lemma extractKeywords_lowercase (t : text) :
  extractKeywords (toLowerCase t)
  = filter (fun k => includes (toLowerCase t) k) (map lit techKeywords).
Proof.
  unfold extractKeywords. rewrite matchAllCompany_no_capital.
  - change (map toLowerCase []) with (@nil text). rewrite app_nil_r.
    apply dedupe_NoDup; [apply NoDup_filter, NoDup_techKeywords|intros x _ []].
  - intros c Hc. unfold toLowerCase in Hc. apply in_map_iff in Hc as (d & <- & _).
    apply isUpper_toLowerChar.
Qed.

(** The text [updateTrendingTopics] takes the keywords of. *)
Definition keywordText (a : Article) : text :=
  toLowerCase (art_title a ++ lit " " ++ orEmpty (orElse (art_snippet a) (Some []))).

Lemma In_articleKeywords (a : Article) (k : text) :
  In k (articleKeywords a) <->
  In k (map lit techKeywords) /\ includes (keywordText a) k = true.
Proof.
  unfold articleKeywords. fold (keywordText a). unfold keywordText.
  rewrite extractKeywords_lowercase. apply filter_In.
Qed.

Lemma mentioned_somewhere (k : text) (l : list Article) :
  1 <= mentions k l -> exists a, In a l /\ In k (articleKeywords a).
Proof.
  unfold mentions. intros H.
  destruct (filter (fun a => has (articleKeywords a) k) l) as [|a l'] eqn:E;
    [simpl in H; lia|].
  assert (Ha : In a (filter (fun a => has (articleKeywords a) k) l))
    by (rewrite E; now left).
  apply filter_In in Ha as [Hin Hk]. apply has_In in Hk. now exists a.
Qed.

Lemma mentionedIn_somewhere (c : option Category) (k : text) (l : list Article) :
  1 <= mentionsIn c k l ->
  exists a, In a l /\ art_category a = c /\ In k (articleKeywords a).
Proof.
  unfold mentionsIn. intros H.
  destruct (filter (fun a => categoryKeyEqb (art_category a) c
                             && has (articleKeywords a) k) l) as [|a l'] eqn:E;
    [simpl in H; lia|].
  assert (Ha : In a (filter (fun a => categoryKeyEqb (art_category a) c
                                      && has (articleKeywords a) k) l))
    by (rewrite E; now left).
  apply filter_In in Ha as [Hin Hk]. apply andb_true_iff in Hk as [Hc Hk].
  apply has_In in Hk. apply categoryKeyEqb_eq in Hc. now exists a.
Qed.

(** A record inserted counts the articles that mention its topic. *)
Lemma trendingInserts_counts (date : Z) (recentArticles : list Article)
  (r : TrendingRecord) :
  In r (trendingInserts date recentArticles) ->
  tr_date r = date /\
  tr_growthRate r = calculateGrowthRate (tr_topic r) (tr_count r) /\
  match tr_category r with
  | None => 3 <= tr_count r /\ tr_count r = mentions (tr_topic r) recentArticles
  | Some c =>
      2 <= tr_count r /\ tr_count r = mentionsIn (Some c) (tr_topic r) recentArticles
  end.
Proof.
  unfold trendingInserts.
  pose proof (tallied_tallyAll recentArticles) as (Hd & Hc & Hcd & Hcc & Hm).
  destruct (tallyAll recentArticles) as [keywordCounts categoryTopics].
  rewrite ?snd_pair in *. change (fst (keywordCounts, categoryTopics)) with keywordCounts in *.
  intros H. apply in_app_or in H as [H|H].
  - apply In_overallRecords in H as ([k n] & He & Hn & ->).
    split; [reflexivity|]. split; [reflexivity|]. cbn [tr_category trendingRecord].
    cbn [tr_count tr_topic fst snd] in *. split; [assumption|].
    rewrite <- Hc. symmetry. apply getCount_In; [assumption|].
    now apply (proj1 (topTopics_ranked 20 keywordCounts)).
  - apply In_categoryRecords in H as (c & topics & [k n] & Hin & He & Hn & ->).
    split; [reflexivity|]. split; [reflexivity|]. cbn [tr_category trendingRecord].
    cbn [tr_count tr_topic fst snd] in *. split; [assumption|].
    rewrite <- Hcc, (getTopics_In _ _ _ Hm Hin). symmetry.
    apply getCount_In.
    + specialize (Hcd (Some c)). now rewrite (getTopics_In _ _ _ Hm Hin) in Hcd.
    + now apply (proj1 (topTopics_ranked 10 topics)).
Qed.

(** X12. The keywords of an article are the keywords of the fixed list
    that occur in its lowercased title and snippet: on lowercased text
    the pattern for company names finds nothing. So every topic of a
    trending record is a keyword of the list, and it occurs in an article
    read (of the record's category, when it has one). *)
Theorem trending_topics_in_vocabulary :
  (forall t,
      extractKeywords (toLowerCase t)
      = filter (fun k => includes (toLowerCase t) k) (map lit techKeywords)) /\
  (forall a k,
      In k (articleKeywords a) <->
      In k (map lit techKeywords) /\ includes (keywordText a) k = true) /\
  (forall date recentArticles r,
      In r (trendingInserts date recentArticles) ->
      In (tr_topic r) (map lit techKeywords) /\
      exists a,
        In a recentArticles /\
        includes (keywordText a) (tr_topic r) = true /\
        (forall c, tr_category r = Some c -> art_category a = Some c)).
Proof.
  split; [exact extractKeywords_lowercase|]. split; [exact In_articleKeywords|].
  intros date recentArticles r H.
  apply trendingInserts_counts in H as (_ & _ & H).
  destruct (tr_category r) as [c|].
  - destruct H as [Hn Hc].
    destruct (mentionedIn_somewhere (Some c) (tr_topic r) recentArticles)
      as (a & Ha & Hcat & Hk); [lia|].
    apply In_articleKeywords in Hk as [Hv Hi].
    split; [assumption|]. exists a. split; [assumption|]. split; [assumption|].
    now intros c' [= <-].
  - destruct H as [Hn Hc].
    destruct (mentioned_somewhere (tr_topic r) recentArticles) as (a & Ha & Hk); [lia|].
    apply In_articleKeywords in Hk as [Hv Hi].
    split; [assumption|]. exists a. split; [assumption|]. split; [assumption|].
    discriminate.
Qed.

(** X13. The growth rate does not read the topic, grows with the count
    and stops at 100, which a count of 11 reaches; the count 0 gives -10.
    The growth rate of a trending record is that of its count: from 20
    for an overall record, from 10 for a record of a category, and 100
    at most. *)
Theorem growth_rate_bounds :
  (forall topic topic' n, calculateGrowthRate topic n = calculateGrowthRate topic' n) /\
  (forall topic n m,
      n <= m -> (calculateGrowthRate topic n <= calculateGrowthRate topic m <= 100)%Z) /\
  (forall topic n, 11 <= n <-> calculateGrowthRate topic n = 100%Z) /\
  (forall topic, calculateGrowthRate topic 0 = (-10)%Z) /\
  (forall date recentArticles r,
      In r (trendingInserts date recentArticles) ->
      tr_growthRate r = calculateGrowthRate (tr_topic r) (tr_count r) /\
      (match tr_category r with Some _ => 10 | None => 20 end
       <= tr_growthRate r <= 100)%Z).
Proof.
  split; [reflexivity|]. split; [|split; [|split; [reflexivity|]]].
  - intros topic n m H. unfold calculateGrowthRate. lia.
  - intros topic n. unfold calculateGrowthRate. lia.
  - intros date recentArticles r H.
    apply trendingInserts_counts in H as (_ & Hg & H). split; [assumption|].
    rewrite Hg. unfold calculateGrowthRate. destruct (tr_category r); lia.
Qed.

(** ** Reading articles that were rewritten in place *)

Lemma insertBy_map {A} (f : A -> A) (r : A -> A -> bool) (x : A) (l : list A) :
  (forall a b, r (f a) (f b) = r a b) ->
  insertBy r (f x) (map f l) = map f (insertBy r x l).
Proof.
  intros H. induction l as [|y l IH]; simpl; [reflexivity|].
  rewrite H. destruct (r y x); simpl; [now rewrite IH|reflexivity].
Qed.

Lemma sortBy_map {A} (f : A -> A) (r : A -> A -> bool) (l : list A) :
  (forall a b, r (f a) (f b) = r a b) -> sortBy r (map f l) = map f (sortBy r l).
Proof.
  intros H. induction l as [|x l IH]; simpl; [reflexivity|].
  fold (sortBy r (map f l)). fold (sortBy r l). rewrite IH. now apply insertBy_map.
Qed.

Lemma filter_map_same {A} (f : A -> A) (p : A -> bool) (l : list A) :
  (forall a, p (f a) = p a) -> filter p (map f l) = map f (filter p l).
Proof.
  intros H. induction l as [|x l IH]; simpl; [reflexivity|].
  rewrite H. destruct (p x); simpl; now rewrite IH.
Qed.

(** A rewriting of the articles that keeps the dates and what the filter
    reads goes through the query. *)
Lemma getArticles_map (now : Z) (q : ArticleQuery) (f : Article -> Article)
  (st st' : Store) :
  articles st' = map f (articles st) ->
  (forall a, whereClause now q (f a) = whereClause now q a) ->
  (forall a, art_publishedAt (f a) = art_publishedAt a) ->
  getArticles now q st' = map f (getArticles now q st).
Proof.
  intros Ha Hw Hp. unfold getArticles. rewrite Ha, filter_map_same by assumption.
  rewrite sortBy_map, skipn_map, firstn_map; [reflexivity|].
  intros a b. unfold byPublishedDesc, publishedEarlier. now rewrite !Hp.
Qed.

Lemma recentQuery_reads_date (now : Z) (r : TimeRange) (limit : nat) (a b : Article) :
  art_publishedAt a = art_publishedAt b ->
  whereClause now (recentQuery r limit) a = whereClause now (recentQuery r limit) b.
Proof. unfold whereClause. cbn. now intros ->. Qed.




(** ** The sentiment pass *)



(** The article is one the pass analyses. *)
Definition unlabelled (a : Article) : bool :=
  negb (truthy (art_sentiment a)) && truthy (art_content a).






Section SentimentPass.

Variable openai : option (text -> completion (option text)).
Variable JSONparse : text -> completion json.
Variable StringToNumber : text -> jsnum.
Variable ObjectToNumber : json -> completion jsnum.
Variable prepareValue : json -> option text.
Variable toReal : jsnum -> jsnum.

(** The result of the analysis of an article. *)
Definition analysisOf (a : Article) : SentimentResult :=
  analyzeSentiment openai JSONparse StringToNumber ObjectToNumber
    (art_title a ++ ["010"%char] ++
     orEmpty (orElse (orElse (art_content a) (art_snippet a)) (Some []))).

Lemma labelArticle_unfold (st : Store) (article : Article) :
  labelArticle openai JSONparse StringToNumber ObjectToNumber prepareValue toReal
    st article =
  if unlabelled article then
    match columnText prepareValue (sentiment (analysisOf article)) with
    | Some s =>
        updateArticleSentiment (art_id article) s (toReal (score (analysisOf article))) st
    | None => st
    end
  else st.
Proof.
  unfold labelArticle, unlabelled, analysisOf.
  now destruct (truthy (art_sentiment article)), (truthy (art_content article)).
Qed.






End SentimentPass.




(** *** When the analysis is not to be had *)

Definition rewriteArticles (f : Article -> Article) (st : Store) : Store :=
  {| sources := sources st;
     articles := map f (articles st);
     trendingRecords := trendingRecords st;
     relatedArticles := relatedArticles st;
     nextId := nextId st |}.

Lemma rewriteArticles_same (f : Article -> Article) (st : Store) :
  (forall a, In a (articles st) -> f a = a) -> rewriteArticles f st = st.
Proof.
  intros H. destruct st as [s a t r n]. unfold rewriteArticles. cbn in *.
  f_equal. rewrite <- (map_id a) at 2. now apply map_ext_in.
Qed.

Lemma rewriteArticles_twice (f g : Article -> Article) (st : Store) :
  rewriteArticles f (rewriteArticles g st) = rewriteArticles (fun a => f (g a)) st.
Proof. unfold rewriteArticles. cbn. now rewrite map_map. Qed.

Lemma rewriteArticles_ext (f g : Article -> Article) (st : Store) :
  (forall a, f a = g a) -> rewriteArticles f st = rewriteArticles g st.
Proof. intros H. unfold rewriteArticles. f_equal. now apply map_ext. Qed.

(** The article with the label of the neutral default. *)
Definition neutralLabel (a : Article) : Article :=
  {| art_id := art_id a; art_title := art_title a; art_url := art_url a;
     art_content := art_content a; art_snippet := art_snippet a;
     art_sourceId := art_sourceId a; art_publishedAt := art_publishedAt a;
     art_fetchedAt := art_fetchedAt a; art_category := art_category a;
     art_sentiment := Some (lit "neutral"); art_sentimentScore := Some (Fin 0);
     art_embedding := art_embedding a |}.

(** [l] holds an article to analyse with the identifier of [a]. *)
Definition awaited (l : list Article) (a : Article) : bool :=
  existsb (fun b => unlabelled b && (art_id b =? art_id a)) l.

Definition neutralLabels (l : list Article) (a : Article) : Article :=
  if awaited l a then neutralLabel a else a.

Section NoAnalysis.

Variable openai : option (text -> completion (option text)).
Variable JSONparse : text -> completion json.
Variable StringToNumber : text -> jsnum.
Variable ObjectToNumber : json -> completion jsnum.
Variable prepareValue : json -> option text.
Variable toReal : jsnum -> jsnum.

Hypothesis no_analysis :
  forall t, analyzeSentiment openai JSONparse StringToNumber ObjectToNumber t
            = neutralDefault.
Hypothesis real_zero : toReal (Fin 0) = Fin 0.

Lemma labelArticle_neutral (st : Store) (b : Article) :
  labelArticle openai JSONparse StringToNumber ObjectToNumber prepareValue toReal st b
  = if unlabelled b
    then rewriteArticles
           (fun a => if art_id a =? art_id b then neutralLabel a else a) st
    else st.
Proof.
  rewrite labelArticle_unfold. unfold analysisOf. rewrite no_analysis.
  cbn [sentiment score neutralDefault columnText]. now rewrite real_zero.
Qed.

Lemma fold_labelArticle_neutral (l : list Article) :
  forall st,
    fold_left
      (labelArticle openai JSONparse StringToNumber ObjectToNumber prepareValue toReal)
      l st
    = rewriteArticles (neutralLabels l) st.
Proof.
  induction l as [|b l IH]; intros st.
  - cbn [fold_left]. symmetry. now apply rewriteArticles_same.
  - rewrite fold_left_cons, IH, labelArticle_neutral.
    unfold neutralLabels, awaited. cbn [existsb].
    destruct (unlabelled b); cbn [andb orb]; [|reflexivity].
    rewrite rewriteArticles_twice. apply rewriteArticles_ext. intros a.
    rewrite (Nat.eqb_sym (art_id b) (art_id a)).
    destruct (art_id a =? art_id b); cbn [orb]; [|reflexivity].
    change (art_id (neutralLabel a)) with (art_id a).
    now destruct (existsb _ l).
Qed.

Lemma fold_labelArticle_skip (l : list Article) (st : Store) :
  (forall b, In b l -> unlabelled b = false) ->
  fold_left
    (labelArticle openai JSONparse StringToNumber ObjectToNumber prepareValue toReal)
    l st = st.
Proof.
  revert st; induction l as [|b l IH]; intros st H; [reflexivity|].
  rewrite fold_left_cons, labelArticle_unfold, (H b) by now left.
  apply IH. intros b' Hb'. apply H. now right.
Qed.

Lemma neutralLabels_labelled (l : list Article) (b : Article) :
  In b l -> unlabelled (neutralLabels l b) = false.
Proof.
  intros Hin. unfold neutralLabels. destruct (awaited l b) eqn:E.
  - unfold unlabelled. reflexivity.
  - destruct (unlabelled b) eqn:Eu; [|reflexivity].
    assert (Ht : awaited l b = true).
    { apply existsb_exists. exists b. split; [assumption|].
      now rewrite Eu, Nat.eqb_refl. }
    congruence.
Qed.

End NoAnalysis.

(** X15. When the analysis gives the neutral default for every text (no
    API key, or a service that fails), the pass labels each article read
    that has content and no sentiment as neutral with the score 0. After
    the pass no article read is left to analyse, so that a further pass
    changes nothing: these articles are not analysed again. *)
Theorem unavailable_analysis_labels_neutral :
  forall (openai : option (text -> completion (option text)))
         (JSONparse : text -> completion json)
         (StringToNumber : text -> jsnum) (ObjectToNumber : json -> completion jsnum)
         (prepareValue : json -> option text) (toReal : jsnum -> jsnum)
         (now : Z) (st : Store),
    (forall t, analyzeSentiment openai JSONparse StringToNumber ObjectToNumber t
               = neutralDefault) ->
    toReal (Fin 0) = Fin 0 ->
    let pass :=
      processSentimentAnalysis openai JSONparse StringToNumber ObjectToNumber
        prepareValue toReal now in
    (forall a,
        In a (getArticles now (recentQuery today 50) st) ->
        truthy (art_sentiment a) = false -> truthy (art_content a) = true ->
        In (neutralLabel a) (articles (pass st))) /\
    (forall a,
        In a (getArticles now (recentQuery today 50) (pass st)) ->
        truthy (art_sentiment a) = true \/ truthy (art_content a) = false) /\
    pass (pass st) = pass st.
Proof.
  intros openai JSONparse StringToNumber ObjectToNumber prepareValue toReal now st
         Hno Hzero pass.
  set (recentArticles := getArticles now (recentQuery today 50) st).
  assert (Hpass : pass st = rewriteArticles (neutralLabels recentArticles) st).
  { unfold pass, processSentimentAnalysis. now apply fold_labelArticle_neutral. }
  assert (Hread : getArticles now (recentQuery today 50) (pass st)
                  = map (neutralLabels recentArticles) recentArticles).
  { apply getArticles_map.
    - now rewrite Hpass.
    - intros a. apply recentQuery_reads_date. unfold neutralLabels.
      now destruct (awaited recentArticles a).
    - intros a. unfold neutralLabels. now destruct (awaited recentArticles a). }
  assert (Hdone : forall a, In a (getArticles now (recentQuery today 50) (pass st)) ->
                            unlabelled a = false).
  { intros a Ha. rewrite Hread in Ha. apply in_map_iff in Ha as (b & <- & Hb).
    now apply neutralLabels_labelled. }
  split; [|split].
  - intros a Ha Hs Hc. rewrite Hpass. cbn [articles rewriteArticles].
    assert (Hw : neutralLabels recentArticles a = neutralLabel a).
    { unfold neutralLabels.
      assert (Ht : awaited recentArticles a = true).
      { apply existsb_exists. exists a. split; [assumption|].
        unfold unlabelled. now rewrite Hs, Hc, Nat.eqb_refl. }
      now rewrite Ht. }
    rewrite <- Hw. apply in_map.
    unfold recentArticles, getArticles in Ha. apply In_firstn, In_skipn in Ha.
    apply (Permutation_in _ (sortBy_perm _ _)) in Ha. now apply filter_In in Ha.
  - intros a Ha. apply Hdone in Ha. unfold unlabelled in Ha.
    destruct (truthy (art_sentiment a)); [now left|right].
    now destruct (truthy (art_content a)).
  - unfold pass at 1. unfold processSentimentAnalysis.
    now apply fold_labelArticle_skip.
Qed.

Lemma unavailable_analysis_labels_neutral_witness :
  map art_sentiment
    (articles
       (processSentimentAnalysis None (fun _ => Throw) (fun _ => NaN) (fun _ => Throw)
          (fun _ => None) (fun x => x) 1704070300000 storeWithOpenAI))
  = [Some (lit "neutral"); Some (lit "neutral")] /\
  processSentimentAnalysis None (fun _ => Throw) (fun _ => NaN) (fun _ => Throw)
    (fun _ => None) (fun x => x) 1704070300000
    (processSentimentAnalysis None (fun _ => Throw) (fun _ => NaN) (fun _ => Throw)
       (fun _ => None) (fun x => x) 1704070300000 storeWithOpenAI)
  = processSentimentAnalysis None (fun _ => Throw) (fun _ => NaN) (fun _ => Throw)
      (fun _ => None) (fun x => x) 1704070300000 storeWithOpenAI.
Proof.
  split; [vm_compute; reflexivity|].
  apply (unavailable_analysis_labels_neutral None (fun _ => Throw) (fun _ => NaN)
           (fun _ => Throw) (fun _ => None) (fun x => x) 1704070300000 storeWithOpenAI).
  - intros t. reflexivity.
  - reflexivity.
Defined.

(** ** The linker and the embeddings *)

Lemma fold_left_same {A B} (f : A -> B -> A) (l : list B) (a : A) :
  (forall x, f a x = a) -> fold_left f l a = a.
Proof. intros H. induction l as [|x l IH]; simpl; [reflexivity|]. now rewrite H. Qed.

(** X16. The embedding of a text is read off its first 8000 characters,
    and it is empty without an API key and when the call fails. When
    every embedding is empty, a run of the linker leaves the store as it
    is: no edge is made, although the score of two articles does not
    read the embeddings. *)
Theorem linker_needs_embeddings :
  forall (openaiEmbeddings : option (text -> completion (list jsnum)))
         (stringify : list jsnum -> text) (now : Z) (st : Store),
    (forall t t',
        embeddingInput t = embeddingInput t' ->
        generateEmbedding openaiEmbeddings t = generateEmbedding openaiEmbeddings t') /\
    (forall t, generateEmbedding None t = []) /\
    (forall create t,
        create (embeddingInput t) = Throw -> generateEmbedding (Some create) t = []) /\
    ((forall t, generateEmbedding openaiEmbeddings t = []) ->
     generateRelatedArticles (generateEmbedding openaiEmbeddings) stringify now st = st).
Proof.
  intros openaiEmbeddings stringify now st.
  split; [|split; [reflexivity|split]].
  - intros t t' H. unfold generateEmbedding.
    destruct openaiEmbeddings; [now rewrite H|reflexivity].
  - intros create t H. unfold generateEmbedding. now rewrite H.
  - intros H. unfold generateRelatedArticles. apply fold_left_same.
    intros a. unfold linkArticle. rewrite H. cbn [length Nat.ltb Nat.leb].
    now destruct (truthy (art_content a)).
Qed.

Lemma linker_needs_embeddings_witness :
  generateRelatedArticles (generateEmbedding None) noStringify 1704070000000 linkerStore
  = linkerStore.
Proof.
  apply (proj2 (proj2 (proj2
           (linker_needs_embeddings None noStringify 1704070000000 linkerStore)))).
  intros t. reflexivity.
Defined.





Section LinkerRuns.

Variable generateEmbedding : text -> list jsnum.
Variable stringify : list jsnum -> text.







End LinkerRuns.


(** ** Reading the edges *)

Lemma sortBy_length {A} (r : A -> A -> bool) (l : list A) :
  length (sortBy r l) = length l.
Proof. apply Permutation_length, sortBy_perm. Qed.

Lemma filter_id_at_most_one (id : ident) (l : list Article) :
  NoDup (map art_id l) -> length (filter (fun a => art_id a =? id) l) <= 1.
Proof.
  induction l as [|x l IH]; simpl; intros H; [lia|].
  inversion H as [|? ? Hx Hd]; subst. destruct (art_id x =? id) eqn:E; [|now apply IH].
  apply Nat.eqb_eq in E. simpl.
  destruct (filter (fun a => art_id a =? id) l) as [|y l'] eqn:Ef; [simpl; lia|].
  exfalso. apply Hx.
  assert (Hy : In y (filter (fun a => art_id a =? id) l)) by (rewrite Ef; now left).
  apply filter_In in Hy as [Hy Hi]. apply Nat.eqb_eq in Hi. rewrite E, <- Hi.
  now apply in_map.
Qed.

(** The edges of the store join two different articles. *)
Definition irreflexive (st : Store) : Prop :=
  forall e, In e (relatedArticles st) -> rel_articleId e <> rel_relatedArticleId e.

Lemma generateRelatedArticles_irreflexive (generateEmbedding : text -> list jsnum)
  (stringify : list jsnum -> text) (now : Z) (st : Store) :
  irreflexive st ->
  irreflexive (generateRelatedArticles generateEmbedding stringify now st).
Proof.
  intros H e He. unfold generateRelatedArticles in He.
  rewrite fold_linkArticle_edges in He. apply in_app_or in He as [He|He]; [now apply H|].
  apply in_flat_map in He as (a & _ & He).
  apply In_edgesOf in He as (r & -> & _ & _ & Hne & _). cbn. congruence.
Qed.

(** X18. The related articles of an article are at most five stored
    articles, each at the end of an edge that starts at the article.
    With unique identifiers and at most five such edges, the end of each
    of them is returned. The linker makes no edge from an article to
    itself, so after its run on a store without such edges no article is
    related to itself. *)
Theorem getRelatedArticles_follow_edges :
  forall (articleId : ident) (st : Store),
    length (getRelatedArticles articleId st) <= 5 /\
    (forall b,
        In b (getRelatedArticles articleId st) ->
        In b (articles st) /\
        exists e, In e (relatedArticles st) /\
                  rel_articleId e = articleId /\ rel_relatedArticleId e = art_id b) /\
    (NoDup (map art_id (articles st)) ->
     length (filter (fun e => rel_articleId e =? articleId) (relatedArticles st)) <= 5 ->
     forall e b,
       In e (relatedArticles st) -> rel_articleId e = articleId ->
       In b (articles st) -> art_id b = rel_relatedArticleId e ->
       In b (getRelatedArticles articleId st)) /\
    (forall generateEmbedding stringify now b,
        irreflexive st ->
        In b (getRelatedArticles articleId
                (generateRelatedArticles generateEmbedding stringify now st)) ->
        art_id b <> articleId).
Proof.
  intros articleId st.
  assert (Hrows : forall st0 e b,
            In (e, b)
               (flat_map
                  (fun e => map (fun a => (e, a))
                              (filter (fun a => art_id a =? rel_relatedArticleId e)
                                      (articles st0)))
                  (filter (fun e => rel_articleId e =? articleId) (relatedArticles st0)))
            <-> In e (relatedArticles st0) /\ rel_articleId e = articleId /\
                In b (articles st0) /\ art_id b = rel_relatedArticleId e).
  { intros st0 e b. rewrite in_flat_map. split.
    - intros (e' & He' & Hin). apply in_map_iff in Hin as (a & [= <- <-] & Ha).
      apply filter_In in He' as [He' Hid]. apply filter_In in Ha as [Ha Hb].
      apply Nat.eqb_eq in Hid, Hb. tauto.
    - intros (He & Hid & Hb & Hbid). exists e. split.
      + apply filter_In. split; [assumption|]. now apply Nat.eqb_eq.
      + apply in_map_iff. exists b. split; [reflexivity|].
        apply filter_In. split; [assumption|]. now apply Nat.eqb_eq. }
  assert (Hfrom : forall st0 b,
            In b (getRelatedArticles articleId st0) ->
            exists e, In e (relatedArticles st0) /\ rel_articleId e = articleId /\
                      In b (articles st0) /\ art_id b = rel_relatedArticleId e).
  { intros st0 b Hb. unfold getRelatedArticles in Hb.
    apply in_map_iff in Hb as ([e b'] & Hs & Hin). cbn in Hs. subst b'.
    apply In_firstn in Hin. apply (Permutation_in _ (sortBy_perm _ _)) in Hin.
    apply Hrows in Hin. now exists e. }
  split; [|split; [|split]].
  - unfold getRelatedArticles. rewrite length_map. apply firstn_length_le'.
  - intros b Hb. destruct (Hfrom st b Hb) as (e & He & Hid & Hin & Hbid).
    split; [assumption|]. exists e. auto.
  - intros Hd Hn e b He Hid Hb Hbid. unfold getRelatedArticles.
    apply in_map_iff. exists (e, b). split; [reflexivity|].
    rewrite firstn_all2.
    + apply (Permutation_in _ (Permutation_sym (sortBy_perm _ _))). now apply Hrows.
    + rewrite sortBy_length. eapply Nat.le_trans; [|exact Hn].
      generalize (filter (fun e => rel_articleId e =? articleId) (relatedArticles st)).
      intros l. induction l as [|x l IH]; simpl; [lia|].
      rewrite length_app, length_map.
      pose proof (filter_id_at_most_one (rel_relatedArticleId x) (articles st) Hd). lia.
  - intros generateEmbedding stringify now b Hirr Hb.
    destruct (Hfrom _ b Hb) as (e & He & Hid & _ & Hbid).
    apply (generateRelatedArticles_irreflexive generateEmbedding stringify now st Hirr)
      in He.
    congruence.
Qed.

(** ** Reading the trending records *)

(** [a] grows at least as fast as [b]. *)
Definition noFaster (a b : TrendingRecord) : Prop :=
  (tr_growthRate b <= tr_growthRate a)%Z.

Lemma sortBy_byGrowthDesc_sorted (l : list TrendingRecord) :
  StronglySorted noFaster (sortBy byGrowthDesc l).
Proof.
  assert (H : StronglySorted (inOrder TrendingRecord byGrowthDesc) (sortBy byGrowthDesc l)).
  { apply (sortBy_inOrder TrendingRecord byGrowthDesc).
    - intros x y. unfold byGrowthDesc. intros H. apply Z.ltb_lt in H. apply Z.ltb_ge. lia.
    - intros x y z. unfold byGrowthDesc. intros H1 H2.
      apply Z.ltb_ge in H1, H2. apply Z.ltb_ge. lia. }
  induction H as [|a l' Hs IH Hall]; constructor; [assumption|].
  rewrite Forall_forall in *. intros x Hx. specialize (Hall x Hx).
  unfold inOrder, byGrowthDesc in Hall. apply Z.ltb_ge in Hall. exact Hall.
Qed.

(** X19. The trending topics read are at most ten records of the window
    (a week for the range week, a day for every other range), fastest
    growth first, and no record of the window that is left out grows
    faster than one that is returned. The writer does not read the
    records either: a second run adds its records behind those of the
    first, so at the same time over the same articles every record is
    stored twice. *)
Theorem getTrendingTopics_top_ten :
  forall (now : Z) (timeRange : option TimeRange) (st : Store),
    let inWindow := fun r => (trendingThreshold now timeRange <=? tr_date r)%Z in
    let result := getTrendingTopics now timeRange st in
    length result <= 10 /\
    (forall r, In r result ->
               In r (trendingRecords st) /\
               (trendingThreshold now timeRange <= tr_date r)%Z) /\
    StronglySorted noFaster result /\
    (exists rest,
        Permutation (result ++ rest) (filter inWindow (trendingRecords st)) /\
        forall r x, In r result -> In x rest -> noFaster r x) /\
    (trendingThreshold now timeRange
     = if match timeRange with Some week => true | _ => false end
       then now - 7 * dayMs else now - dayMs)%Z /\
    (forall now1 date1 now2 date2,
        trendingRecords
          (updateTrendingTopics now2 date2 (updateTrendingTopics now1 date1 st))
        = trendingRecords st
          ++ trendingInserts date1 (getArticles now1 (recentQuery today 100) st)
          ++ trendingInserts date2 (getArticles now2 (recentQuery today 100) st)).
Proof.
  intros now timeRange st inWindow result. subst result. unfold getTrendingTopics.
  fold inWindow.
  set (rows := sortBy byGrowthDesc (filter inWindow (trendingRecords st))).
  assert (Hsorted : StronglySorted noFaster rows) by apply sortBy_byGrowthDesc_sorted.
  split; [apply firstn_length_le'|]. split; [|split; [|split; [|split]]].
  - intros r Hr. apply In_firstn in Hr.
    apply (Permutation_in _ (sortBy_perm _ _)) in Hr. apply filter_In in Hr as [Hr Hw].
    split; [assumption|]. now apply Z.leb_le.
  - now apply StronglySorted_firstn.
  - exists (skipn 10 rows). split.
    + rewrite firstn_skipn. apply sortBy_perm.
    + apply StronglySorted_app_order. now rewrite firstn_skipn.
  - unfold trendingThreshold. now destruct timeRange as [[]|].
  - intros now1 date1 now2 date2. cbn [trendingRecords updateTrendingTopics].
    now rewrite <- app_assoc.
Qed.

(** ** The processing run *)







(** ** Cleansing twice *)

Lemma In_trim (x : ascii) (s : text) : In x (trim s) -> In x s.
Proof.
  unfold trim. intros H.
  destruct (trimEnd_split (trimStart s)) as (w & Hw & _).
  assert (H1 : In x (trimStart s)) by (rewrite Hw; apply in_or_app; now left).
  destruct (dropWhile_split isSpace s) as (w' & Hw' & _).
  rewrite Hw'. apply in_or_app. now right.
Qed.

Lemma replaceAll_nowhere (m : text -> option text) (rep : text) (s : text) :
  search m s = None -> replaceAll m rep 0 s = s.
Proof.
  induction s as [|c s IH]; [reflexivity|].
  rewrite search_cons, replaceAll_cons.
  destruct (m (c :: s)); [discriminate|]. intros H. now rewrite IH.
Qed.

Lemma cleanHTML_no_amp (html : option text) :
  (forall s, html = Some s -> ~ In "&"%char s) -> ~ In "&"%char (cleanHTML html).
Proof.
  intros H. unfold cleanHTML. destruct (truthy html); [|intros []].
  destruct html as [s|]; [|intros Hin; apply In_trim in Hin; exact Hin].
  specialize (H s eq_refl). cbn [orEmpty].
  assert (Hs : ~ In "&"%char (stripTags s)).
  { intros Hin. apply replaceAll_In in Hin as [[]|Hin]. auto. }
  rewrite (decodeEntities_no_amp _ Hs). intros Hin. apply In_trim in Hin.
  apply replaceAll_In in Hin as [[E|[]]|Hin]; [discriminate|auto].
Qed.

Lemma cleanHTML_idempotent (html : option text) :
  (forall s, html = Some s -> ~ In "&"%char s) ->
  cleanHTML (Some (cleanHTML html)) = cleanHTML html.
Proof.
  intros H. unfold cleanHTML at 1. destruct (truthy (Some (cleanHTML html))) eqn:E.
  - cbn [orEmpty]. unfold stripTags.
    rewrite (replaceAll_nowhere matchTag [] _ (cleanHTML_tagFree html H)).
    rewrite (decodeEntities_no_amp _ (cleanHTML_no_amp html H)).
    rewrite (collapseSpaces_fixed _ false (cleanHTML_spaced html)).
    apply cleanHTML_trimmed.
  - destruct (cleanHTML html); [reflexivity|discriminate].
Qed.

Lemma createSnippet_of_cleansed (html : option text) :
  (forall s, html = Some s -> ~ In "&"%char s) ->
  createSnippet (cleanHTML html)
  = if 200 <? length (cleanHTML html)
    then trim (substring0 200 (cleanHTML html)) ++ lit "..."
    else cleanHTML html.
Proof.
  intros H. unfold createSnippet. rewrite (cleanHTML_idempotent html H).
  destruct (cleanHTML html) eqn:E; reflexivity.
Qed.

(** X21. The coordinator cleanses the description a second time for the
    snippet. On a text without [&] the second cleansing changes nothing,
    so that for a feed without [&] a stored row has a non-empty URL, its
    content is the cleansed description, and its snippet is the content
    when that has at most 200 characters, and otherwise the trimmed
    first 200 characters of the content followed by three dots. With an
    entity the second cleansing can change the text. *)
Theorem snippet_of_stored_row :
  (forall html : option text,
      (forall s, html = Some s -> ~ In "&"%char s) ->
      cleanHTML (Some (cleanHTML html)) = cleanHTML html) /\
  (exists html : option text,
      cleanHTML (Some (cleanHTML html)) <> cleanHTML html) /\
  (forall (now : Z) (sourceId : ident) (xmlText : text) (item : RSSItem) (a : Article),
      ~ In "&"%char xmlText ->
      In item (feed_items (parseRSS xmlText)) ->
      rowOf now sourceId item a ->
      art_url a <> [] /\
      exists content,
        art_content a = Some content /\
        item_description item = Some content /\
        trim content = content /\
        art_snippet a
        = Some (if 200 <? length content
                then trim (substring0 200 content) ++ lit "..."
                else content)).
Proof.
  split; [exact cleanHTML_idempotent|]. split.
  - exists (Some (lit "&lt;b&gt;bold&lt;/b&gt;")). vm_compute. discriminate.
  - intros now sourceId xmlText item a Hamp Hin
           (_ & Hurl & Hcontent & Hsnippet & _).
    apply parseRSS_items in Hin as (itemContent & Hincl & Hp).
    apply parseItem_fields in Hp
      as (rawTitle & rawDescription & _ & Hd & _ & _ & Hdesc & Hcont & Hlink).
    split; [congruence|]. exists (cleanHTML rawDescription).
    assert (Hraw : forall s, rawDescription = Some s -> ~ In "&"%char s).
    { intros s Hs Hi. apply Hamp, Hincl, (Hd _ Hs), Hi. }
    rewrite Hcontent, Hsnippet, Hcont, Hdesc.
    split; [|split; [reflexivity|split; [apply cleanHTML_trimmed|]]].
    + unfold orElse, orEmpty. now destruct (cleanHTML rawDescription).
    + f_equal.
      replace (orEmpty (orElse (Some (cleanHTML rawDescription)) (Some [])))
        with (cleanHTML rawDescription)
        by (unfold orElse, orEmpty; now destruct (cleanHTML rawDescription)).
      now apply createSnippet_of_cleansed.
Qed.

(** ** Feeds the extractor reads in full *)

(** A character of a field that needs no markup: not [<], and not a line
    terminator. *)
Definition fieldChar (c : ascii) : bool :=
  negb (Ascii.eqb c "<") && negb (isLineTerminator c).

Definition fieldText (s : text) : bool := forallb fieldChar s.

(** An item with a title, a link and a description, written without
    white space between its elements. *)
Definition simpleItem (title link description : text) : text :=
  lit "<item><title>" ++ title ++ lit "</title><link>" ++ link
  ++ lit "</link><description>" ++ description ++ lit "</description></item>".

Definition itemBody (title link description : text) : text :=
  lit "<title>" ++ title ++ lit "</title><link>" ++ link
  ++ lit "</link><description>" ++ description ++ lit "</description>".

(** The matcher fails wherever the text does not start with [<]. *)
Definition startsAtLt {A} (m : text -> option A) : Prop :=
  forall d s, Ascii.eqb d "<" = false -> m (d :: s) = None.

Lemma chrEq_lt (d : ascii) : Ascii.eqb d "<" = false -> chrEq true "<" d = false.
Proof. destruct d as [[] [] [] [] [] [] [] []]; intros H; try reflexivity; discriminate H. Qed.

Lemma matchLit_startsAtLt (p : text) : startsAtLt (matchLit true ("<"%char :: p)).
Proof. intros d s H. cbn [matchLit]. now rewrite chrEq_lt. Qed.

Lemma matchElement_startsAtLt (dotAll : bool) (open close : text) :
  startsAtLt (matchElement dotAll ("<"%char :: open) close).
Proof. intros d s H. unfold matchElement. now rewrite matchLit_startsAtLt. Qed.

Lemma matchCDataOrPlain_startsAtLt (tag : text) : startsAtLt (matchCDataOrPlain tag).
Proof.
  intros d s H. unfold matchCDataOrPlain.
  change (lit "<" ++ tag ++ lit ">") with ("<"%char :: tag ++ lit ">").
  change (("<"%char :: tag ++ lit ">") ++ lit "<![CDATA[")
    with ("<"%char :: (tag ++ lit ">") ++ lit "<![CDATA[").
  now rewrite !matchElement_startsAtLt.
Qed.

Lemma matchGuid_startsAtLt : startsAtLt matchGuid.
Proof.
  intros d s H. unfold matchGuid.
  change (lit "<guid") with ("<"%char :: lit "guid"). now rewrite matchLit_startsAtLt.
Qed.

Lemma search_step {A} (m : text -> option A) (c : ascii) (s : text) :
  m (c :: s) = None -> search m (c :: s) = search m s.
Proof. intros H. now rewrite search_cons, H. Qed.

Lemma search_here {A} (m : text -> option A) (s : text) (r : A) :
  m s = Some r -> search m s = Some r.
Proof. intros H. destruct s; simpl; now rewrite H. Qed.

Lemma search_field {A} (m : text -> option A) (g s : text) :
  startsAtLt m -> fieldText g = true -> search m (g ++ s) = search m s.
Proof.
  intros Hm. induction g as [|c g IH]; intros H; [reflexivity|].
  cbn [fieldText forallb] in H. apply andb_true_iff in H as [Hc Hg].
  apply andb_true_iff in Hc as [Hc _]. apply negb_true_iff in Hc.
  cbn [app]. rewrite search_step by now apply Hm. now apply IH.
Qed.

Lemma lazyUntil_unfold (dotAll ignoreCase : bool) (close s : text) :
  lazyUntil dotAll ignoreCase close s =
  match matchLit ignoreCase close s with
  | Some rest => Some ([], rest)
  | None =>
      match s with
      | [] => None
      | c :: s' =>
          if dotAll || negb (isLineTerminator c) then
            match lazyUntil dotAll ignoreCase close s' with
            | Some (g, rest) => Some (c :: g, rest)
            | None => None
            end
          else None
      end
  end.
Proof. destruct s; reflexivity. Qed.

Lemma lazyUntil_here (dotAll ignoreCase : bool) (close s rest : text) :
  matchLit ignoreCase close s = Some rest ->
  lazyUntil dotAll ignoreCase close s = Some ([], rest).
Proof. intros H. now rewrite lazyUntil_unfold, H. Qed.

Lemma lazyUntil_step (dotAll ignoreCase : bool) (close : text) (c : ascii) (s : text) :
  matchLit ignoreCase close (c :: s) = None ->
  dotAll || negb (isLineTerminator c) = true ->
  lazyUntil dotAll ignoreCase close (c :: s) =
  match lazyUntil dotAll ignoreCase close s with
  | Some (g, rest) => Some (c :: g, rest)
  | None => None
  end.
Proof. intros H1 H2. now rewrite lazyUntil_unfold, H1, H2. Qed.

Lemma lazyUntil_field (dotAll : bool) (close g s gs rest : text) :
  fieldText g = true ->
  lazyUntil dotAll true ("<"%char :: close) s = Some (gs, rest) ->
  lazyUntil dotAll true ("<"%char :: close) (g ++ s) = Some (g ++ gs, rest).
Proof.
  intros Hg Hs. induction g as [|c g IH]; [exact Hs|].
  cbn [fieldText forallb] in Hg. apply andb_true_iff in Hg as [Hc Hg].
  apply andb_true_iff in Hc as [Hlt Hnl]. apply negb_true_iff in Hlt.
  cbn [app]. rewrite lazyUntil_step.
  - now rewrite (IH Hg).
  - now apply matchLit_startsAtLt.
  - rewrite Hnl. apply orb_true_r.
Qed.

Lemma matchLit_self (ignoreCase : bool) (p s : text) :
  matchLit ignoreCase p (p ++ s) = Some s.
Proof.
  induction p as [|c p IH]; [reflexivity|]. cbn [app matchLit].
  assert (H : chrEq ignoreCase c c = true)
    by (unfold chrEq; destruct ignoreCase; apply Ascii.eqb_refl).
  now rewrite H.
Qed.

Lemma execAll_skip {A} (m : text -> option (A * text)) :
  forall s skip, execAll m skip s = execAll m 0 (skipn skip s).
Proof.
  induction s as [|c s IH]; intros skip; [now destruct skip|].
  destruct skip as [|k]; [reflexivity|]. cbn [execAll skipn]. apply IH.
Qed.

Lemma execAll_here {A} (m : text -> option (A * text)) (c : ascii) (x rest : text) (a : A) :
  m (c :: x ++ rest) = Some (a, rest) ->
  execAll m 0 (c :: x ++ rest) = a :: execAll m 0 rest.
Proof.
  intros H. cbn [execAll]. rewrite H, execAll_skip. do 2 f_equal.
  rewrite length_app, Nat.add_sub. now rewrite skipn_app, skipn_all, Nat.sub_diag.
Qed.

Lemma matchLit_app_self (ignoreCase : bool) (p q s : text) :
  matchLit ignoreCase (p ++ q) (p ++ s) = matchLit ignoreCase q s.
Proof.
  induction p as [|c p IH]; [reflexivity|]. cbn [app matchLit].
  assert (H : chrEq ignoreCase c c = true)
    by (unfold chrEq; destruct ignoreCase; apply Ascii.eqb_refl).
  now rewrite H.
Qed.

(** The element [<tag>g</tag>] at the head of a text, for a field [g]. *)
Lemma matchCDataOrPlain_field (tag g rest : text) :
  fieldText g = true ->
  matchCDataOrPlain tag
    ((lit "<" ++ tag ++ lit ">") ++ g ++ (lit "</" ++ tag ++ lit ">") ++ rest)
  = Some (None, Some g, rest).
Proof.
  intros Hg. unfold matchCDataOrPlain, matchElement.
  rewrite matchLit_app_self, matchLit_self.
  assert (H1 : matchLit true (lit "<![CDATA[")
                 (g ++ (lit "</" ++ tag ++ lit ">") ++ rest) = None).
  { destruct g as [|c g]; [reflexivity|].
    cbn [fieldText forallb] in Hg. apply andb_true_iff in Hg as [Hc _].
    apply andb_true_iff in Hc as [Hc _]. apply negb_true_iff in Hc.
    now apply matchLit_startsAtLt. }
  rewrite H1.
  change (lit "</" ++ tag ++ lit ">") with ("<"%char :: "/"%char :: tag ++ lit ">").
  rewrite (lazyUntil_field false _ g _ [] rest Hg).
  - now rewrite app_nil_r.
  - apply lazyUntil_here. apply (matchLit_self true ("<"%char :: "/"%char :: tag ++ lit ">")).
Qed.

Lemma matchElement_field (dotAll : bool) (open close g rest : text) :
  fieldText g = true ->
  matchElement dotAll open ("<"%char :: close) (open ++ g ++ ("<"%char :: close) ++ rest)
  = Some (g, rest).
Proof.
  intros Hg. unfold matchElement. rewrite matchLit_self.
  rewrite (lazyUntil_field dotAll _ g _ [] rest Hg).
  - now rewrite app_nil_r.
  - apply lazyUntil_here. apply (matchLit_self true ("<"%char :: close)).
Qed.

Ltac skip_search :=
  repeat first
    [ rewrite search_step by reflexivity
    | rewrite search_field
        by first [ assumption
                 | apply matchCDataOrPlain_startsAtLt
                 | apply matchElement_startsAtLt
                 | apply matchGuid_startsAtLt ] ].

Lemma search_title_itemBody (title link description : text) :
  fieldText title = true ->
  search (matchCDataOrPlain (lit "title")) (itemBody title link description)
  = Some (None, Some title,
          lit "<link>" ++ link ++ lit "</link><description>" ++ description
          ++ lit "</description>").
Proof.
  intros Ht. apply search_here.
  apply (matchCDataOrPlain_field (lit "title") title _ Ht).
Qed.

Lemma search_link_itemBody (title link description : text) :
  fieldText title = true -> fieldText link = true ->
  search (matchElement false (lit "<link>") (lit "</link>"))
         (itemBody title link description)
  = Some (link, lit "<description>" ++ description ++ lit "</description>").
Proof.
  intros Ht Hl. unfold itemBody. cbn [lit list_ascii_of_string app].
  skip_search. apply search_here.
  apply (matchElement_field false (lit "<link>") (lit "/link>") link _ Hl).
Qed.

Lemma search_description_itemBody (title link description : text) :
  fieldText title = true -> fieldText link = true -> fieldText description = true ->
  search (matchCDataOrPlain (lit "description")) (itemBody title link description)
  = Some (None, Some description, []).
Proof.
  intros Ht Hl Hd. unfold itemBody. cbn [lit list_ascii_of_string app].
  skip_search. apply search_here.
  pose proof (matchCDataOrPlain_field (lit "description") description [] Hd) as H.
  cbn [lit list_ascii_of_string app] in H. exact H.
Qed.

Lemma search_pubDate_itemBody (title link description : text) :
  fieldText title = true -> fieldText link = true -> fieldText description = true ->
  search (matchElement false (lit "<pubDate>") (lit "</pubDate>"))
         (itemBody title link description) = None.
Proof.
  intros Ht Hl Hd. unfold itemBody. cbn [lit list_ascii_of_string app].
  skip_search. reflexivity.
Qed.

Lemma search_guid_itemBody (title link description : text) :
  fieldText title = true -> fieldText link = true -> fieldText description = true ->
  search matchGuid (itemBody title link description) = None.
Proof.
  intros Ht Hl Hd. unfold itemBody. cbn [lit list_ascii_of_string app].
  skip_search. reflexivity.
Qed.

(** The item read from a simple item. *)
Definition itemOf (title link description : text) : RSSItem :=
  {| item_title := cleanHTML (Some title);
     item_link := trim link;
     item_description := Some (cleanHTML (Some description));
     item_pubDate := Some [];
     item_guid := Some [];
     item_content := Some (cleanHTML (Some description)) |}.

Lemma parseItem_itemBody (title link description : text) :
  fieldText title = true -> fieldText link = true -> fieldText description = true ->
  title <> [] -> trim link <> [] ->
  parseItem (itemBody title link description) = Some (itemOf title link description).
Proof.
  intros Ht Hl Hd Hne Hlink. unfold parseItem.
  rewrite search_title_itemBody, search_link_itemBody, search_description_itemBody,
    search_pubDate_itemBody, search_guid_itemBody by assumption.
  cbn [groupOr group1 orElse].
  destruct title as [|c title]; [contradiction|].
  destruct (trim link) as [|d l] eqn:E; [contradiction|].
  cbn [truthy andb]. unfold itemOf. rewrite E.
  now destruct description.
Qed.

Lemma lazyUntil_cons (dotAll ignoreCase : bool) (close : text) (c : ascii)
  (s g rest : text) :
  matchLit ignoreCase close (c :: s) = None ->
  dotAll || negb (isLineTerminator c) = true ->
  lazyUntil dotAll ignoreCase close s = Some (g, rest) ->
  lazyUntil dotAll ignoreCase close (c :: s) = Some (c :: g, rest).
Proof. intros H1 H2 H3. now rewrite lazyUntil_step, H3. Qed.

Lemma matchItem_simpleItem (title link description rest : text) :
  fieldText title = true -> fieldText link = true -> fieldText description = true ->
  matchItem (simpleItem title link description ++ rest)
  = Some (itemBody title link description, rest).
Proof.
  intros Ht Hl Hd. unfold matchItem, matchElement.
  assert (E : simpleItem title link description ++ rest
              = lit "<item>" ++ lit "<title>" ++ title ++ lit "</title><link>" ++ link
                ++ lit "</link><description>" ++ description
                ++ lit "</description>" ++ lit "</item>" ++ rest).
  { unfold simpleItem. now rewrite <- !app_assoc. }
  rewrite E, matchLit_self. unfold itemBody.
  cbn [lit list_ascii_of_string app].
  repeat first
    [ apply lazyUntil_cons; [reflexivity|reflexivity|]
    | apply lazyUntil_field; [assumption|] ].
  apply lazyUntil_here. reflexivity.
Qed.

Definition entryText (e : text * text * text) : text :=
  simpleItem (fst (fst e)) (snd (fst e)) (snd e).

Definition entryItem (e : text * text * text) : RSSItem :=
  itemOf (fst (fst e)) (snd (fst e)) (snd e).

(** The fields of the entry need no markup, and it has a title and a
    link. *)
Definition plainEntry (e : text * text * text) : Prop :=
  fieldText (fst (fst e)) = true /\ fieldText (snd (fst e)) = true /\
  fieldText (snd e) = true /\ fst (fst e) <> [] /\ trim (snd (fst e)) <> [].

Lemma execAll_simpleItems (entries : list (text * text * text)) :
  (forall e, In e entries -> plainEntry e) ->
  execAll matchItem 0 (flat_map entryText entries)
  = map (fun e => itemBody (fst (fst e)) (snd (fst e)) (snd e)) entries.
Proof.
  induction entries as [|[[t l] d] entries IH]; intros H; [reflexivity|].
  cbn [flat_map map fst snd].
  destruct (H (t, l, d)) as (Ht & Hl & Hd & _); [now left|]. cbn [fst snd] in *.
  pose proof (matchItem_simpleItem t l d (flat_map entryText entries) Ht Hl Hd) as Hm.
  unfold entryText at 1. cbn [fst snd].
  assert (E : simpleItem t l d ++ flat_map entryText entries
              = "<"%char :: (lit "item><title>" ++ t ++ lit "</title><link>" ++ l
                             ++ lit "</link><description>" ++ d
                             ++ lit "</description></item>")
                            ++ flat_map entryText entries).
  { unfold simpleItem. reflexivity. }
  rewrite E in *. rewrite (execAll_here _ _ _ _ _ Hm). f_equal.
  apply IH. intros e He. apply H. now right.
Qed.

(** X22. A document made of items that each hold a title, a link and a
    description, written without markup, line breaks or white space
    between the elements, is read in full: the feed has one item for
    each of them, in the order of the document, with the cleansed title
    and description, the trimmed link, and an empty date and guid. *)
Theorem parseRSS_reads_simple_items :
  forall entries : list (text * text * text),
    (forall e, In e entries -> plainEntry e) ->
    feed_items (parseRSS (flat_map entryText entries)) = map entryItem entries.
Proof.
  intros entries H. unfold parseRSS. cbn [feed_items].
  rewrite execAll_simpleItems by assumption. rewrite map_map.
  induction entries as [|[[t l] d] entries IH]; [reflexivity|].
  cbn [map fst snd keepSome].
  destruct (H (t, l, d)) as (Ht & Hl & Hd & Hne & Hlink); [now left|].
  cbn [fst snd] in *. rewrite parseItem_itemBody by assumption.
  cbn [keepSome]. f_equal. apply IH. intros e He. apply H. now right.
Qed.

Lemma parseRSS_reads_simple_items_witness :
  map item_title
    (feed_items
       (parseRSS
          (flat_map entryText
             [(lit "Chip  shortage eases", lit " https://techcrunch.com/chips ",
               lit "Supply improves.");
              (lit "Phone makers meet", lit "https://theverge.com/b", [])])))
  = [lit "Chip shortage eases"; lit "Phone makers meet"].
Proof.
  rewrite (parseRSS_reads_simple_items
             [(lit "Chip  shortage eases", lit " https://techcrunch.com/chips ",
               lit "Supply improves.");
              (lit "Phone makers meet", lit "https://theverge.com/b", [])]).
  - vm_compute. reflexivity.
  - intros e [<-|[<-|[]]]; vm_compute; repeat split; discriminate.
Defined.
